(** * Experiment configurations of [ctrl_7b_tp_sample_av_mv.py]

    The module builds nested configuration trees (Python dicts, lists and
    [LazyCall] nodes), derives a small debug variant of a tree by
    [copy.deepcopy] followed by item assignments, and registers the trees in
    hydra's [ConfigStore].

    Python objects are mutable and shared by reference, so the trees live in
    an explicit object store: a value is a scalar or a reference into the
    store, and every function that builds or changes a tree is a computation
    over the store. *)

From stdpp Require Import base option list strings pretty gmap.
From Stdlib Require Import ZArith Lia Ascii.

Set Warnings "-register-all".

(** ** Values and objects *)

Abbreviation loc := nat.

(** Keys of a dict ([str] everywhere but in [caption_view_idx_map]) and
    subscripts of a list. *)
Inductive key :=
  | KStr (s : string)
  | KInt (i : Z).

(** A Python value: a scalar, or a reference to a container in the store.
    A float is kept as the source text of its expression; nothing in the
    module computes with one. *)
Inductive val :=
  | VBool (b : bool)
  | VInt (i : Z)
  | VFloat (lit : string)
  | VStr (s : string)
  | VRef (l : loc).

(** Modelled from the spec: [LazyDict] and [LazyCall]
    (cosmos_transfer1.utils.lazy_config) are not part of the sources at hand.
    A [LazyDict] is a configuration tree, a mapping from keys to values, and
    is kept as the dict it wraps; [L(target)(name=value, ...)] is a deferred
    construction node that records the target by name together with its
    arguments and never calls it. Item access on a node reads and writes its
    arguments. *)
Inductive obj :=
  | ODict (items : list (key * val))
  | OList (elems : list val)
  | ONode (target : string) (args : list (key * val)).

Definition key_eqb (a b : key) : bool :=
  match a, b with
  | KStr s, KStr t => String.eqb s t
  | KInt i, KInt j => Z.eqb i j
  | _, _ => false
  end.

(** A dict keeps its items in insertion order; assigning to a key that is
    present replaces the value in place, a new key goes to the end. *)
Fixpoint dict_get (k : key) (d : list (key * val)) : option val :=
  match d with
  | [] => None
  | (k', v) :: r => if key_eqb k k' then Some v else dict_get k r
  end.

Fixpoint dict_set (k : key) (x : val) (d : list (key * val)) : list (key * val) :=
  match d with
  | [] => [(k, x)]
  | (k', v) :: r => if key_eqb k k' then (k', x) :: r else (k', v) :: dict_set k x r
  end.

Definition dict_of (items : list (key * val)) : list (key * val) :=
  foldl (λ d kv, dict_set kv.1 kv.2 d) [] items.

(** [xs[i]]: the position a Python subscript denotes, negative subscripts
    counting from the end; [None] is an IndexError. *)
Definition list_index {A} (xs : list A) (i : Z) : option nat :=
  let n := Z.of_nat (length xs) in
  if ((0 <=? i) && (i <? n))%Z then Some (Z.to_nat i)
  else if ((- n <=? i) && (i <? 0))%Z then Some (Z.to_nat (n + i))
  else None.

Definition obj_getitem (o : obj) (k : key) : option val :=
  match o with
  | ODict d | ONode _ d => dict_get k d
  | OList xs =>
      match k with
      | KInt i => j ← list_index xs i; xs !! j
      | KStr _ => None
      end
  end.

Definition obj_setitem (o : obj) (k : key) (x : val) : option obj :=
  match o with
  | ODict d => Some (ODict (dict_set k x d))
  | ONode t d => Some (ONode t (dict_set k x d))
  | OList xs =>
      match k with
      | KInt i => j ← list_index xs i; Some (OList (<[j:=x]> xs))
      | KStr _ => None
      end
  end.

(** The values an object holds, and the same object around other values. *)
Definition children (o : obj) : list val :=
  match o with
  | ODict d | ONode _ d => d.*2
  | OList xs => xs
  end.

Definition with_children (o : obj) (vs : list val) : obj :=
  match o with
  | ODict d => ODict (zip d.*1 vs)
  | ONode t d => ONode t (zip d.*1 vs)
  | OList _ => OList vs
  end.

Definition blank (o : obj) : obj :=
  match o with
  | ODict _ => ODict []
  | OList _ => OList []
  | ONode t _ => ONode t []
  end.

(** ** The object store *)

Abbreviation heap := (list obj).

(** A computation reads and writes the store; [None] stands for a raised
    exception (KeyError, IndexError, TypeError). *)
Definition M (A : Type) : Type := heap → option (A * heap).

Definition ret {A} (a : A) : M A := λ h, Some (a, h).
Definition bind {A B} (m : M A) (f : A → M B) : M B :=
  λ h, match m h with
       | Some (a, h') => f a h'
       | None => None
       end.
Definition raise {A} : M A := λ _, None.
Definition lift {A} (o : option A) : M A :=
  λ h, match o with Some a => Some (a, h) | None => None end.

Declare Scope heap_scope.
Delimit Scope heap_scope with M.
Notation "'let*' x := m 'in' k" := (bind m (λ x, k))
  (at level 10, x pattern, m at level 100, k at level 200) : heap_scope.
Notation "m ;; k" := (bind m (λ _, k))
  (at level 100, k at level 200, right associativity) : heap_scope.
Local Open Scope heap_scope.

(** A new object gets the next free address. *)
Definition alloc (o : obj) : M val :=
  λ h, Some (VRef (length h), h ++ [o]).

Definition load (x : val) : M obj :=
  λ h, match x with
       | VRef l => match h !! l with Some o => Some (o, h) | None => None end
       | _ => None
       end.

Definition store (x : val) (o : obj) : M unit :=
  λ h, match x with
       | VRef l => if decide (l < length h) then Some ((), <[l:=o]> h) else None
       | _ => None
       end.

(** [x[k]] and [x[k] = v]. *)
Definition getitem (x : val) (k : key) : M val :=
  let* o := load x in lift (obj_getitem o k).

Definition setitem (x : val) (k : key) (v : val) : M unit :=
  let* o := load x in
  let* o' := lift (obj_setitem o k v) in
  store x o'.

(** Reading along a path of subscripts, [x[k1][k2]...], without changing the
    store. *)
Fixpoint field (x : val) (path : list key) (h : heap) : option val :=
  match path with
  | [] => Some x
  | k :: path' =>
      match getitem x k h with
      | Some (y, _) => field y path' h
      | None => None
      end
  end.

(** The elements of the list object a path leads to. *)
Definition field_list (x : val) (path : list key) (h : heap) : option (list val) :=
  match field x path h with
  | Some (VRef l) =>
      match h !! l with
      | Some (OList xs) => Some xs
      | _ => None
      end
  | _ => None
  end.

(** ** copy.deepcopy

    A scalar is returned as it is. A container is copied once: the copy is
    created empty and entered in the memo under the address of the original
    before the parts are copied into it, so that shared parts stay shared in
    the copy and a cycle ends at the memo. [fuel] bounds the number of
    containers copied; [deepcopy] gives one unit per object of the store,
    which is all a copy can take (see [deepcopy_total]). *)
Abbreviation memo := (list (loc * val)).

Fixpoint memo_get (l : loc) (m : memo) : option val :=
  match m with
  | [] => None
  | (l', y) :: r => if Nat.eqb l l' then Some y else memo_get l r
  end.

Definition copy_all (copy : val → memo → M (val * memo)) :
    list val → memo → M (list val * memo) :=
  fix go (xs : list val) (m : memo) : M (list val * memo) :=
    match xs with
    | [] => ret ([], m)
    | x :: xs' =>
        let* r := copy x m in
        let* r' := go xs' r.2 in
        ret (r.1 :: r'.1, r'.2)
    end.

Fixpoint deepcopy_rec (fuel : nat) (x : val) (m : memo) : M (val * memo) :=
  match x with
  | VRef l =>
      match memo_get l m with
      | Some y => ret (y, m)
      | None =>
          match fuel with
          | O => raise
          | S fuel' =>
              let* o := load x in
              let* y := alloc (blank o) in
              let* r := copy_all (deepcopy_rec fuel') (children o) ((l, y) :: m) in
              store y (with_children o r.1);;
              ret (y, r.2)
          end
      end
  | _ => ret (x, m)
  end.

Definition deepcopy (x : val) : M val :=
  λ h, (let* r := deepcopy_rec (length h) x [] in ret r.1) h.

(** ** Literal expressions

    The displays and calls a tree is written with: [dict(...)] and [{...}],
    [[...]], and [L(target)(...)]. Evaluation goes left to right and
    allocates a container once its parts are evaluated.

    Modelled from the spec: [LazyCall] and [LazyDict] are not part of the
    sources at hand. They keep what they are given in a config container of
    omegaconf, and such a container takes a deep copy of a config node that
    is put into it. A tree that was built before and is named by a variable,
    [Var], is therefore copied at every place where it is made a part of a
    tree: the places do not share it. A part written in place is new and is
    taken as it is. *)
Inductive expr :=
  | Lit (v : val)
  | Var (v : val)
  | Dict (items : list (key * expr))
  | Seq (elems : list expr)
  | L (target : string) (kwargs : list (key * expr)).

Definition mapM {A B} (f : A → M B) : list A → M (list B) :=
  fix go (xs : list A) : M (list B) :=
    match xs with
    | [] => ret []
    | x :: xs' =>
        let* y := f x in
        let* ys := go xs' in
        ret (y :: ys)
    end.

Fixpoint eval (e : expr) : M val :=
  match e with
  | Lit v => ret v
  | Var v => deepcopy v
  | Dict items =>
      let* d := mapM (λ ke, let* v := eval ke.2 in ret (ke.1, v)) items in
      alloc (ODict (dict_of d))
  | Seq elems =>
      let* xs := mapM eval elems in
      alloc (OList xs)
  | L target kwargs =>
      let* d := mapM (λ ke, let* v := eval ke.2 in ret (ke.1, v)) kwargs in
      alloc (ONode target (dict_of d))
  end.

Definition kw (k : string) (e : expr) : key * expr := (KStr k, e).
Definition str_ (s : string) : expr := Lit (VStr s).
Definition int_ (i : Z) : expr := Lit (VInt i).
Definition bool_ (b : bool) : expr := Lit (VBool b).
Definition float_ (lit : string) : expr := Lit (VFloat lit).

(** [range(n)] *)
Definition range (n : Z) : list Z := Z.of_nat <$> seq 0 (Z.to_nat n).

(** ** Strings and paths *)

(** [str.startswith] and [str.endswith] for a one-character argument. *)
Definition startswith_slash (s : string) : bool :=
  match s with
  | String c _ => Ascii.eqb c "/"%char
  | EmptyString => false
  end.

Fixpoint endswith_slash (s : string) : bool :=
  match s with
  | EmptyString => false
  | String c EmptyString => Ascii.eqb c "/"%char
  | String _ r => endswith_slash r
  end.

(** posixpath.join *)
Definition os_path_join (a : string) (p : list string) : string :=
  foldl (λ path b,
           if startswith_slash b then b
           else if String.eqb path "" || endswith_slash path then path +:+ b
           else path +:+ "/" +:+ b) a p.

(** [(p[:i], p[i:])] for [i = p.rfind('/') + 1]. *)
Fixpoint split_last_slash (p : string) : string * string :=
  match p with
  | EmptyString => (EmptyString, EmptyString)
  | String c r =>
      let '(head, tail) := split_last_slash r in
      match head with
      | EmptyString => if Ascii.eqb c "/"%char then (String c EmptyString, r) else (EmptyString, String c tail)
      | _ => (String c head, tail)
      end
  end.

Fixpoint all_slash (s : string) : bool :=
  match s with
  | EmptyString => true
  | String c r => Ascii.eqb c "/"%char && all_slash r
  end.

(** [s.rstrip('/')] *)
Fixpoint rstrip_slash (s : string) : string :=
  match s with
  | EmptyString => EmptyString
  | String c r =>
      match rstrip_slash r with
      | EmptyString => if Ascii.eqb c "/"%char then EmptyString else String c EmptyString
      | r' => String c r'
      end
  end.

(** posixpath.basename and posixpath.dirname *)
Definition os_path_basename (p : string) : string := (split_last_slash p).2.

Definition os_path_dirname (p : string) : string :=
  let head := (split_last_slash p).1 in
  if all_slash head then head else rstrip_slash head.

(** [s.replace(old, new)]: every occurrence of [old], left to right and
    without overlap. [skip] counts the characters of a match still to be
    dropped. *)
Fixpoint replace_go (old new : string) (skip : nat) (s : string) : string :=
  match s with
  | EmptyString => EmptyString
  | String c r =>
      match skip with
      | S k => replace_go old new k r
      | O =>
          if String.prefix old s
          then new +:+ replace_go old new (String.length old - 1) r
          else String c (replace_go old new 0 r)
      end
  end.

Fixpoint intersperse (new s : string) : string :=
  match s with
  | EmptyString => new
  | String c r => new +:+ String c (intersperse new r)
  end.

Definition str_replace (s old new : string) : string :=
  match old with
  | EmptyString => intersperse new s
  | _ => replace_go old new 0 s
  end.

(** A path with a directory part has a slash in it. *)
Fixpoint has_slash (s : string) : bool :=
  match s with
  | EmptyString => false
  | String c r => Ascii.eqb c "/" || has_slash r
  end.

(** [sub in s] *)
Fixpoint str_contains (sub s : string) : bool :=
  String.prefix sub s ||
  match s with
  | EmptyString => false
  | String _ r => str_contains sub r
  end.

(** Every character of [s] is one of [P]. *)
Fixpoint string_forall (P : ascii → bool) (s : string) : bool :=
  match s with
  | EmptyString => true
  | String c r => P c && string_forall P r
  end.

(** The characters of a decimal number. *)
Definition is_num_char (c : ascii) : bool :=
  existsb (Ascii.eqb c) ["-"; "0"; "1"; "2"; "3"; "4"; "5"; "6"; "7"; "8"; "9"]%char.

(** [for x in xs: body], the loop passing on what the body leaves. *)
Fixpoint for_each {A S} (xs : list A) (body : A → S → M S) (s : S) : M S :=
  match xs with
  | [] => ret s
  | x :: xs' => let* s' := body x s in for_each xs' body s'
  end.

(** ** The experiment registry *)

(** Modelled from the spec: hydra's [ConfigStore] is not part of the sources
    at hand. The module only calls [cs.store]; the calls are kept in the
    order they are made, and the registry they leave is the mapping from
    (group, name) to a tree in which a later call overwrites an earlier one
    at the same key. *)
Record StoreCall := {
  call_group : string;
  call_package : string;
  call_name : string;
  call_node : val
}.

(** [cs.store(group=..., package=..., name=..., node=...)]; the name has to
    be a string. *)
Definition cs_store (group package : string) (name node : val) (cs : list StoreCall) :
    M (list StoreCall) :=
  match name with
  | VStr s =>
      ret (cs ++ [ {| call_group := group; call_package := package; call_name := s;
                      call_node := node |} ])
  | _ => raise
  end.

(** The registry a sequence of calls leaves. *)
Definition registry_of (cs : list StoreCall) : gmap (string * string) val :=
  foldl (λ reg c, <[(call_group c, call_name c) := call_node c]> reg) ∅ cs.

(** [t[k]] for a dict of strings that is never changed, as [mv_model_names];
    [None] is a KeyError. *)
Fixpoint table_get (k : string) (t : list (string * string)) : option string :=
  match t with
  | [] => None
  | (k', v) :: r => if String.eqb k k' then Some v else table_get k r
  end.

(** ** Moving a computation to a larger store

    What a computation allocates does not depend on the objects that are in
    the store before it runs, except for the addresses: started on a store
    [h0 ++ ...] instead of [...], it yields the same objects with every
    reference moved up by the length of [h0]. The one thing that may depend
    on the store as a whole is the text of a container. *)
Definition shift_val (n : nat) (v : val) : val :=
  match v with
  | VRef l => VRef (n + l)
  | _ => v
  end.

Definition shift_items (n : nat) (d : list (key * val)) : list (key * val) :=
  prod_map id (shift_val n) <$> d.

Definition shift_obj (n : nat) (o : obj) : obj :=
  match o with
  | ODict d => ODict (shift_items n d)
  | OList xs => OList (shift_val n <$> xs)
  | ONode t d => ONode t (shift_items n d)
  end.

Definition shift_memo (n : nat) (m : memo) : memo :=
  prod_map (Nat.add n) (shift_val n) <$> m.

Fixpoint shift_expr (n : nat) (e : expr) : expr :=
  match e with
  | Lit v => Lit (shift_val n v)
  | Var v => Var (shift_val n v)
  | Dict items => Dict (map (λ ke, (ke.1, shift_expr n ke.2)) items)
  | Seq elems => Seq (map (shift_expr n) elems)
  | L t kwargs => L t (map (λ ke, (ke.1, shift_expr n ke.2)) kwargs)
  end.

Definition rebase (h0 h : heap) : heap := h0 ++ (shift_obj (length h0) <$> h).

(** [moves f h0 m' m]: whenever [m] returns, [m'] returns the same on the
    store moved behind [h0], with the result translated by [f]. *)
Definition moves {A} (f : A → A) (h0 : heap) (m' m : M A) : Prop :=
  ∀ h a h', m h = Some (a, h') → m' (rebase h0 h) = Some (f a, rebase h0 h').

(** A value that is no reference. *)
Definition scalar (v : val) : Prop :=
  match v with
  | VRef _ => False
  | _ => True
  end.

(** [sub] occurs in [s]. *)
Definition contains_substring (s sub : string) : Prop :=
  ∃ pre post, s = pre +:+ sub +:+ post.

(** ** Reachability and freshness *)

(** [reach h x l]: the object at [l] is part of the tree [x] denotes in [h]. *)
Inductive reach (h : heap) : val → loc → Prop :=
  | reach_here l : reach h (VRef l) l
  | reach_step l o v l' :
      h !! l = Some o → v ∈ children o → reach h v l' → reach h (VRef l) l'.

(** A value that does not refer to any of the first [n] objects. *)
Definition fresh (n : nat) (v : val) : Prop :=
  match v with
  | VRef l => n ≤ l
  | _ => True
  end.

(** The objects from [n] on only refer to objects from [n] on. *)
Definition fresh_closed (n : nat) (h : heap) : Prop :=
  ∀ l o, n ≤ l → h !! l = Some o → Forall (fresh n) (children o).

(** [fresh_closed], computed. *)
Definition fresh_from (n : nat) (h : heap) : bool :=
  forallb (λ o, forallb (λ v, match v with VRef l => n <=? l | _ => true end) (children o))
    (drop n h).

(** [hoare P m Q]: started on a store with [P], if [m] returns [a] and leaves
    the store [h'], then [Q a h']. *)
Definition hoare {A} (P : heap → Prop) (m : M A) (Q : A → heap → Prop) : Prop :=
  ∀ h a h', P h → m h = Some (a, h') → Q a h'.

(** The store [h] extends [h0] by objects that do not refer to [h0]. *)
Definition extends (h0 h : heap) : Prop :=
  h0 `prefix_of` h ∧ fresh_closed (length h0) h.

(** Every reference in the store, and in [x], is to an object of the store. *)
Definition bound (h : heap) (v : val) : Prop :=
  match v with
  | VRef l => l < length h
  | _ => True
  end.

Definition closed (h : heap) : Prop :=
  Forall (λ o, Forall (bound h) (children o)) h.

(** A memo of a copy of [h0]: every object of [h0] is entered at most once. *)
Definition memo_ok (h0 : heap) (m : memo) : Prop :=
  NoDup m.*1 ∧ Forall (λ l, l < length h0) m.*1.

(** A small tree with the items [make_small_config] assigns to, for trying
    the functions out: the root is the last object. *)
Definition example_store : heap :=
  [ ODict [ (KStr "group", VStr "g"); (KStr "name", VStr "n") ];
    ONode "Net" [ (KStr "num_blocks", VInt 28) ];
    ODict [ (KStr "num_blocks", VInt 28);
            (KStr "layer_mask", VRef 3) ];
    OList [ VBool false; VBool true; VBool true ];
    ODict [ (KStr "load_path", VStr "base.pt") ];
    ODict [ (KStr "net", VRef 1); (KStr "net_ctrl", VRef 2); (KStr "base_load_from", VRef 4) ];
    ODict [ (KStr "tensor_model_parallel_size", VInt 8);
            (KStr "sequence_parallel", VBool true) ];
    ODict [ (KStr "load_path", VStr "ckpt.pt") ];
    ODict [ (KStr "job", VRef 0); (KStr "model", VRef 5); (KStr "model_parallel", VRef 6);
            (KStr "checkpoint", VRef 7) ] ].

(** ** Copies and assignments, for the statements about [make_small_config] *)

(** [v'] is the copy of [v] under the memo [m]. *)
Definition copy_of (m : memo) (v v' : val) : Prop :=
  match v with
  | VRef l => memo_get l m = Some v'
  | _ => v' = v
  end.

(** The object [y] refers to in [h] is the object at [l] in [h0] around the
    copies of its parts. *)
Definition copied (h0 h : heap) (m : memo) (l : loc) (y : val) : Prop :=
  ∃ l' o vs, y = VRef l' ∧ h0 !! l = Some o ∧ h !! l' = Some (with_children o vs) ∧
    Forall2 (copy_of m) (children o) vs.

(** From the store [h] and the memo [m] a copy in progress has come to [h']
    and [m']: what it has entered in the memo since is copied, to objects
    that were not in [h]. *)
Definition copy_step (h0 h : heap) (m : memo) (h' : heap) (m' : memo) : Prop :=
  ∃ mnew, m' = mnew ++ m ∧ NoDup m'.*1 ∧ h `prefix_of` h' ∧
    Forall (λ ly, copied h0 h' m' ly.1 ly.2 ∧ fresh (length h) ly.2) mnew.

(** [v'] in [h'] is a copy of [v] in [h]: the same scalar, or a reference to
    an object that was not in [h], of the same kind and with the same keys
    (or length) as the original, in which every scalar item is the one of
    the original. *)
Definition copy_val (h h' : heap) (v v' : val) : Prop :=
  match v with
  | VRef l =>
      ∃ l' o vs, v' = VRef l' ∧ length h ≤ l' ∧ h !! l = Some o ∧
        h' !! l' = Some (with_children o vs) ∧
        Forall2 (λ c c', scalar c → c' = c) (children o) vs
  | _ => v' = v
  end.

(** The value at the end of [path] is a dict or a node: an item of it with a
    [str] key can be read and assigned. *)
Definition mapping_at (x : val) (path : list key) (h : heap) : bool :=
  match field x path h with
  | Some (VRef l) =>
      match h !! l with
      | Some (ODict _) | Some (ONode _ _) => true
      | _ => false
      end
  | _ => false
  end.

(** [x[k1]...[kn][s] = v] takes the store [h] to [h']. *)
Definition assign (x : val) (path : list key) (s : string) (v : val) (h h' : heap) : Prop :=
  ∃ a, field x path h = Some a ∧ setitem a (KStr s) v h = Some ((), h').

(** The items [make_small_config] reads and assigns to are where it looks
    for them. *)
Definition small_config_ok (b : val) (net_ctrl : bool) (h : heap) : bool :=
  mapping_at b [KStr "job"] h &&
  bool_decide (is_Some (field b [KStr "job"; KStr "name"] h)) &&
  mapping_at b [KStr "model"; KStr "net"] h &&
  (if net_ctrl then mapping_at b [KStr "model"; KStr "net_ctrl"] h else true) &&
  mapping_at b [KStr "model_parallel"] h &&
  mapping_at b [KStr "checkpoint"] h &&
  mapping_at b [KStr "model"; KStr "base_load_from"] h.

(** The keys [make_small_config] assigns to. *)
Definition small_config_keys : list key :=
  [ KStr "group"; KStr "name"; KStr "num_blocks"; KStr "layer_mask";
    KStr "tensor_model_parallel_size"; KStr "sequence_parallel"; KStr "load_path" ].

(** Stores that agree on every path of [str] keys that [make_small_config]
    does not assign to. *)
Definition same_items (h h' : heap) : Prop :=
  ∀ x path, Forall (λ k, (∃ s, k = KStr s) ∧ k ∉ small_config_keys) path →
    field x path h' = field x path h ∧ mapping_at x path h' = mapping_at x path h.

(** [x[k1]...[kn][k] = v] *)
Fixpoint set_path (x : val) (path : list key) (k : key) (v : val) : M unit :=
  match path with
  | [] => setitem x k v
  | k1 :: path' => let* a := getitem x k1 in set_path a path' k v
  end.

(** The tree of [example_store] with a float as job.name, and with a list. *)
Definition example_store_float : heap :=
  <[0 := ODict [ (KStr "group", VStr "g"); (KStr "name", VFloat "1.5") ]]> example_store.

Definition example_store_list : heap :=
  <[0 := ODict [ (KStr "group", VStr "g"); (KStr "name", VRef 3) ]]> example_store.

(** The tree of [example_store] with a trainer item, which
    [make_small_config] does not work on; the root is the last object. *)
Definition example_store_trainer : heap :=
  example_store ++
  [ OList [ VFloat "0.9"; VFloat "0.99" ];
    ODict [ (KStr "max_iter", VInt 100); (KStr "betas", VRef 9) ];
    ODict [ (KStr "job", VRef 0); (KStr "model", VRef 5); (KStr "model_parallel", VRef 6);
            (KStr "checkpoint", VRef 7); (KStr "trainer", VRef 10) ] ].

(** ** The module *)

Section Experiments.

(** The checkpoint paths of cosmos_transfer1.checkpoints are not part of the
    sources at hand; the module is read for any value of them. *)
Variable SV2MV_t2v_BASE_CHECKPOINT_AV_SAMPLE_PATH_dbg : string.
Variable SV2MV_t2v_HDMAP2WORLD_CONTROLNET_7B_CHECKPOINT_PATH_dbg : string.
Variable SV2MV_t2v_LIDAR2WORLD_CONTROLNET_7B_CHECKPOINT_PATH_dbg : string.

(** What [str] gives for a float and for a container is not computed here;
    the module is read for any text. [float_str] takes the source text of
    the float, under which a float is kept. Modelled from the spec: the
    classes of the containers ([LazyDict], [LazyCall]) are not part of the
    sources at hand; the text of a container, [container_str], may depend on
    everything in the store. *)
Variable float_str : string → string.
Variable container_str : heap → loc → string.

(** The text an f-string puts for a value, [f"{v}"]: any value has one. *)
Definition format_val (h : heap) (v : val) : string :=
  match v with
  | VStr s => s
  | VInt i => pretty i
  | VBool b => if b then "True" else "False"
  | VFloat lit => float_str lit
  | VRef l => container_str h l
  end.

Definition format (v : val) : M string := λ h, Some (format_val h v, h).

Definition num_blocks : Z := 28.
Definition num_control_blocks : Z := 3.
Definition ckpt_root : string := "checkpoints/".
Definition data_root : string := "datasets/waymo_transfer/".

Definition mv_model_names : list (string * string) :=
  [ ("hdmap", SV2MV_t2v_HDMAP2WORLD_CONTROLNET_7B_CHECKPOINT_PATH_dbg);
    ("lidar", SV2MV_t2v_LIDAR2WORLD_CONTROLNET_7B_CHECKPOINT_PATH_dbg) ].

(** The two names [make_ctrlnet_config] derives first, [(job_name, job_project)];
    an integer is formatted in decimal. *)
Definition job_name_project (hint_key : string) (num_control_blocks : Z)
    (pretrain_model_path : string) (t2v : bool) (num_frames : Z) : string * string :=
  if String.eqb pretrain_model_path "" then
    if t2v then
      ("CTRL_7Bv1pt3_t2v_sv2mv_" +:+ pretty num_frames +:+ "frames_" +:+ hint_key
         +:+ "_block" +:+ pretty num_control_blocks +:+ "_pretrain",
       "cosmos_transfer1_pretrain")
    else
      ("CTRL_7Bv1pt3_lvg_sv2mv_" +:+ pretty num_frames +:+ "frames_" +:+ hint_key
         +:+ "_block" +:+ pretty num_control_blocks +:+ "_pretrain",
       "cosmos_transfer1_pretrain")
  else
    if t2v then
      ("CTRL_7Bv1pt3_t2v_sv2mv_" +:+ pretty num_frames +:+ "frames_" +:+ hint_key
         +:+ "_block" +:+ pretty num_control_blocks +:+ "_posttrain",
       "cosmos_transfer1_posttrain")
    else
      ("CTRL_7Bv1pt3_lvg_sv2mv_" +:+ pretty num_frames +:+ "frames_" +:+ hint_key
         +:+ "_block" +:+ pretty num_control_blocks +:+ "_posttrain",
       "cosmos_transfer1_posttrain").

Definition example_multiview_dataset_waymo (hint_key : string) (num_frames : Z) : expr :=
  L "AVTransferDataset"
    [ kw "dataset_dir" (str_ data_root);
      kw "num_frames" (int_ num_frames);
      kw "hint_key" (str_ hint_key);
      kw "resolution" (str_ "720");
      kw "view_keys"
        (Seq [ str_ "pinhole_front"; str_ "pinhole_front_left"; str_ "pinhole_front_right";
               str_ "pinhole_side_left"; str_ "pinhole_side_right" ]);
      kw "caption_view_idx_map"
        (Dict [ (KInt 0, int_ 0); (KInt 1, int_ 1); (KInt 2, int_ 2); (KInt 3, int_ 4);
                (KInt 4, int_ 5) ]);
      kw "sample_n_views" (int_ 3);
      kw "load_mv_emb" (bool_ false);
      kw "is_train" (bool_ true) ].

Definition base_load_path : string :=
  os_path_join ckpt_root
    [ os_path_dirname SV2MV_t2v_BASE_CHECKPOINT_AV_SAMPLE_PATH_dbg; "checkpoints_tp";
      "model_model_mp_*.pt" ].

(** The tree [make_ctrlnet_config] returns, around the dataset node it has
    built before: the variable that holds the node is the [dataset] argument
    of both dataloaders and of both samplers, so each of the four gets a copy
    of the node. *)
Definition ctrl_config (dataset : val) (hint_key : string) (num_control_blocks : Z)
    (pretrain_model_path : string) (t2v : bool) (num_frames : Z)
    (job_name job_project : string) : expr :=
  Dict
    [ kw "defaults"
        (Seq [ Dict [ kw "override /net" (str_ "faditv2_7b") ];
               Dict [ kw "override /net_ctrl" (str_ "faditv2_sv2mv") ];
               Dict [ kw "override /conditioner"
                        (str_ "view_cond_ctrlnet_add_fps_image_size_padding_mask") ];
               Dict [ kw "override /tokenizer"
                        (str_ "cosmos_diffusion_tokenizer_res720_comp8x8x8_t121_ver092624") ];
               Dict [ kw "override /hint_key" (str_ hint_key) ];
               Dict [ kw "override /callbacks" (str_ "basic") ];
               Dict [ kw "override /checkpoint" (str_ "local") ];
               Dict [ kw "override /ckpt_klass" (str_ "fast_tp") ];
               str_ "_self_" ]);
      kw "job"
        (Dict [ kw "group" (str_ "CTRL_7Bv1_sampleAV");
                kw "project" (str_ job_project);
                kw "name" (str_ job_name) ]);
      kw "optimizer"
        (Dict [ kw "lr" (float_ "2 ** (-14.3)");
                kw "weight_decay" (float_ "0.1");
                kw "betas" (Seq [ float_ "0.9"; float_ "0.99" ]);
                kw "eps" (float_ "1e-10") ]);
      kw "checkpoint"
        (Dict [ kw "load_path" (str_ pretrain_model_path);
                kw "broadcast_via_filesystem" (bool_ true);
                kw "save_iter" (int_ 1000);
                kw "load_training_state" (bool_ false);
                kw "strict_resume" (bool_ false);
                kw "keys_not_to_resume" (Seq []) ]);
      kw "trainer"
        (Dict [ kw "distributed_parallelism" (str_ "ddp");
                kw "logging_iter" (int_ 200);
                kw "max_iter" (int_ 999999999);
                kw "callbacks" (Dict [ kw "iter_speed" (Dict [ kw "hit_thres" (int_ 5) ]) ]);
                kw "timestamp_seed" (bool_ true) ]);
      kw "model_parallel"
        (Dict [ kw "tensor_model_parallel_size" (int_ 8);
                kw "sequence_parallel" (bool_ true) ]);
      kw "model"
        (Dict [ kw "fsdp_enabled" (bool_ false);
                kw "n_views" (int_ 3);
                kw "context_parallel_size" (int_ 1);
                kw "loss_reduce" (str_ "mean");
                kw "latent_shape"
                  (Seq [ int_ 16; int_ ((num_frames - 1) / 8 + 1); int_ 88; int_ 160 ]);
                kw "base_load_from" (Dict [ kw "load_path" (str_ base_load_path) ]);
                kw "finetune_base_model" (bool_ false);
                kw "hint_mask" (Seq [ bool_ true ]);
                kw "hint_dropout_rate" (float_ "0.15");
                kw "conditioner"
                  (Dict [ kw "video_cond_bool"
                     (Dict [ kw "condition_location" (str_ "first_random_n");
                             kw "cfg_unconditional_type"
                               (str_ "zero_condition_region_condition_mask");
                             kw "apply_corruption_to_condition_region" (str_ "noise_with_sigma");
                             kw "condition_on_augment_sigma" (bool_ false);
                             kw "dropout_rate" (float_ "0.0");
                             kw "first_random_n_num_condition_t_max"
                               (int_ (if t2v then 0 else 2));
                             kw "normalize_condition_latent" (bool_ false);
                             kw "augment_sigma_sample_p_mean" (float_ "-3.0");
                             kw "augment_sigma_sample_p_std" (float_ "2.0");
                             kw "augment_sigma_sample_multiplier" (float_ "1.0") ]) ]);
                kw "net"
                  (L "VideoExtendGeneralDIT"
                     [ kw "in_channels" (int_ 17);
                       kw "n_views" (int_ 3);
                       kw "n_views_emb" (int_ 7);
                       kw "view_condition_dim" (int_ 6);
                       kw "add_repeat_frame_embedding" (bool_ true);
                       kw "extra_per_block_abs_pos_emb" (bool_ true);
                       kw "pos_emb_learnable" (bool_ true);
                       kw "extra_per_block_abs_pos_emb_type" (str_ "learnable");
                       kw "num_blocks" (int_ num_blocks) ]);
                kw "adjust_video_noise" (bool_ true);
                kw "net_ctrl"
                  (Dict [ kw "in_channels" (int_ 16);
                          kw "hint_channels" (int_ 16);
                          kw "num_blocks" (int_ num_blocks);
                          kw "n_views" (int_ 3);
                          kw "n_views_emb" (int_ 7);
                          kw "view_condition_dim" (int_ 6);
                          kw "add_repeat_frame_embedding" (bool_ true);
                          kw "is_extend_model" (bool_ true);
                          kw "layer_mask"
                            (Seq ((λ i, bool_ (if (i >=? num_control_blocks)%Z then true else false))
                                    <$> range num_blocks));
                          kw "extra_per_block_abs_pos_emb" (bool_ true);
                          kw "pos_emb_learnable" (bool_ true);
                          kw "extra_per_block_abs_pos_emb_type" (str_ "learnable") ]);
                kw "tokenizer" (Dict [ kw "pixel_chunk_duration" (int_ num_frames) ]) ]);
      kw "model_obj" (L "MultiVideoDiffusionModelWithCtrl" []);
      kw "dataloader_train"
        (L "DataLoader"
           [ kw "dataset" (Var dataset);
             kw "sampler" (L "get_sampler" [ kw "dataset" (Var dataset) ]);
             kw "batch_size" (int_ 1);
             kw "drop_last" (bool_ true);
             kw "pin_memory" (bool_ true);
             kw "num_workers" (int_ 8) ]);
      kw "dataloader_val"
        (L "DataLoader"
           [ kw "dataset" (Var dataset);
             kw "sampler" (L "get_sampler" [ kw "dataset" (Var dataset) ]);
             kw "batch_size" (int_ 1);
             kw "drop_last" (bool_ true);
             kw "pin_memory" (bool_ true);
             kw "num_workers" (int_ 8) ]) ].

Definition make_ctrlnet_config (hint_key : string) (num_control_blocks : Z)
    (pretrain_model_path : string) (t2v : bool) (num_frames : Z) : M val :=
  let '(job_name, job_project) :=
    job_name_project hint_key num_control_blocks pretrain_model_path t2v num_frames in
  let* dataset := eval (example_multiview_dataset_waymo hint_key num_frames) in
  eval (ctrl_config dataset hint_key num_control_blocks pretrain_model_path t2v num_frames
          job_name job_project).

Definition make_small_config (base_config : val) (net_ctrl : bool) : M val :=
  let* small_config := deepcopy base_config in
  (let* job := getitem small_config (KStr "job") in
   setitem job (KStr "group") (VStr "debug"));;
  (let* job := getitem small_config (KStr "job") in
   let* name := getitem job (KStr "name") in
   let* text := format name in
   let* job := getitem small_config (KStr "job") in
   setitem job (KStr "name") (VStr (text +:+ "_SMALL")));;
  let num_blocks_small : Z := 2%Z in
  (let* model := getitem small_config (KStr "model") in
   let* net := getitem model (KStr "net") in
   setitem net (KStr "num_blocks") (VInt num_blocks_small));;
  (if net_ctrl then
     (let* model := getitem small_config (KStr "model") in
      let* ctrl := getitem model (KStr "net_ctrl") in
      setitem ctrl (KStr "num_blocks") (VInt num_blocks_small));;
     (let* mask :=
        eval (Seq ((λ i, bool_ (if (i >=? num_blocks_small / 2)%Z then true else false))
                     <$> range num_blocks_small)) in
      let* model := getitem small_config (KStr "model") in
      let* ctrl := getitem model (KStr "net_ctrl") in
      setitem ctrl (KStr "layer_mask") mask)
   else ret ());;
  (let* mp := getitem small_config (KStr "model_parallel") in
   setitem mp (KStr "tensor_model_parallel_size") (VInt 1));;
  (let* mp := getitem small_config (KStr "model_parallel") in
   setitem mp (KStr "sequence_parallel") (VBool false));;
  (let* ckpt := getitem small_config (KStr "checkpoint") in
   setitem ckpt (KStr "load_path") (VStr ""));;
  (let* model := getitem small_config (KStr "model") in
   let* base := getitem model (KStr "base_load_from") in
   setitem base (KStr "load_path") (VStr ""));;
  ret small_config.

(** The statements of [make_small_config], one after the other, with the
    stores between them. *)
Definition small_config_run (b : val) (net_ctrl : bool) (h : heap) (s : val) (h' : heap) :
    Prop :=
  ∃ h1 h2 h3 h4 h5 h6 h7 h8 name text,
    deepcopy b h = Some (s, h1) ∧
    assign s [KStr "job"] "group" (VStr "debug") h1 h2 ∧
    field s [KStr "job"; KStr "name"] h2 = Some name ∧
    text = format_val h2 name ∧
    assign s [KStr "job"] "name" (VStr (text +:+ "_SMALL")) h2 h3 ∧
    assign s [KStr "model"; KStr "net"] "num_blocks" (VInt 2) h3 h4 ∧
    (if net_ctrl then
       ∃ h4',
         assign s [KStr "model"; KStr "net_ctrl"] "num_blocks" (VInt 2) h4 h4' ∧
         assign s [KStr "model"; KStr "net_ctrl"] "layer_mask" (VRef (length h4'))
           (h4' ++ [OList [VBool false; VBool true]]) h5
     else h5 = h4) ∧
    assign s [KStr "model_parallel"] "tensor_model_parallel_size" (VInt 1) h5 h6 ∧
    assign s [KStr "model_parallel"] "sequence_parallel" (VBool false) h6 h7 ∧
    assign s [KStr "checkpoint"] "load_path" (VStr "") h7 h8 ∧
    assign s [KStr "model"; KStr "base_load_from"] "load_path" (VStr "") h8 h'.

Definition all_hint_key : list string := [ "control_input_hdmap"; "control_input_lidar" ].

(** [os.path.join(ckpt_root, os.path.dirname(p), "checkpoints_tp", os.path.basename(p))] *)
Definition tp_ckpt_path (pretrain_ckpt_path : string) : string :=
  os_path_join ckpt_root
    [ os_path_dirname pretrain_ckpt_path; "checkpoints_tp"; os_path_basename pretrain_ckpt_path ].

(** The body of the two nested loops at the end of the module. *)
Definition loop_body (key : string) (num_frames : Z) (cs : list StoreCall) : M (list StoreCall) :=
  let* t2v_config := make_ctrlnet_config key num_control_blocks "" true num_frames in
  let* debug_config := make_small_config t2v_config true in
  let* cs :=
    (let* job := getitem t2v_config (KStr "job") in
     let* name := getitem job (KStr "name") in
     cs_store "experiment" "_global_" name t2v_config cs) in
  let* cs :=
    (let* job := getitem debug_config (KStr "job") in
     let* name := getitem job (KStr "name") in
     cs_store "experiment" "_global_" name debug_config cs) in
  let hint_key_short := str_replace key "control_input_" "" in
  let* pretrain_ckpt_path := lift (table_get hint_key_short mv_model_names) in
  let* config :=
    make_ctrlnet_config key num_control_blocks (tp_ckpt_path pretrain_ckpt_path) true num_frames in
  let* job := getitem config (KStr "job") in
  let* name := getitem job (KStr "name") in
  cs_store "experiment" "_global_" name config cs.

(** The module level loop, run when the module is imported: the store calls
    it makes, in order, on a registry without earlier calls. *)
Definition generation_loop : M (list StoreCall) :=
  for_each all_hint_key
    (λ key cs, for_each [57; 121]%Z (λ num_frames cs, loop_body key num_frames cs) cs) [].



(** What the loop is to leave behind, for the statements below. *)

(** The names of the from-scratch and of the post-training experiment of a
    hint key and a frame count. *)
Definition pretrain_name (key : string) (num_frames : Z) : string :=
  "CTRL_7Bv1pt3_t2v_sv2mv_" +:+ pretty num_frames +:+ "frames_" +:+ key +:+ "_block3_pretrain".

Definition posttrain_name (key : string) (num_frames : Z) : string :=
  "CTRL_7Bv1pt3_t2v_sv2mv_" +:+ pretty num_frames +:+ "frames_" +:+ key +:+ "_block3_posttrain".

(** The (hint key, frame count) combinations, in the order of the loop. *)
Definition combinations : list (string * Z) :=
  flat_map (λ key, (λ num_frames, (key, num_frames)) <$> [57; 121]%Z) all_hint_key.

Definition experiment (name : string) (node : val) : StoreCall :=
  {| call_group := "experiment"; call_package := "_global_"; call_name := name;
     call_node := node |}.

(** [calls] are the store calls of one combination: a from-scratch tree, the
    debug variant of it that [make_small_config] makes with net_ctrl True (a
    tree of its own, in group "debug", with two blocks in the net and in the
    control branch and a mask of two entries), and a post-training tree of
    full size. *)
Definition stored_for (h : heap) (kn : string * Z) (calls : list StoreCall) : Prop :=
  ∃ t2v_config debug_config config path,
    calls = [ experiment (pretrain_name kn.1 kn.2) t2v_config;
              experiment (pretrain_name kn.1 kn.2 +:+ "_SMALL") debug_config;
              experiment (posttrain_name kn.1 kn.2) config ] ∧
    field t2v_config [KStr "job"; KStr "name"] h = Some (VStr (pretrain_name kn.1 kn.2)) ∧
    field t2v_config [KStr "job"; KStr "group"] h = Some (VStr "CTRL_7Bv1_sampleAV") ∧
    field t2v_config [KStr "checkpoint"; KStr "load_path"] h = Some (VStr "") ∧
    field t2v_config [KStr "model"; KStr "net"; KStr "num_blocks"] h = Some (VInt 28) ∧
    debug_config ≠ t2v_config ∧
    field debug_config [KStr "job"; KStr "name"] h
      = Some (VStr (pretrain_name kn.1 kn.2 +:+ "_SMALL")) ∧
    field debug_config [KStr "job"; KStr "group"] h = Some (VStr "debug") ∧
    field debug_config [KStr "checkpoint"; KStr "load_path"] h = Some (VStr "") ∧
    field debug_config [KStr "model"; KStr "net"; KStr "num_blocks"] h = Some (VInt 2) ∧
    field debug_config [KStr "model"; KStr "net_ctrl"; KStr "num_blocks"] h = Some (VInt 2) ∧
    field_list debug_config [KStr "model"; KStr "net_ctrl"; KStr "layer_mask"] h
      = Some [VBool false; VBool true] ∧
    field config [KStr "job"; KStr "name"] h = Some (VStr (posttrain_name kn.1 kn.2)) ∧
    field config [KStr "job"; KStr "group"] h = Some (VStr "CTRL_7Bv1_sampleAV") ∧
    field config [KStr "job"; KStr "project"] h = Some (VStr "cosmos_transfer1_posttrain") ∧
    field config [KStr "checkpoint"; KStr "load_path"] h = Some (VStr path) ∧
    path ≠ "" ∧
    field config [KStr "model"; KStr "net"; KStr "num_blocks"] h = Some (VInt 28).

(** For every combination, the post-training tree stored under its name has
    [path_of entry] as checkpoint.load_path, where [entry] is the entry of
    the checkpoint table for the hint key without its "control_input_"
    prefix. *)
Definition posttrain_load_paths (path_of : string → string) (cs : list StoreCall)
    (h : heap) : Prop :=
  Forall (λ kn : string * Z,
            ∃ c short entry,
              c ∈ cs ∧
              call_name c = posttrain_name kn.1 kn.2 ∧
              kn.1 = "control_input_" +:+ short ∧
              table_get short mv_model_names = Some entry ∧
              field (call_node c) [KStr "checkpoint"; KStr "load_path"] h
                = Some (VStr (path_of entry)))
         combinations.

(** The places of a dataset node in a tree of [make_ctrlnet_config]. *)
Definition dataset_paths : list (list key) :=
  [ [KStr "dataloader_train"; KStr "dataset"];
    [KStr "dataloader_train"; KStr "sampler"; KStr "dataset"];
    [KStr "dataloader_val"; KStr "dataset"];
    [KStr "dataloader_val"; KStr "sampler"; KStr "dataset"] ].

(** The items of a tree of [make_ctrlnet_config] that depend on the
    arguments, assigned the values they have for the arguments given. *)
Definition with_arguments (b : val) (hint_key : string) (num_control_blocks : Z)
    (pretrain_model_path : string) (t2v : bool) (num_frames : Z) : M unit :=
  let '(job_name, job_project) :=
    job_name_project hint_key num_control_blocks pretrain_model_path t2v num_frames in
  let mask := λ i : Z, if (i >=? num_control_blocks)%Z then true else false in
  set_path b [KStr "job"] (KStr "project") (VStr job_project);;
  set_path b [KStr "job"] (KStr "name") (VStr job_name);;
  set_path b [KStr "checkpoint"] (KStr "load_path") (VStr pretrain_model_path);;
  set_path b [KStr "model"; KStr "conditioner"; KStr "video_cond_bool"]
    (KStr "first_random_n_num_condition_t_max") (VInt (if t2v then 0 else 2));;
  for_each dataset_paths
    (λ dataset _,
       set_path b dataset (KStr "num_frames") (VInt num_frames);;
       set_path b dataset (KStr "hint_key") (VStr hint_key)) ();;
  set_path b [KStr "defaults"; KInt 4] (KStr "override /hint_key") (VStr hint_key);;
  set_path b [KStr "model"; KStr "latent_shape"] (KInt 1) (VInt ((num_frames - 1) / 8 + 1));;
  set_path b [KStr "model"; KStr "tokenizer"] (KStr "pixel_chunk_duration") (VInt num_frames);;
  for_each (range num_blocks)
    (λ i _, set_path b [KStr "model"; KStr "net_ctrl"; KStr "layer_mask"] (KInt i)
              (VBool (mask i))) ().

(** ** Properties *)

(** *** Paths and strings on examples *)

Example os_path_join_ex :
  os_path_join "checkpoints/" ["a/b"; "checkpoints_tp"; "x.pt"] = "checkpoints/a/b/checkpoints_tp/x.pt".
Proof. reflexivity. Qed.

Example os_path_dirname_ex : os_path_dirname "a/b/x.pt" = "a/b" ∧ os_path_dirname "x.pt" = "".
Proof. split; reflexivity. Qed.

Example os_path_basename_ex : os_path_basename "a/b/x.pt" = "x.pt" ∧ os_path_basename "x.pt" = "x.pt".
Proof. split; reflexivity. Qed.

Example str_replace_ex : str_replace "control_input_hdmap" "control_input_" "" = "hdmap".
Proof. reflexivity. Qed.

(** *** The monad *)

Lemma bind_Some {A B} (m : M A) (f : A → M B) h b h' :
  bind m f h = Some (b, h') ↔ ∃ a h1, m h = Some (a, h1) ∧ f a h1 = Some (b, h').
Proof.
  unfold bind. split.
  - destruct (m h) as [[a h1]|]; [eauto | discriminate].
  - intros (a & h1 & -> & ?). done.
Qed.

Lemma lift_Some {A} (o : option A) h a h' :
  lift o h = Some (a, h') ↔ o = Some a ∧ h' = h.
Proof.
  unfold lift. destruct o as [x|]; split; intros H; try discriminate.
  - by simplify_eq.
  - destruct H as [? ->]. by simplify_eq.
  - by destruct H.
Qed.

Lemma ret_Some {A} (x : A) h a h' : ret x h = Some (a, h') ↔ a = x ∧ h' = h.
Proof.
  unfold ret. split; intros H.
  - by simplify_eq.
  - by destruct H as [-> ->].
Qed.

(** *** Moving references *)

Lemma dict_get_shift n k d :
  dict_get k (shift_items n d) = shift_val n <$> dict_get k d.
Proof.
  induction d as [|[k' v] d IH]; [done|]. simpl.
  destruct (key_eqb k k'); [done | apply IH].
Qed.

Lemma dict_set_shift n k x d :
  dict_set k (shift_val n x) (shift_items n d) = shift_items n (dict_set k x d).
Proof.
  induction d as [|[k' v] d IH]; [done|]. simpl.
  destruct (key_eqb k k'); [done|]. simpl. by rewrite IH.
Qed.

Lemma dict_of_shift n d : dict_of (shift_items n d) = shift_items n (dict_of d).
Proof.
  unfold dict_of. change (@nil (key * val)) with (shift_items n []) at 1.
  generalize (@nil (key * val)) as acc.
  induction d as [|[k v] d IH]; intros acc; [done|]. simpl.
  rewrite dict_set_shift. apply IH.
Qed.

Lemma list_index_fmap {A B} (f : A → B) (xs : list A) i :
  list_index (f <$> xs) i = list_index xs i.
Proof. unfold list_index. by rewrite length_fmap. Qed.

Lemma obj_getitem_shift n o k :
  obj_getitem (shift_obj n o) k = shift_val n <$> obj_getitem o k.
Proof.
  destruct o as [d|xs|t d]; simpl; try apply dict_get_shift.
  destruct k as [s|i]; [done|]. rewrite list_index_fmap.
  destruct (list_index xs i) as [j|]; [|done]. simpl. apply list_lookup_fmap.
Qed.

Lemma obj_setitem_shift n o k x :
  obj_setitem (shift_obj n o) k (shift_val n x) = shift_obj n <$> obj_setitem o k x.
Proof.
  destruct o as [d|xs|t d]; simpl; try by rewrite dict_set_shift.
  destruct k as [s|i]; [done|]. rewrite list_index_fmap.
  destruct (list_index xs i) as [j|]; [|done]. simpl. by rewrite list_fmap_insert.
Qed.

Lemma children_shift n o : children (shift_obj n o) = shift_val n <$> children o.
Proof.
  destruct o as [d|xs|t d]; simpl; [|done|];
    unfold shift_items; rewrite <- !list_fmap_compose; by apply list_fmap_ext; intros ? [].
Qed.

Lemma keys_shift n d : (shift_items n d).*1 = d.*1.
Proof. unfold shift_items. rewrite <- list_fmap_compose. by apply list_fmap_ext; intros ? []. Qed.

Lemma zip_shift n (ks : list key) vs :
  zip ks (shift_val n <$> vs) = shift_items n (zip ks vs).
Proof.
  revert vs. induction ks as [|k ks IH]; intros [|v vs]; simpl; try done. by rewrite IH.
Qed.

Lemma with_children_shift n o vs :
  with_children (shift_obj n o) (shift_val n <$> vs) = shift_obj n (with_children o vs).
Proof. destruct o as [d|xs|t d]; simpl; by rewrite ?keys_shift, ?zip_shift. Qed.

Lemma blank_shift n o : blank (shift_obj n o) = shift_obj n (blank o).
Proof. by destruct o. Qed.

Lemma rebase_length h0 h : length (rebase h0 h) = length h0 + length h.
Proof. unfold rebase. by rewrite length_app, length_fmap. Qed.

Lemma rebase_lookup h0 h l :
  rebase h0 h !! (length h0 + l) = shift_obj (length h0) <$> h !! l.
Proof.
  unfold rebase. rewrite lookup_app_r by lia.
  replace (length h0 + l - length h0) with l by lia. apply list_lookup_fmap.
Qed.

Lemma rebase_nil h0 : rebase h0 [] = h0.
Proof. unfold rebase. apply app_nil_r. Qed.

Lemma rebase_snoc h0 h o : rebase h0 h ++ [shift_obj (length h0) o] = rebase h0 (h ++ [o]).
Proof. unfold rebase. by rewrite fmap_app, app_assoc. Qed.

Lemma rebase_insert h0 h l o :
  <[length h0 + l := shift_obj (length h0) o]> (rebase h0 h) = rebase h0 (<[l := o]> h).
Proof.
  unfold rebase. rewrite insert_app_r. by rewrite list_fmap_insert.
Qed.

Section Moves.
Context (h0 : heap).
Abbreviation n := (length h0).

Lemma moves_ret {A} (f : A → A) (a : A) : moves f h0 (ret (f a)) (ret a).
Proof. intros h a' h' [-> ->]%ret_Some. done. Qed.

Lemma moves_bind {A B} (f : A → A) (g : B → B) (m' m : M A) (k' k : A → M B) :
  moves f h0 m' m → (∀ a, moves g h0 (k' (f a)) (k a)) → moves g h0 (bind m' k') (bind m k).
Proof.
  intros Hm Hk h b h' (a & h1 & H1 & H2)%bind_Some.
  apply bind_Some. exists (f a), (rebase h0 h1). split; [by apply Hm | by apply Hk].
Qed.

Lemma moves_lift {A} (f : A → A) (o' o : option A) :
  o' = f <$> o → moves f h0 (lift o') (lift o).
Proof. intros -> h a h' [-> ->]%lift_Some. done. Qed.

Lemma moves_alloc o : moves (shift_val n) h0 (alloc (shift_obj n o)) (alloc o).
Proof.
  intros h a h' H. unfold alloc in *. injection H as <- <-.
  by rewrite rebase_length, rebase_snoc.
Qed.

Lemma moves_load x : moves (shift_obj n) h0 (load (shift_val n x)) (load x).
Proof.
  intros h o h' H. unfold load in *. destruct x as [| | | |l]; try discriminate. simpl.
  rewrite rebase_lookup. destruct (h !! l); [|discriminate]. by injection H as <- <-.
Qed.

Lemma moves_store x o : moves id h0 (store (shift_val n x) (shift_obj n o)) (store x o).
Proof.
  intros h [] h' H. unfold store in *. destruct x as [| | | |l]; try discriminate. simpl.
  destruct (decide (l < length h)); [|discriminate]. injection H as <-.
  rewrite decide_True by (rewrite rebase_length; lia). by rewrite rebase_insert.
Qed.

Lemma moves_getitem x k :
  moves (shift_val n) h0 (getitem (shift_val n x) k) (getitem x k).
Proof.
  unfold getitem. eapply moves_bind; [apply moves_load|].
  intros o. apply moves_lift, obj_getitem_shift.
Qed.

Lemma moves_setitem x k v :
  moves id h0 (setitem (shift_val n x) k (shift_val n v)) (setitem x k v).
Proof.
  unfold setitem. eapply moves_bind; [apply moves_load|]. intros o.
  eapply moves_bind; [apply moves_lift, obj_setitem_shift|]. intros o'. apply moves_store.
Qed.

End Moves.

Lemma expr_ind' (P : expr → Prop) :
  (∀ v, P (Lit v)) →
  (∀ v, P (Var v)) →
  (∀ items, Forall (λ ke, P ke.2) items → P (Dict items)) →
  (∀ elems, Forall P elems → P (Seq elems)) →
  (∀ t kwargs, Forall (λ ke, P ke.2) kwargs → P (L t kwargs)) →
  ∀ e, P e.
Proof.
  intros HL HV HD HS HN. fix IH 1. intros [v|v|items|elems|t kwargs].
  - apply HL.
  - apply HV.
  - apply HD. induction items as [|[k e] r IHr]; constructor; [apply IH | apply IHr].
  - apply HS. induction elems as [|e r IHr]; constructor; [apply IH | apply IHr].
  - apply HN. induction kwargs as [|[k e] r IHr]; constructor; [apply IH | apply IHr].
Qed.

(** Closes [moves f h0 (ret a') (ret a)] when [a'] is [f a] after computation. *)
Ltac moves_ret_tac :=
  let H := fresh in intros ? ? ? H; apply ret_Some in H as [-> ->]; reflexivity.

Section MovesTrees.
Context (h0 : heap).
Abbreviation n := (length h0).

Lemma moves_raise {A} (f : A → A) : moves f h0 raise raise.
Proof. intros h a h' H. discriminate. Qed.

Lemma moves_mapM {A B} (fa : A → A) (fb : B → B) (f' f : A → M B) xs :
  Forall (λ x, moves fb h0 (f' (fa x)) (f x)) xs →
  moves (fmap fb) h0 (mapM f' (fa <$> xs)) (mapM f xs).
Proof.
  induction 1 as [|x xs Hx _ IH]; simpl.
  - moves_ret_tac.
  - eapply moves_bind; [apply Hx|]. intros y.
    eapply moves_bind; [apply IH|]. intros ys. moves_ret_tac.
Qed.

Lemma memo_get_shift l m :
  memo_get (n + l) (shift_memo n m) = shift_val n <$> memo_get l m.
Proof.
  induction m as [|[l' y] m IH]; [done|]. simpl.
  replace (n + l =? n + l') with (l =? l').
  - destruct (l =? l'); [done | apply IH].
  - destruct (Nat.eqb_spec l l') as [E|E], (Nat.eqb_spec (n + l) (n + l')) as [E'|E'];
      (done || lia).
Qed.

Lemma moves_copy_all (copy' copy : val → memo → M (val * memo)) :
  (∀ x m, moves (prod_map (shift_val n) (shift_memo n)) h0
            (copy' (shift_val n x) (shift_memo n m)) (copy x m)) →
  ∀ xs m, moves (prod_map (fmap (shift_val n)) (shift_memo n)) h0
            (copy_all copy' (shift_val n <$> xs) (shift_memo n m)) (copy_all copy xs m).
Proof.
  intros Hc xs. induction xs as [|x xs IH]; intros m; simpl.
  - moves_ret_tac.
  - eapply moves_bind; [apply Hc|]. intros [y m1]. simpl.
    eapply moves_bind; [apply IH|]. intros [ys m2]. simpl.
    moves_ret_tac.
Qed.

Lemma moves_deepcopy_rec fuel x m :
  moves (prod_map (shift_val n) (shift_memo n)) h0
    (deepcopy_rec fuel (shift_val n x) (shift_memo n m)) (deepcopy_rec fuel x m).
Proof.
  revert x m. induction fuel as [|fuel IH]; intros x m;
    (destruct x as [b|i|f|s|l]; simpl;
     [ moves_ret_tac | moves_ret_tac
     | moves_ret_tac | moves_ret_tac | ]);
    rewrite memo_get_shift; destruct (memo_get l m) as [y|]; simpl;
    try moves_ret_tac.
  - apply moves_raise.
  - eapply moves_bind; [apply (moves_load h0 (VRef l))|]. intros o.
    rewrite blank_shift. eapply moves_bind; [apply moves_alloc|]. intros y.
    rewrite children_shift.
    eapply moves_bind; [apply (moves_copy_all _ _ IH _ ((l, y) :: m))|]. intros [vs m']. simpl.
    rewrite with_children_shift. eapply moves_bind; [apply moves_store|]. intros _.
    moves_ret_tac.
Qed.

End MovesTrees.

(** More fuel does not change what a copy returns. *)
Lemma copy_all_mono (copy copy' : val → memo → M (val * memo)) :
  (∀ x m h r, copy x m h = Some r → copy' x m h = Some r) →
  ∀ xs m h r, copy_all copy xs m h = Some r → copy_all copy' xs m h = Some r.
Proof.
  intros Hc xs. induction xs as [|x xs IH]; intros m h [r h'] H; simpl in *; [done|].
  apply bind_Some in H as ([y m1] & h1 & H1 & H). apply bind_Some in H as ([ys m2] & h2 & H2 & H).
  apply bind_Some. eexists _, _. split; [by apply Hc|].
  apply bind_Some. eexists _, _. split; [by apply IH|]. done.
Qed.

Lemma deepcopy_rec_mono fuel fuel' x m h r :
  fuel ≤ fuel' → deepcopy_rec fuel x m h = Some r → deepcopy_rec fuel' x m h = Some r.
Proof.
  revert fuel' x m h r. induction fuel as [|fuel IH]; intros fuel' x m h [r h'] Hle H;
    destruct x as [b|i|f|s|l]; try (destruct fuel'; exact H);
    simpl in H; destruct (memo_get l m) as [y|] eqn:Hm;
    try (destruct fuel'; simpl; rewrite Hm; exact H); try discriminate.
  destruct fuel' as [|fuel']; [lia|]. simpl. rewrite Hm.
  apply bind_Some in H as (o & h1 & H1 & H). apply bind_Some in H as (y & h2 & H2 & H).
  apply bind_Some in H as ([vs m'] & h3 & H3 & H).
  apply bind_Some. eexists _, _. split; [done|].
  apply bind_Some. eexists _, _. split; [done|].
  apply bind_Some. eexists _, _. split; [|done].
  eapply copy_all_mono; [|done]. intros. eapply IH; [lia | done].
Qed.

Lemma moves_deepcopy h0 x :
  moves (shift_val (length h0)) h0 (deepcopy (shift_val (length h0) x)) (deepcopy x).
Proof.
  intros h y h' H. unfold deepcopy in *.
  apply bind_Some in H as ([y' m] & h1 & H1 & [-> ->]%ret_Some).
  apply bind_Some. exists (shift_val (length h0) y', shift_memo (length h0) m), (rebase h0 h1).
  split; [|done].
  apply (moves_deepcopy_rec h0 (length (rebase h0 h)) x [] h (y', m) h1).
  eapply deepcopy_rec_mono; [|done]. rewrite rebase_length. lia.
Qed.

Lemma moves_eval h0 e :
  moves (shift_val (length h0)) h0 (eval (shift_expr (length h0) e)) (eval e).
Proof.
  induction e as [v|v|items IH|elems IH|t kwargs IH] using expr_ind'; simpl.
  - apply moves_ret.
  - apply moves_deepcopy.
  - eapply moves_bind.
    + apply (moves_mapM h0 (λ ke, (ke.1, shift_expr (length h0) ke.2))
               (prod_map id (shift_val (length h0)))).
      eapply Forall_impl; [apply IH|]. intros [k e] He. simpl in *.
      eapply moves_bind; [apply He|]. intros v. moves_ret_tac.
    + intros d. change (prod_map id (shift_val (length h0)) <$> d)
        with (shift_items (length h0) d).
      rewrite dict_of_shift. apply (moves_alloc h0 (ODict _)).
  - eapply moves_bind.
    + apply (moves_mapM h0 (shift_expr (length h0)) (shift_val (length h0))).
      eapply Forall_impl; [apply IH|]. done.
    + intros xs. apply (moves_alloc h0 (OList _)).
  - eapply moves_bind.
    + apply (moves_mapM h0 (λ ke, (ke.1, shift_expr (length h0) ke.2))
               (prod_map id (shift_val (length h0)))).
      eapply Forall_impl; [apply IH|]. intros [k e] He. simpl in *.
      eapply moves_bind; [apply He|]. intros v. moves_ret_tac.
    + intros d. change (prod_map id (shift_val (length h0)) <$> d)
        with (shift_items (length h0) d).
      rewrite dict_of_shift. apply (moves_alloc h0 (ONode _ _)).
Qed.

Lemma getitem_heap x k h y h' : getitem x k h = Some (y, h') → h' = h.
Proof.
  unfold getitem, load. intros (o & h1 & H1 & [_ ->]%lift_Some)%bind_Some.
  destruct x; try discriminate. destruct (h !! l); by simplify_eq.
Qed.

Lemma field_rebase h0 x path h v :
  field x path h = Some v →
  field (shift_val (length h0) x) path (rebase h0 h) = Some (shift_val (length h0) v).
Proof.
  revert x. induction path as [|k path IH]; intros x H; simpl in *; [by simplify_eq|].
  destruct (getitem x k h) as [[y h1]|] eqn:Hg; [|discriminate].
  pose proof (getitem_heap _ _ _ _ _ Hg) as ->.
  rewrite (moves_getitem h0 x k _ _ _ Hg). by apply IH.
Qed.

Lemma field_list_rebase h0 x path h xs :
  field_list x path h = Some xs →
  field_list (shift_val (length h0) x) path (rebase h0 h) = Some (shift_val (length h0) <$> xs).
Proof.
  unfold field_list. intros H.
  destruct (field x path h) as [[| | | |l]|] eqn:Hf; try discriminate.
  rewrite (field_rebase h0 _ _ _ _ Hf). simpl. rewrite rebase_lookup.
  destruct (h !! l) as [[| |]|]; by simplify_eq.
Qed.

(** *** Assignments *)

Ltac solve_notin :=
  repeat (apply not_elem_of_cons; split; [discriminate|]); apply not_elem_of_nil.

Ltac solve_in :=
  unfold small_config_keys;
  repeat first [apply list_elem_of_here | apply list_elem_of_further].

Ltac str_path :=
  unfold small_config_keys;
  repeat (apply Forall_cons_2; [split; [by eexists | solve_notin] |]); apply Forall_nil_2.

Lemma getitem_eq x k h :
  getitem x k h =
    match x with
    | VRef l =>
        match h !! l with
        | Some o => match obj_getitem o k with Some v => Some (v, h) | None => None end
        | None => None
        end
    | _ => None
    end.
Proof. unfold getitem, bind, load, lift. destruct x; try done. by destruct (h !! l). Qed.

Lemma key_eqb_refl k : key_eqb k k = true.
Proof. destruct k; simpl; [apply String.eqb_refl | apply Z.eqb_refl]. Qed.

Lemma key_eqb_eq a b : key_eqb a b = true → a = b.
Proof.
  destruct a, b; simpl; try done; [intros ?%String.eqb_eq | intros ?%Z.eqb_eq]; by subst.
Qed.

Lemma dict_get_set k v d : dict_get k (dict_set k v d) = Some v.
Proof.
  induction d as [|[k' v'] d IH]; simpl; [by rewrite key_eqb_refl|].
  destruct (key_eqb k k') eqn:E; simpl; by rewrite E.
Qed.

Lemma dict_get_set_ne k k' v d : k' ≠ k → dict_get k' (dict_set k v d) = dict_get k' d.
Proof.
  intros Hne. induction d as [|[k0 v0] d IH]; simpl.
  - destruct (key_eqb k' k) eqn:E; [by apply key_eqb_eq in E|done].
  - destruct (key_eqb k k0) eqn:E; simpl; [|by rewrite IH].
    apply key_eqb_eq in E as ->.
    destruct (key_eqb k' k0) eqn:E'; [by apply key_eqb_eq in E'|done].
Qed.

Lemma setitem_Some x k v h h' :
  setitem x k v h = Some ((), h') ↔
  ∃ l o o', x = VRef l ∧ h !! l = Some o ∧ obj_setitem o k v = Some o' ∧ h' = <[l:=o']> h.
Proof.
  unfold setitem, bind, load, lift, store. split.
  - destruct x as [| | | |l]; try done. destruct (h !! l) as [o|] eqn:Hl; [|done].
    destruct (obj_setitem o k v) as [o'|] eqn:Ho; [|done].
    case_decide; [|done]. intros [= <-]. by exists l, o, o'.
  - intros (l & o & o' & -> & Hl & Ho & ->). rewrite Hl, Ho, decide_True; [done|].
    by eapply lookup_lt_Some.
Qed.

(** An assignment with a [str] key is to a dict or a node. *)
Lemma obj_setitem_str o s v o' :
  obj_setitem o (KStr s) v = Some o' →
  obj_getitem o' (KStr s) = Some v ∧
  (∀ k, k ≠ KStr s → obj_getitem o' k = obj_getitem o k) ∧
  (∀ xs, o ≠ OList xs) ∧ (∀ xs, o' ≠ OList xs).
Proof.
  destruct o as [d|xs|t d]; simpl; intros H; simplify_eq;
    (split; [apply dict_get_set|]); (split; [|done]); intros k Hk; by apply dict_get_set_ne.
Qed.

Lemma getitem_setitem_eq s l v h h' :
  setitem (VRef l) (KStr s) v h = Some ((), h') →
  getitem (VRef l) (KStr s) h' = Some (v, h').
Proof.
  intros (l' & o & o' & [= <-] & Hl & Ho & ->)%setitem_Some.
  rewrite getitem_eq, list_lookup_insert_eq by (by eapply lookup_lt_Some).
  destruct (obj_setitem_str _ _ _ _ Ho) as [Hs _]. by rewrite Hs.
Qed.

Lemma getitem_setitem_ne s x v h h' x' k' :
  setitem x (KStr s) v h = Some ((), h') →
  x' ≠ x ∨ k' ≠ KStr s →
  getitem x' k' h' = match getitem x' k' h with Some (y, _) => Some (y, h') | None => None end.
Proof.
  intros (l & o & o' & -> & Hl & Ho & ->)%setitem_Some Hne.
  rewrite !getitem_eq. destruct x' as [| | | |l2]; try done.
  destruct (decide (l2 = l)) as [->|Hl2].
  - rewrite list_lookup_insert_eq by (by eapply lookup_lt_Some). rewrite Hl.
    destruct (obj_setitem_str _ _ _ _ Ho) as (_ & Hk & _).
    rewrite Hk by (by destruct Hne). by destruct (obj_getitem o k').
  - rewrite list_lookup_insert_ne by done. destruct (h !! l2) as [o2|]; [|done].
    by destruct (obj_getitem o2 k').
Qed.

Lemma field_snoc x path k h :
  field x (path ++ [k]) h =
    match field x path h with
    | Some a => match getitem a k h with Some (y, _) => Some y | None => None end
    | None => None
    end.
Proof.
  revert x. induction path as [|k' path IH]; intros x; simpl.
  - by destruct (getitem x k h) as [[y ?]|].
  - destruct (getitem x k' h) as [[y ?]|]; [apply IH|done].
Qed.

Lemma field_setitem s x v h h' :
  setitem x (KStr s) v h = Some ((), h') →
  ∀ path x', KStr s ∉ path → field x' path h' = field x' path h.
Proof.
  intros Hset path. induction path as [|k path IH]; intros x' Hk; simpl; [done|].
  apply not_elem_of_cons in Hk as [Hk Hpath].
  rewrite (getitem_setitem_ne _ _ _ _ _ x' k Hset) by (right; congruence).
  destruct (getitem x' k h) as [[y ?]|]; [by apply IH|done].
Qed.

Lemma mapping_at_setitem s x v h h' :
  setitem x (KStr s) v h = Some ((), h') →
  ∀ path x', KStr s ∉ path → mapping_at x' path h' = mapping_at x' path h.
Proof.
  intros Hset path x' Hk. unfold mapping_at. rewrite (field_setitem _ _ _ _ _ Hset) by done.
  apply setitem_Some in Hset as (l & o & o' & -> & Hl & Ho & ->).
  destruct (field x' path h) as [[| | | |l2]|]; try done.
  destruct (decide (l2 = l)) as [->|Hl2].
  - rewrite list_lookup_insert_eq by (by eapply lookup_lt_Some). rewrite Hl.
    destruct (obj_setitem_str _ _ _ _ Ho) as (_ & _ & H1 & H2).
    destruct o as [?|xs|? ?], o' as [?|xs'|? ?]; try done;
      by (destruct (H1 xs) || destruct (H2 xs')).
  - by rewrite list_lookup_insert_ne.
Qed.

Lemma field_list_setitem s x v h h' :
  setitem x (KStr s) v h = Some ((), h') →
  ∀ path x', KStr s ∉ path → field_list x' path h' = field_list x' path h.
Proof.
  intros Hset path x' Hk. unfold field_list. rewrite (field_setitem _ _ _ _ _ Hset) by done.
  apply setitem_Some in Hset as (l & o & o' & -> & Hl & Ho & ->).
  destruct (field x' path h) as [[| | | |l2]|]; try done.
  destruct (decide (l2 = l)) as [->|Hl2].
  - rewrite list_lookup_insert_eq by (by eapply lookup_lt_Some). rewrite Hl.
    destruct (obj_setitem_str _ _ _ _ Ho) as (_ & _ & H1 & H2).
    destruct o as [?|xs|? ?], o' as [?|xs'|? ?]; try done;
      by (destruct (H1 xs) || destruct (H2 xs')).
  - by rewrite list_lookup_insert_ne.
Qed.

(** A new list is not in the way of a path of [str] keys. *)
Lemma field_alloc_list x path h xs :
  Forall (λ k, ∃ s, k = KStr s) path →
  field x path (h ++ [OList xs]) = field x path h ∧
  mapping_at x path (h ++ [OList xs]) = mapping_at x path h.
Proof.
  intros Hpath. assert (Hf : field x path (h ++ [OList xs]) = field x path h).
  { revert x. induction Hpath as [|k path [s ->] _ IH]; intros x; simpl; [done|].
    rewrite !getitem_eq. destruct x as [| | | |l]; try done.
    destruct (decide (l < length h)) as [Hl|Hl].
    - rewrite lookup_app_l by done. destruct (h !! l) as [o|]; [|done].
      destruct (obj_getitem o (KStr s)); [apply IH|done].
    - rewrite lookup_app_r by lia. rewrite (lookup_ge_None_2 h l) by lia.
      by destruct (l - length h) as [|[|?]]. }
  split; [done|]. unfold mapping_at. rewrite Hf.
  destruct (field x path h) as [[| | | |l]|]; try done.
  destruct (decide (l < length h)) as [Hl|Hl].
  - by rewrite lookup_app_l.
  - rewrite lookup_app_r by lia. rewrite (lookup_ge_None_2 h l) by lia.
    by destruct (l - length h) as [|[|?]].
Qed.

Lemma assign_field x p s v h h' path x' :
  assign x p s v h h' → KStr s ∉ path → field x' path h' = field x' path h.
Proof. intros (a & _ & Hset) Hk. by eapply field_setitem. Qed.

Lemma assign_mapping_at x p s v h h' path x' :
  assign x p s v h h' → KStr s ∉ path → mapping_at x' path h' = mapping_at x' path h.
Proof. intros (a & _ & Hset) Hk. by eapply mapping_at_setitem. Qed.

Lemma assign_field_list x p s v h h' path x' :
  assign x p s v h h' → KStr s ∉ path → field_list x' path h' = field_list x' path h.
Proof. intros (a & _ & Hset) Hk. by eapply field_list_setitem. Qed.

(** The item assigned to reads as the value assigned. *)
Lemma assign_field_new x p s v h h' :
  assign x p s v h h' → KStr s ∉ p → field x (p ++ [KStr s]) h' = Some v.
Proof.
  intros (a & Ha & Hset) Hk. rewrite field_snoc, (field_setitem _ _ _ _ _ Hset), Ha by done.
  pose proof Hset as (l & _ & _ & -> & _)%setitem_Some.
  by rewrite (getitem_setitem_eq _ _ _ _ _ Hset).
Qed.

(** An item that has the value assigned keeps it, whatever object the
    assignment is to. *)
Lemma assign_field_keep x p s v h h' path x' :
  assign x p s v h h' → KStr s ∉ path →
  field x' (path ++ [KStr s]) h = Some v → field x' (path ++ [KStr s]) h' = Some v.
Proof.
  intros (a & Ha & Hset) Hk. rewrite !field_snoc, (field_setitem _ _ _ _ _ Hset) by done.
  destruct (field x' path h) as [a'|]; [|done].
  pose proof Hset as (l & _ & _ & -> & _)%setitem_Some.
  destruct a' as [| | | |l2]; try (by rewrite getitem_eq).
  destruct (decide (l2 = l)) as [->|Hl2].
  - by rewrite (getitem_setitem_eq _ _ _ _ _ Hset).
  - rewrite (getitem_setitem_ne _ _ _ _ _ (VRef l2) (KStr s) Hset) by (left; congruence).
    by destruct (getitem (VRef l2) (KStr s) h) as [[y ?]|].
Qed.

(** There is an assignment where the path leads to a dict or a node. *)
Lemma assign_total x p s v h :
  mapping_at x p h = true → ∃ h', assign x p s v h h'.
Proof.
  unfold mapping_at, assign. intros H.
  destruct (field x p h) as [[| | | |l]|]; try done.
  destruct (h !! l) as [o|] eqn:Hl; [|done].
  destruct (obj_setitem o (KStr s) v) as [o'|] eqn:Ho; [|by destruct o].
  exists (<[l:=o']> h), (VRef l). split; [done|]. apply setitem_Some. by exists l, o, o'.
Qed.

Lemma assign_mapping x p s v h h' : assign x p s v h h' → mapping_at x p h = true.
Proof.
  intros (a & Ha & (l & o & o' & -> & Hl & Ho & _)%setitem_Some).
  unfold mapping_at. rewrite Ha, Hl.
  destruct (obj_setitem_str _ _ _ _ Ho) as (_ & _ & H1 & _).
  destruct o as [?|xs|? ?]; try done; by destruct (H1 xs).
Qed.

Lemma assign1_iff x k1 s v h h' :
  (let* a := getitem x k1 in setitem a (KStr s) v) h = Some ((), h') ↔
  assign x [k1] s v h h'.
Proof.
  unfold assign. simpl. split.
  - intros (a & h1 & Hg & Hs)%bind_Some. pose proof (getitem_heap _ _ _ _ _ Hg) as ->.
    exists a. by rewrite Hg.
  - intros (a & Ha & Hs). apply bind_Some.
    destruct (getitem x k1 h) as [[y h1]|] eqn:Hg; [|done].
    pose proof (getitem_heap _ _ _ _ _ Hg) as ->. simplify_eq. by exists a, h.
Qed.

Lemma assign2_iff x k1 k2 s v h h' :
  (let* a := getitem x k1 in let* b := getitem a k2 in setitem b (KStr s) v) h
    = Some ((), h') ↔
  assign x [k1; k2] s v h h'.
Proof.
  unfold assign. simpl. split.
  - intros (a & h1 & Hg & H)%bind_Some. pose proof (getitem_heap _ _ _ _ _ Hg) as ->.
    apply bind_Some in H as (b & h1 & Hg2 & Hs).
    pose proof (getitem_heap _ _ _ _ _ Hg2) as ->.
    exists b. by rewrite Hg, Hg2.
  - intros (b & Hb & Hs). apply bind_Some.
    destruct (getitem x k1 h) as [[a h1]|] eqn:Hg; [|done].
    pose proof (getitem_heap _ _ _ _ _ Hg) as ->. exists a, h. split; [done|].
    apply bind_Some.
    destruct (getitem a k2 h) as [[y h1]|] eqn:Hg2; [|done].
    pose proof (getitem_heap _ _ _ _ _ Hg2) as ->. simplify_eq. by exists b, h.
Qed.

Lemma seq_Some {A} (m : M unit) (k : M A) h a h' :
  (m ;; k) h = Some (a, h') ↔ ∃ h1, m h = Some ((), h1) ∧ k h1 = Some (a, h').
Proof.
  rewrite bind_Some. split.
  - intros ([] & h1 & ? & ?). by exists h1.
  - intros (h1 & ? & ?). by exists (), h1.
Qed.

Lemma format_Some v h text h' :
  format v h = Some (text, h') ↔ text = format_val h v ∧ h' = h.
Proof. unfold format. split; [by intros [= <- <-] | by intros [-> ->]]. Qed.

Lemma format_val_scalar h h' v : scalar v → format_val h' v = format_val h v.
Proof. by destruct v. Qed.

Lemma make_small_config_iff (b : val) (net_ctrl : bool) (h : heap) (s : val) (h' : heap) :
  make_small_config b net_ctrl h = Some (s, h') ↔ small_config_run b net_ctrl h s h'.
Proof.
  unfold make_small_config, small_config_run. cbv zeta. rewrite bind_Some. split.
  - intros (s0 & h1 & Hcopy & H).
    apply seq_Some in H as (h2 & H1%assign1_iff & H).
    apply seq_Some in H as (h3 & H2 & H).
    apply bind_Some in H2 as (job & h2' & Hjob & H2).
    pose proof (getitem_heap _ _ _ _ _ Hjob) as ->.
    apply bind_Some in H2 as (name & h2' & Hname & H2).
    pose proof (getitem_heap _ _ _ _ _ Hname) as ->.
    apply bind_Some in H2 as (text & h2' & [Htext ->]%format_Some & H2%assign1_iff).
    apply seq_Some in H as (h4 & H3%assign2_iff & H).
    apply seq_Some in H as (h5 & H4 & H).
    apply seq_Some in H as (h6 & H5%assign1_iff & H).
    apply seq_Some in H as (h7 & H6%assign1_iff & H).
    apply seq_Some in H as (h8 & H7%assign1_iff & H).
    apply seq_Some in H as (h9 & H8%assign2_iff & [-> ->]%ret_Some).
    exists h1, h2, h3, h4, h5, h6, h7, h8, name, text.
    repeat (split; [done || (simpl; by rewrite Hjob, Hname)|]). split; [|done].
    destruct net_ctrl.
    + apply seq_Some in H4 as (h4' & H4a%assign2_iff & H4).
      exists h4'. split; [done|].
      apply bind_Some in H4 as (mask & hm & Hmask & H4%assign2_iff).
      simpl in Hmask. injection Hmask as <- <-. done.
    + by apply ret_Some in H4 as [_ ->].
  - intros (h1 & h2 & h3 & h4 & h5 & h6 & h7 & h8 & name & text & Hcopy & H1 & Hname & Htext
            & H2 & H3 & H4 & H5 & H6 & H7 & H8).
    exists s, h1. split; [done|].
    apply seq_Some. exists h2. split; [by apply assign1_iff|].
    apply seq_Some. exists h3. split.
    { simpl in Hname.
      destruct (getitem s (KStr "job") h2) as [[job hj]|] eqn:Hjob; [|done].
      pose proof (getitem_heap _ _ _ _ _ Hjob) as ->.
      destruct (getitem job (KStr "name") h2) as [[name' hn]|] eqn:Hn; [|done].
      pose proof (getitem_heap _ _ _ _ _ Hn) as ->. injection Hname as ->.
      apply bind_Some. exists job, h2. split; [done|].
      apply bind_Some. exists name, h2. split; [done|].
      apply bind_Some. exists text, h2. split; [by apply format_Some|].
      by apply assign1_iff. }
    apply seq_Some. exists h4. split; [by apply assign2_iff|].
    apply seq_Some. exists h5. split.
    { destruct net_ctrl.
      - destruct H4 as (h4' & H4a & H4b).
        apply seq_Some. exists h4'. split; [by apply assign2_iff|].
        apply bind_Some. exists (VRef (length h4')), (h4' ++ [OList [VBool false; VBool true]]).
        split; [done|]. by apply assign2_iff.
      - subst h5. done. }
    apply seq_Some. exists h6. split; [by apply assign1_iff|].
    apply seq_Some. exists h7. split; [by apply assign1_iff|].
    apply seq_Some. exists h8. split; [by apply assign1_iff|].
    apply seq_Some. exists h'. split; [by apply assign2_iff|]. done.
Qed.

Lemma assign_rebase h0 x p s v h h' :
  assign x p s v h h' →
  assign (shift_val (length h0) x) p s (shift_val (length h0) v) (rebase h0 h) (rebase h0 h').
Proof.
  intros (a & Ha & Hs). exists (shift_val (length h0) a). split; [by apply field_rebase|].
  exact (moves_setitem h0 a (KStr s) v h () h' Hs).
Qed.

(** *** The two tree functions on a larger store *)

Lemma moves_make_ctrlnet_config h0 hint_key ncb path t2v num_frames :
  moves (shift_val (length h0)) h0
    (make_ctrlnet_config hint_key ncb path t2v num_frames)
    (make_ctrlnet_config hint_key ncb path t2v num_frames).
Proof.
  unfold make_ctrlnet_config.
  destruct (job_name_project hint_key ncb path t2v num_frames) as [job_name job_project].
  eapply moves_bind.
  - exact (moves_eval h0 (example_multiview_dataset_waymo hint_key num_frames)).
  - intros dataset.
    exact (moves_eval h0
             (ctrl_config dataset hint_key ncb path t2v num_frames job_name job_project)).
Qed.

(** *** What [make_ctrlnet_config] builds *)

Lemma make_ctrlnet_config_empty hint_key ncb path t2v num_frames :
  ∃ b h,
    make_ctrlnet_config hint_key ncb path t2v num_frames [] = Some (b, h) ∧
    field b [KStr "job"; KStr "name"] h
      = Some (VStr (job_name_project hint_key ncb path t2v num_frames).1) ∧
    field b [KStr "job"; KStr "project"] h
      = Some (VStr (job_name_project hint_key ncb path t2v num_frames).2) ∧
    field b [KStr "job"; KStr "group"] h = Some (VStr "CTRL_7Bv1_sampleAV") ∧
    field b [KStr "checkpoint"; KStr "load_path"] h = Some (VStr path) ∧
    field b [KStr "model"; KStr "latent_shape"; KInt 1] h
      = Some (VInt ((num_frames - 1) / 8 + 1)) ∧
    field b [KStr "model"; KStr "net"; KStr "num_blocks"] h = Some (VInt 28) ∧
    field b [KStr "model"; KStr "net_ctrl"; KStr "num_blocks"] h = Some (VInt 28) ∧
    field_list b [KStr "model"; KStr "net_ctrl"; KStr "layer_mask"] h
      = Some ((λ i, VBool (if (i >=? ncb)%Z then true else false)) <$> range 28).
Proof.
  unfold make_ctrlnet_config.
  destruct (job_name_project hint_key ncb path t2v num_frames) as [job_name job_project].
  unfold ctrl_config, fst, snd.
  generalize ((num_frames - 1) / 8 + 1)%Z as latent_t. generalize base_load_path as p.
  pose (f := λ i : Z, if (i >=? ncb)%Z then true else false).
  change (λ i : Z, bool_ (if (i >=? ncb)%Z then true else false)) with (λ i : Z, bool_ (f i)).
  change (λ i : Z, VBool (if (i >=? ncb)%Z then true else false)) with (λ i : Z, VBool (f i)).
  clearbody f. intros p latent_t.
  eexists _, _. split; [vm_compute; reflexivity|].
  repeat apply conj; vm_compute; reflexivity.
Qed.

Lemma shift_scalar n v : scalar v → shift_val n v = v.
Proof. by destruct v. Qed.

Lemma shift_scalars n xs : Forall scalar xs → shift_val n <$> xs = xs.
Proof.
  induction 1 as [|v xs Hv _ IH]; [done|]. rewrite fmap_cons.
  by rewrite (shift_scalar _ v), IH.
Qed.

Lemma field_rebase_scalar h0 x path h v :
  scalar v → field x path h = Some v →
  field (shift_val (length h0) x) path (rebase h0 h) = Some v.
Proof.
  intros Hv H. apply (field_rebase h0) in H. by rewrite (shift_scalar _ v) in H.
Qed.

Lemma field_list_rebase_scalar h0 x path h xs :
  Forall scalar xs → field_list x path h = Some xs →
  field_list (shift_val (length h0) x) path (rebase h0 h) = Some xs.
Proof.
  intros Hxs H. apply (field_list_rebase h0) in H. by rewrite shift_scalars in H.
Qed.

Lemma Forall_scalar_bools {A} (f : A → bool) (xs : list A) :
  Forall scalar ((λ i, VBool (f i)) <$> xs).
Proof. induction xs; constructor; done. Qed.

Lemma range_lookup (n : Z) (i : nat) :
  range n !! i = if decide (i < Z.to_nat n) then Some (Z.of_nat i) else None.
Proof.
  unfold range. rewrite list_lookup_fmap. case_decide as Hi.
  - by rewrite lookup_seq_lt.
  - by rewrite lookup_seq_ge by lia.
Qed.

Lemma make_ctrlnet_config_fields h0 hint_key ncb path t2v num_frames :
  ∃ b h,
    make_ctrlnet_config hint_key ncb path t2v num_frames h0 = Some (b, h) ∧
    field b [KStr "job"; KStr "name"] h
      = Some (VStr (job_name_project hint_key ncb path t2v num_frames).1) ∧
    field b [KStr "job"; KStr "project"] h
      = Some (VStr (job_name_project hint_key ncb path t2v num_frames).2) ∧
    field b [KStr "job"; KStr "group"] h = Some (VStr "CTRL_7Bv1_sampleAV") ∧
    field b [KStr "checkpoint"; KStr "load_path"] h = Some (VStr path) ∧
    field b [KStr "model"; KStr "latent_shape"; KInt 1] h
      = Some (VInt ((num_frames - 1) / 8 + 1)) ∧
    field b [KStr "model"; KStr "net"; KStr "num_blocks"] h = Some (VInt 28) ∧
    field b [KStr "model"; KStr "net_ctrl"; KStr "num_blocks"] h = Some (VInt 28) ∧
    field_list b [KStr "model"; KStr "net_ctrl"; KStr "layer_mask"] h
      = Some ((λ i, VBool (if (i >=? ncb)%Z then true else false)) <$> range 28).
Proof.
  destruct (make_ctrlnet_config_empty hint_key ncb path t2v num_frames)
    as (b & h & Hrun & H1 & H2 & H3 & H4 & H5 & H6 & H7 & H8).
  exists (shift_val (length h0) b), (rebase h0 h). split.
  { rewrite <- (rebase_nil h0) at 1. by apply moves_make_ctrlnet_config. }
  repeat apply conj; try (by apply field_rebase_scalar).
  apply field_list_rebase_scalar; [|done]. apply Forall_scalar_bools.
Qed.

(** *** What [make_small_config] makes of a tree of [make_ctrlnet_config] *)

(** [make_small_config] on a larger store, for a tree with a scalar as
    job.name: the text of a container is the one thing that may depend on
    where the objects are. *)
Lemma make_small_config_rebase h0 b net_ctrl h s h' h1 name :
  make_small_config b net_ctrl h = Some (s, h') →
  deepcopy b h = Some (s, h1) →
  field s [KStr "job"; KStr "name"] h1 = Some name → scalar name →
  make_small_config (shift_val (length h0) b) net_ctrl (rebase h0 h)
    = Some (shift_val (length h0) s, rebase h0 h').
Proof.
  intros Hrun Hcopy Hname Hs. apply make_small_config_iff in Hrun.
  destruct Hrun as (h1' & h2 & h3 & h4 & h5 & h6 & h7 & h8 & name' & text & Hcopy' & H1
                    & Hname' & Htext & H2 & H3 & H4 & H5 & H6 & H7 & H8).
  rewrite Hcopy in Hcopy'. injection Hcopy' as <-.
  rewrite (assign_field _ _ _ _ _ _ _ s H1), Hname in Hname' by solve_notin.
  injection Hname' as <-.
  apply make_small_config_iff.
  exists (rebase h0 h1), (rebase h0 h2), (rebase h0 h3), (rebase h0 h4), (rebase h0 h5),
    (rebase h0 h6), (rebase h0 h7), (rebase h0 h8), name, text.
  split; [by apply moves_deepcopy|].
  split; [exact (assign_rebase h0 _ _ _ _ _ _ H1)|].
  split.
  { apply field_rebase_scalar; [done|].
    by rewrite (assign_field _ _ _ _ _ _ _ s H1) by solve_notin. }
  split; [subst text; by apply format_val_scalar|].
  split; [exact (assign_rebase h0 _ _ _ _ _ _ H2)|].
  split; [exact (assign_rebase h0 _ _ _ _ _ _ H3)|].
  split.
  { destruct net_ctrl; [|by subst h5]. destruct H4 as (h4' & H4a & H4b).
    exists (rebase h0 h4'). split; [exact (assign_rebase h0 _ _ _ _ _ _ H4a)|].
    pose proof (assign_rebase h0 _ _ _ _ _ _ H4b) as H4b'.
    rewrite <- rebase_snoc in H4b'. rewrite rebase_length. exact H4b'. }
  split; [exact (assign_rebase h0 _ _ _ _ _ _ H5)|].
  split; [exact (assign_rebase h0 _ _ _ _ _ _ H6)|].
  split; [exact (assign_rebase h0 _ _ _ _ _ _ H7)|].
  exact (assign_rebase h0 _ _ _ _ _ _ H8).
Qed.

Lemma make_small_config_empty hint_key ncb path t2v num_frames net_ctrl :
  ∃ b h1 s h2 hc,
    make_ctrlnet_config hint_key ncb path t2v num_frames [] = Some (b, h1) ∧
    make_small_config b net_ctrl h1 = Some (s, h2) ∧
    deepcopy b h1 = Some (s, hc) ∧
    field s [KStr "job"; KStr "name"] hc
      = Some (VStr (job_name_project hint_key ncb path t2v num_frames).1) ∧
    field s [KStr "job"; KStr "group"] h2 = Some (VStr "debug") ∧
    field s [KStr "job"; KStr "name"] h2
      = Some (VStr ((job_name_project hint_key ncb path t2v num_frames).1 +:+ "_SMALL")) ∧
    field s [KStr "model"; KStr "net"; KStr "num_blocks"] h2 = Some (VInt 2) ∧
    field s [KStr "model"; KStr "net_ctrl"; KStr "num_blocks"] h2
      = Some (VInt (if net_ctrl then 2 else 28)) ∧
    field_list s [KStr "model"; KStr "net_ctrl"; KStr "layer_mask"] h2
      = Some (if net_ctrl then (λ i, VBool (if (i >=? 1)%Z then true else false)) <$> range 2
              else (λ i, VBool (if (i >=? ncb)%Z then true else false)) <$> range 28) ∧
    field s [KStr "model_parallel"; KStr "tensor_model_parallel_size"] h2 = Some (VInt 1) ∧
    field s [KStr "model_parallel"; KStr "sequence_parallel"] h2 = Some (VBool false) ∧
    field s [KStr "checkpoint"; KStr "load_path"] h2 = Some (VStr "") ∧
    field s [KStr "model"; KStr "base_load_from"; KStr "load_path"] h2 = Some (VStr "").
Proof.
  unfold make_ctrlnet_config.
  destruct (job_name_project hint_key ncb path t2v num_frames) as [job_name job_project].
  unfold ctrl_config, fst, snd.
  generalize ((num_frames - 1) / 8 + 1)%Z as latent_t. generalize base_load_path as p.
  pose (f := λ i : Z, if (i >=? ncb)%Z then true else false).
  change (λ i : Z, bool_ (if (i >=? ncb)%Z then true else false)) with (λ i : Z, bool_ (f i)).
  change (λ i : Z, VBool (if (i >=? ncb)%Z then true else false)) with (λ i : Z, VBool (f i)).
  clearbody f. intros p latent_t.
  destruct net_ctrl; eexists _, _, _, _, _; (split; [vm_compute; reflexivity|]);
    (split; [vm_compute; reflexivity|]); (split; [vm_compute; reflexivity|]);
    repeat apply conj; vm_compute; reflexivity.
Qed.

Lemma make_small_config_fields h0 hint_key ncb path t2v num_frames net_ctrl :
  ∃ b h1 s h2,
    make_ctrlnet_config hint_key ncb path t2v num_frames h0 = Some (b, h1) ∧
    make_small_config b net_ctrl h1 = Some (s, h2) ∧
    field s [KStr "job"; KStr "group"] h2 = Some (VStr "debug") ∧
    field s [KStr "job"; KStr "name"] h2
      = Some (VStr ((job_name_project hint_key ncb path t2v num_frames).1 +:+ "_SMALL")) ∧
    field s [KStr "model"; KStr "net"; KStr "num_blocks"] h2 = Some (VInt 2) ∧
    field s [KStr "model"; KStr "net_ctrl"; KStr "num_blocks"] h2
      = Some (VInt (if net_ctrl then 2 else 28)) ∧
    field_list s [KStr "model"; KStr "net_ctrl"; KStr "layer_mask"] h2
      = Some (if net_ctrl then (λ i, VBool (if (i >=? 1)%Z then true else false)) <$> range 2
              else (λ i, VBool (if (i >=? ncb)%Z then true else false)) <$> range 28) ∧
    field s [KStr "model_parallel"; KStr "tensor_model_parallel_size"] h2 = Some (VInt 1) ∧
    field s [KStr "model_parallel"; KStr "sequence_parallel"] h2 = Some (VBool false) ∧
    field s [KStr "checkpoint"; KStr "load_path"] h2 = Some (VStr "") ∧
    field s [KStr "model"; KStr "base_load_from"; KStr "load_path"] h2 = Some (VStr "").
Proof.
  destruct (make_small_config_empty hint_key ncb path t2v num_frames net_ctrl)
    as (b & h1 & s & h2 & hc & Hb & Hs & Hc & Hn & H1 & H2 & H3 & H4 & H5 & H6 & H7 & H8 & H9).
  exists (shift_val (length h0) b), (rebase h0 h1), (shift_val (length h0) s), (rebase h0 h2).
  split.
  { rewrite <- (rebase_nil h0) at 1. by apply moves_make_ctrlnet_config. }
  split; [by eapply make_small_config_rebase|].
  repeat apply conj; try (by apply field_rebase_scalar).
  apply field_list_rebase_scalar; [|done]. destruct net_ctrl; apply Forall_scalar_bools.
Qed.

Lemma mask_lookup (f : Z → bool) (n : Z) (i : nat) :
  ((λ i, VBool (f i)) <$> range n) !! i
  = if decide (i < Z.to_nat n) then Some (VBool (f (Z.of_nat i))) else None.
Proof. rewrite list_lookup_fmap, range_lookup. by case_decide. Qed.

Lemma mask_length (f : Z → bool) (n : Z) :
  length ((λ i, VBool (f i)) <$> range n) = Z.to_nat n.
Proof. unfold range. by rewrite !length_fmap, length_seq. Qed.

Lemma string_app_assoc (a b c : string) : (a +:+ b) +:+ c = a +:+ (b +:+ c).
Proof.
  induction a as [|x a IH]; [done|].
  change (String x ((a +:+ b) +:+ c) = String x (a +:+ (b +:+ c))). by rewrite IH.
Qed.

Lemma job_name_project_posttrain hint_key ncb path t2v num_frames :
  path ≠ "" →
  contains_substring (job_name_project hint_key ncb path t2v num_frames).1 "_posttrain" ∧
  (job_name_project hint_key ncb path t2v num_frames).2 = "cosmos_transfer1_posttrain".
Proof.
  intros Hp. unfold job_name_project.
  destruct (String.eqb_spec path "") as [->|_]; [done|].
  destruct t2v; cbn [fst snd]; (split; [|done]).
  - exists ("CTRL_7Bv1pt3_t2v_sv2mv_" +:+ pretty num_frames +:+ "frames_" +:+ hint_key
            +:+ "_block" +:+ pretty ncb), "".
    change ("_posttrain" +:+ "") with "_posttrain". by rewrite !string_app_assoc.
  - exists ("CTRL_7Bv1pt3_lvg_sv2mv_" +:+ pretty num_frames +:+ "frames_" +:+ hint_key
            +:+ "_block" +:+ pretty ncb), "".
    change ("_posttrain" +:+ "") with "_posttrain". by rewrite !string_app_assoc.
Qed.

(** *** The claims about the two tree functions *)

(** C1: called with hint_key "control_input_hdmap", num_control_blocks 3, an
    empty pretrain_model_path, t2v True and num_frames 121, on any store,
    [make_ctrlnet_config] returns a tree whose job.name is
    "CTRL_7Bv1pt3_t2v_sv2mv_121frames_control_input_hdmap_block3_pretrain",
    whose job.project is "cosmos_transfer1_pretrain" and whose
    model.latent_shape[1] is 16. *)
Theorem make_ctrlnet_config_hdmap_121_pretrain (h0 : heap) :
  ∃ b h,
    make_ctrlnet_config "control_input_hdmap" 3 "" true 121 h0 = Some (b, h) ∧
    field b [KStr "job"; KStr "name"] h
      = Some (VStr "CTRL_7Bv1pt3_t2v_sv2mv_121frames_control_input_hdmap_block3_pretrain") ∧
    field b [KStr "job"; KStr "project"] h = Some (VStr "cosmos_transfer1_pretrain") ∧
    field b [KStr "model"; KStr "latent_shape"; KInt 1] h = Some (VInt 16).
Proof.
  destruct (make_ctrlnet_config_fields h0 "control_input_hdmap" 3 "" true 121)
    as (b & h & Hrun & Hname & Hproject & _ & _ & Hlatent & _).
  exists b, h. split; [exact Hrun|]. split; [exact Hname|]. split; [exact Hproject|].
  exact Hlatent.
Qed.

(** C2: for every num_control_blocks (and any other arguments, on any store),
    the tree [make_ctrlnet_config] returns has a model.net_ctrl.layer_mask of
    length num_blocks = 28 whose entry at every index i below 28 is the
    boolean [i >= num_control_blocks]; there is no entry from 28 on. *)
Theorem make_ctrlnet_config_layer_mask (h0 : heap) (hint_key : string) (ncb : Z)
    (path : string) (t2v : bool) (num_frames : Z) :
  ∃ b h mask,
    make_ctrlnet_config hint_key ncb path t2v num_frames h0 = Some (b, h) ∧
    field_list b [KStr "model"; KStr "net_ctrl"; KStr "layer_mask"] h = Some mask ∧
    length mask = Z.to_nat num_blocks ∧
    ∀ i : nat,
      mask !! i = if decide (i < 28) then Some (VBool (Z.of_nat i >=? ncb)%Z) else None.
Proof.
  destruct (make_ctrlnet_config_fields h0 hint_key ncb path t2v num_frames)
    as (b & h & Hrun & _ & _ & _ & _ & _ & _ & _ & Hmask).
  eexists b, h, _. split; [exact Hrun|]. split; [exact Hmask|].
  split; [apply mask_length|].
  intros i. rewrite mask_lookup. change (Z.to_nat 28) with 28.
  case_decide; [|done]. by destruct (Z.of_nat i >=? ncb)%Z.
Qed.

(** C5: for every call of [make_ctrlnet_config] with a non-empty
    pretrain_model_path, the job.name of the returned tree contains
    "_posttrain", its job.project is "cosmos_transfer1_posttrain", and its
    checkpoint.load_path is the pretrain_model_path as given. *)
Theorem make_ctrlnet_config_posttrain (h0 : heap) (hint_key : string) (ncb : Z)
    (path : string) (t2v : bool) (num_frames : Z) :
  path ≠ "" →
  ∃ b h name,
    make_ctrlnet_config hint_key ncb path t2v num_frames h0 = Some (b, h) ∧
    field b [KStr "job"; KStr "name"] h = Some (VStr name) ∧
    contains_substring name "_posttrain" ∧
    field b [KStr "job"; KStr "project"] h = Some (VStr "cosmos_transfer1_posttrain") ∧
    field b [KStr "checkpoint"; KStr "load_path"] h = Some (VStr path).
Proof.
  intros Hpath.
  destruct (make_ctrlnet_config_fields h0 hint_key ncb path t2v num_frames)
    as (b & h & Hrun & Hname & Hproject & _ & Hload & _).
  destruct (job_name_project_posttrain hint_key ncb path t2v num_frames Hpath) as [Hsub Hp].
  eexists b, h, _. split; [exact Hrun|]. split; [exact Hname|]. split; [exact Hsub|].
  split; [by rewrite <- Hp | exact Hload].
Qed.

(** C6: for every num_frames (and any other arguments, on any store), the
    model.latent_shape[1] of the tree [make_ctrlnet_config] returns is
    [(num_frames - 1) // 8 + 1]; that is 16 for 121 frames and 8 for 57. *)
Theorem make_ctrlnet_config_latent_shape (h0 : heap) (hint_key : string) (ncb : Z)
    (path : string) (t2v : bool) (num_frames : Z) :
  (∃ b h,
     make_ctrlnet_config hint_key ncb path t2v num_frames h0 = Some (b, h) ∧
     field b [KStr "model"; KStr "latent_shape"; KInt 1] h
       = Some (VInt ((num_frames - 1) / 8 + 1))) ∧
  (∃ b h,
     make_ctrlnet_config hint_key ncb path t2v 121 h0 = Some (b, h) ∧
     field b [KStr "model"; KStr "latent_shape"; KInt 1] h = Some (VInt 16)) ∧
  (∃ b h,
     make_ctrlnet_config hint_key ncb path t2v 57 h0 = Some (b, h) ∧
     field b [KStr "model"; KStr "latent_shape"; KInt 1] h = Some (VInt 8)).
Proof.
  split; [|split].
  - destruct (make_ctrlnet_config_fields h0 hint_key ncb path t2v num_frames)
      as (b & h & Hrun & _ & _ & _ & _ & Hlatent & _). by exists b, h.
  - destruct (make_ctrlnet_config_fields h0 hint_key ncb path t2v 121)
      as (b & h & Hrun & _ & _ & _ & _ & Hlatent & _). by exists b, h.
  - destruct (make_ctrlnet_config_fields h0 hint_key ncb path t2v 57)
      as (b & h & Hrun & _ & _ & _ & _ & Hlatent & _). by exists b, h.
Qed.

(** C3: for every tree b that [make_ctrlnet_config] returns,
    [make_small_config b True] returns a tree s with job.group "debug",
    job.name the job.name of b followed by "_SMALL", model.net.num_blocks 2,
    model.net_ctrl.num_blocks 2, a model.net_ctrl.layer_mask made anew for
    two blocks (two entries, the one at index i being [i >= 1]),
    model_parallel.tensor_model_parallel_size 1,
    model_parallel.sequence_parallel False, and the empty string as
    checkpoint.load_path and as model.base_load_from.load_path. *)
Theorem make_small_config_net_ctrl (h0 : heap) (hint_key : string) (ncb : Z)
    (path : string) (t2v : bool) (num_frames : Z) :
  ∃ b h1 name s h2 mask,
    make_ctrlnet_config hint_key ncb path t2v num_frames h0 = Some (b, h1) ∧
    field b [KStr "job"; KStr "name"] h1 = Some (VStr name) ∧
    make_small_config b true h1 = Some (s, h2) ∧
    field s [KStr "job"; KStr "group"] h2 = Some (VStr "debug") ∧
    field s [KStr "job"; KStr "name"] h2 = Some (VStr (name +:+ "_SMALL")) ∧
    field s [KStr "model"; KStr "net"; KStr "num_blocks"] h2 = Some (VInt 2) ∧
    field s [KStr "model"; KStr "net_ctrl"; KStr "num_blocks"] h2 = Some (VInt 2) ∧
    field_list s [KStr "model"; KStr "net_ctrl"; KStr "layer_mask"] h2 = Some mask ∧
    mask = [VBool false; VBool true] ∧
    (∀ i : nat,
       mask !! i = if decide (i < 2) then Some (VBool (Z.of_nat i >=? 1)%Z) else None) ∧
    field s [KStr "model_parallel"; KStr "tensor_model_parallel_size"] h2 = Some (VInt 1) ∧
    field s [KStr "model_parallel"; KStr "sequence_parallel"] h2 = Some (VBool false) ∧
    field s [KStr "checkpoint"; KStr "load_path"] h2 = Some (VStr "") ∧
    field s [KStr "model"; KStr "base_load_from"; KStr "load_path"] h2 = Some (VStr "").
Proof.
  destruct (make_small_config_fields h0 hint_key ncb path t2v num_frames true)
    as (b & h1 & s & h2 & Hb & Hs & H1 & H2 & H3 & H4 & H5 & H6 & H7 & H8 & H9).
  destruct (make_ctrlnet_config_fields h0 hint_key ncb path t2v num_frames)
    as (b' & h1' & Hb' & Hname & _).
  rewrite Hb in Hb'. injection Hb' as <- <-.
  eexists b, h1, _, s, h2, _. repeat apply conj; try eassumption; try reflexivity.
  intros i. rewrite mask_lookup. change (Z.to_nat 2) with 2.
  case_decide; [|done]. by destruct (Z.of_nat i >=? 1)%Z.
Qed.

(** C10: with net_ctrl False, the default, [make_small_config] on a tree b of
    [make_ctrlnet_config] sets model.net.num_blocks to 2 and leaves the
    control branch as it is in b: model.net_ctrl.num_blocks is still 28 and
    model.net_ctrl.layer_mask still has the 28 entries of b, so block count
    and mask of the control branch do not fit the two blocks of the net. *)
Theorem make_small_config_default (h0 : heap) (hint_key : string) (ncb : Z)
    (path : string) (t2v : bool) (num_frames : Z) :
  ∃ b h1 s h2 mask,
    make_ctrlnet_config hint_key ncb path t2v num_frames h0 = Some (b, h1) ∧
    field b [KStr "model"; KStr "net_ctrl"; KStr "num_blocks"] h1 = Some (VInt 28) ∧
    field_list b [KStr "model"; KStr "net_ctrl"; KStr "layer_mask"] h1 = Some mask ∧
    length mask = 28 ∧
    make_small_config b false h1 = Some (s, h2) ∧
    field s [KStr "model"; KStr "net"; KStr "num_blocks"] h2 = Some (VInt 2) ∧
    field s [KStr "model"; KStr "net_ctrl"; KStr "num_blocks"] h2 = Some (VInt 28) ∧
    field_list s [KStr "model"; KStr "net_ctrl"; KStr "layer_mask"] h2 = Some mask.
Proof.
  destruct (make_small_config_fields h0 hint_key ncb path t2v num_frames false)
    as (b & h1 & s & h2 & Hb & Hs & _ & _ & Hnet & Hctrl & Hmask & _).
  destruct (make_ctrlnet_config_fields h0 hint_key ncb path t2v num_frames)
    as (b' & h1' & Hb' & _ & _ & _ & _ & _ & _ & Hctrl' & Hmask').
  rewrite Hb in Hb'. injection Hb' as <- <-.
  eexists b, h1, s, h2, _. repeat apply conj; try eassumption.
  apply (mask_length _ 28).
Qed.

(** *** A copy shares nothing with its original *)

Lemma hoare_bind {A B} (P : heap → Prop) (Q : A → heap → Prop) (R : B → heap → Prop)
    (m : M A) (f : A → M B) :
  hoare P m Q → (∀ a, hoare (Q a) (f a) R) → hoare P (bind m f) R.
Proof.
  intros Hm Hf h b h' HP (a & h1 & H1 & H2)%bind_Some.
  eapply Hf; [|done]. by eapply Hm.
Qed.

Lemma hoare_ret {A} (P : heap → Prop) (Q : A → heap → Prop) (a : A) :
  (∀ h, P h → Q a h) → hoare P (ret a) Q.
Proof. intros HQ h a' h' HP [-> ->]%ret_Some. by apply HQ. Qed.

Lemma hoare_pure {A} (φ : Prop) (P : heap → Prop) (m : M A) (Q : A → heap → Prop) :
  (φ → hoare P m Q) → hoare (λ h, φ ∧ P h) m Q.
Proof. intros H h a h' [Hφ HP]. by apply H. Qed.

Lemma hoare_format (P : heap → Prop) v : hoare P (format v) (λ _ h, P h).
Proof. intros h a h' HP [_ ->]%format_Some. done. Qed.

Lemma extends_refl h : extends h h.
Proof.
  split; [done|]. intros l o Hl Ho. apply lookup_lt_Some in Ho. lia.
Qed.

Lemma extends_length h0 h : extends h0 h → length h0 ≤ length h.
Proof. intros [Hp _]. by apply prefix_length. Qed.

Lemma obj_getitem_child o k v : obj_getitem o k = Some v → v ∈ children o.
Proof.
  destruct o as [d|xs|t d]; simpl.
  - induction d as [|[k' v'] d IH]; simpl; [done|].
    destruct (key_eqb k k'); intros H; [simplify_eq; left | right; by apply IH].
  - destruct k as [s|i]; [done|]. destruct (list_index xs i) as [j|]; [|done]. simpl.
    apply list_elem_of_lookup_2.
  - induction d as [|[k' v'] d IH]; simpl; [done|].
    destruct (key_eqb k k'); intros H; [simplify_eq; left | right; by apply IH].
Qed.

Lemma dict_set_children (P : val → Prop) k v d :
  Forall P d.*2 → P v → Forall P (dict_set k v d).*2.
Proof.
  intros Hd Hv. induction d as [|[k' v'] d IH]; simpl.
  - by constructor.
  - inversion_clear Hd. destruct (key_eqb k k'); simpl; constructor; auto.
Qed.

Lemma obj_setitem_children (P : val → Prop) o k v o' :
  obj_setitem o k v = Some o' → Forall P (children o) → P v → Forall P (children o').
Proof.
  destruct o as [d|xs|t d]; simpl; intros H Hd Hv.
  - simplify_eq. by apply dict_set_children.
  - destruct k as [s|i]; [done|]. destruct (list_index xs i) as [j|]; [|done].
    simpl in H. simplify_eq. simpl. by apply Forall_insert.
  - simplify_eq. by apply dict_set_children.
Qed.

Lemma with_children_children (P : val → Prop) o vs :
  Forall P vs → Forall P (children (with_children o vs)).
Proof.
  assert (∀ ks : list key, Forall P vs → Forall P (zip ks vs).*2) as Hzip.
  { intros ks Hvs. revert ks. induction Hvs as [|v vs Hv _ IH]; intros [|k ks]; simpl;
      try constructor; auto. }
  destruct o as [d|xs|t d]; simpl; auto.
Qed.

Section Fresh.
Context (h0 : heap).
Abbreviation n0 := (length h0).

Lemma hoare_alloc o :
  Forall (fresh n0) (children o) →
  hoare (extends h0) (alloc o) (λ y h, fresh n0 y ∧ extends h0 h).
Proof.
  intros Ho h y h' [Hp Hc] H. unfold alloc in H. simplify_eq.
  pose proof (prefix_length _ _ Hp). split; [done|]. split.
  - by apply prefix_app_r.
  - intros l o' Hl Hlook. destruct (decide (l < length h)).
    + rewrite lookup_app_l in Hlook by done. by eapply Hc.
    + rewrite lookup_app_r in Hlook by lia.
      destruct (l - length h) as [|?]; simpl in Hlook; by simplify_eq.
Qed.

Lemma hoare_load (P : heap → Prop) x :
  hoare P (load x) (λ _ h, P h).
Proof.
  intros h o h' HP H. unfold load in H. destruct x as [| | | |l]; try done.
  destruct (h !! l); by simplify_eq.
Qed.

Lemma hoare_load_fresh x :
  fresh n0 x →
  hoare (extends h0) (load x) (λ o h, Forall (fresh n0) (children o) ∧ extends h0 h).
Proof.
  intros Hx h o h' [Hp Hc] H. unfold load in H. destruct x as [| | | |l]; try done.
  destruct (h !! l) eqn:Hl; simplify_eq. split; [|done]. by eapply Hc.
Qed.

Lemma hoare_store x o :
  fresh n0 x → Forall (fresh n0) (children o) →
  hoare (extends h0) (store x o) (λ _ h, extends h0 h).
Proof.
  intros Hx Ho h [] h' [[k ->] Hc] H. unfold store in H. destruct x as [| | | |l]; try done.
  case_decide; simplify_eq. simpl in Hx. split.
  - rewrite insert_app_r_alt by done. by eexists.
  - intros l' o' Hl' Hlook. destruct (decide (l = l')) as [->|Hne].
    + rewrite list_lookup_insert_eq in Hlook by done. by simplify_eq.
    + rewrite list_lookup_insert_ne in Hlook by done. by eapply Hc.
Qed.

Lemma hoare_getitem x k :
  fresh n0 x →
  hoare (extends h0) (getitem x k) (λ y h, fresh n0 y ∧ extends h0 h).
Proof.
  intros Hx h y h' He H. unfold getitem in H.
  apply bind_Some in H as (o & h1 & H1 & [H2 ->]%lift_Some).
  destruct (hoare_load_fresh x Hx _ _ _ He H1) as [Ho He']. split; [|done].
  apply obj_getitem_child in H2. by eapply Forall_forall in Ho.
Qed.

Lemma hoare_setitem x k v :
  fresh n0 x → fresh n0 v →
  hoare (extends h0) (setitem x k v) (λ _ h, extends h0 h).
Proof.
  intros Hx Hv h [] h' He H. unfold setitem in H.
  apply bind_Some in H as (o & h1 & H1 & H). apply bind_Some in H as (o' & h2 & H2 & H).
  apply lift_Some in H2 as [H2 ->].
  destruct (hoare_load_fresh x Hx _ _ _ He H1) as [Ho He'].
  eapply (hoare_store x o'); [done | | done | done].
  by eapply obj_setitem_children.
Qed.

Lemma hoare_copy_all (copy : val → memo → M (val * memo)) :
  (∀ x m, Forall (fresh n0) m.*2 →
     hoare (extends h0) (copy x m)
       (λ r h, fresh n0 r.1 ∧ Forall (fresh n0) r.2.*2 ∧ extends h0 h)) →
  ∀ xs m, Forall (fresh n0) m.*2 →
    hoare (extends h0) (copy_all copy xs m)
      (λ r h, Forall (fresh n0) r.1 ∧ Forall (fresh n0) r.2.*2 ∧ extends h0 h).
Proof.
  intros Hc xs. induction xs as [|x xs IH]; intros m Hm; simpl.
  - by apply hoare_ret.
  - eapply hoare_bind; [by apply Hc|]. intros [y m1]. simpl.
    apply hoare_pure. intros Hy. apply hoare_pure. intros Hm1.
    eapply hoare_bind; [by apply IH|]. intros [ys m2]. simpl.
    apply hoare_ret. intros h (Hys & Hm2 & He). simpl.
    split; [by constructor | by split].
Qed.

Lemma memo_get_elem l m y : memo_get l m = Some y → y ∈ m.*2.
Proof.
  induction m as [|[l' y'] m IH]; simpl; [done|].
  destruct (l =? l'); intros H; [simplify_eq; left | right; by apply IH].
Qed.

Lemma hoare_deepcopy_rec fuel x m :
  Forall (fresh n0) m.*2 →
  hoare (extends h0) (deepcopy_rec fuel x m)
    (λ r h, fresh n0 r.1 ∧ Forall (fresh n0) r.2.*2 ∧ extends h0 h).
Proof.
  revert x m. induction fuel as [|fuel IH]; intros x m Hm;
    (destruct x as [b|i|f|s|l]; simpl;
     [apply hoare_ret; intros h He; simpl; split; [done | by split]..|]);
    (destruct (memo_get l m) as [y|] eqn:Hget;
     [apply hoare_ret; intros h He; simpl; split; [|by split];
      apply memo_get_elem in Hget; by eapply Forall_forall in Hm|]).
  - intros h a h' _ H. discriminate.
  - eapply hoare_bind; [apply (hoare_load (extends h0))|]. intros o.
    eapply hoare_bind; [apply hoare_alloc; by destruct o|]. intros y. simpl.
    apply hoare_pure. intros Hy.
    eapply hoare_bind.
    { apply (hoare_copy_all _ IH). by constructor. }
    intros [vs m']. simpl. apply hoare_pure. intros Hvs. apply hoare_pure. intros Hm'.
    eapply hoare_bind; [apply hoare_store; [done | by apply with_children_children]|].
    intros []. apply hoare_ret. intros h He. simpl. split; [done | by split].
Qed.

End Fresh.

Lemma hoare_deepcopy h0 x :
  hoare (λ h, h = h0) (deepcopy x)
    (λ y h, fresh (length h0) y ∧ extends h0 h).
Proof.
  intros h y h' -> H. unfold deepcopy in H.
  apply bind_Some in H as ([y' m] & h1 & H1 & [-> ->]%ret_Some).
  destruct (hoare_deepcopy_rec h0 (length h0) x [] (Forall_nil_2 _) h0 _ _
              (extends_refl h0) H1) as (Hy & _ & He).
  done.
Qed.

Lemma mapM_eval_lits vs h : mapM eval (Lit <$> vs) h = Some (vs, h).
Proof.
  induction vs as [|v vs IH]; [done|]. rewrite fmap_cons.
  change (mapM eval (Lit v :: (Lit <$> vs)) h)
    with (match mapM eval (Lit <$> vs) h with
          | Some (ys, h') => Some (v :: ys, h')
          | None => None
          end).
  by rewrite IH.
Qed.

Lemma hoare_eval_lits h0 vs :
  Forall (fresh (length h0)) vs →
  hoare (extends h0) (eval (Seq (Lit <$> vs))) (λ y h, fresh (length h0) y ∧ extends h0 h).
Proof.
  intros Hvs h y h' He H. simpl in H. unfold bind in H. rewrite mapM_eval_lits in H.
  by eapply (hoare_alloc h0 (OList vs)).
Qed.

(** Follows a computation on fresh values through [bind], [getitem],
    [setitem], [format] and [ret]. *)
Ltac fresh_step h0 :=
  match goal with
  | |- hoare _ _ _ => progress cbv beta
  | |- hoare (λ h, _ ∧ _) _ _ => apply hoare_pure; intros ?
  | |- hoare _ (bind _ _) _ => eapply hoare_bind; [|intros ?]
  | |- hoare _ (getitem _ _) _ => apply (hoare_getitem h0); assumption
  | |- hoare _ (setitem _ _ _) _ => apply (hoare_setitem h0); [assumption | exact I || assumption]
  | |- hoare _ (format _) _ => apply hoare_format
  | |- hoare _ (eval (Seq _)) _ => eapply (hoare_eval_lits h0 [_; _]); by repeat constructor
  | |- hoare _ (ret ()) _ => apply (hoare_ret _ (λ _ h, extends h0 h)); intros; assumption
  end.

Lemma hoare_make_small_config h0 base_config net_ctrl :
  hoare (λ h, h = h0) (make_small_config base_config net_ctrl)
    (λ s h, fresh (length h0) s ∧ extends h0 h).
Proof.
  unfold make_small_config. cbv zeta.
  eapply hoare_bind; [apply hoare_deepcopy|]. intros small_config. cbv beta.
  destruct net_ctrl; repeat fresh_step h0; apply hoare_ret; intros h He; by split.
Qed.

Lemma reach_fresh n h x l :
  fresh_closed n h → fresh n x → reach h x l → n ≤ l.
Proof.
  intros Hc Hx Hr. induction Hr as [l|l o v l' Hl Hv _ IH]; [done|].
  apply IH. eapply Forall_forall; [|done]. by eapply Hc.
Qed.

Lemma getitem_prefix h h' x k y :
  h `prefix_of` h' → getitem x k h = Some (y, h) → getitem x k h' = Some (y, h').
Proof.
  intros Hp H. unfold getitem in *.
  apply bind_Some in H as (o & h1 & H1 & [H2 <-]%lift_Some).
  apply bind_Some. exists o, h'. split; [|by apply lift_Some].
  unfold load in *. destruct x as [| | | |l]; try done.
  destruct (h !! l) as [o'|] eqn:Hl; [|done]. simplify_eq.
  by rewrite (prefix_lookup_Some _ _ _ _ Hl Hp).
Qed.

Lemma field_prefix h h' x path v :
  h `prefix_of` h' → field x path h = Some v → field x path h' = Some v.
Proof.
  intros Hp. revert x. induction path as [|k path IH]; intros x H; simpl in *; [done|].
  destruct (getitem x k h) as [[y h1]|] eqn:Hg; [|done].
  pose proof (getitem_heap _ _ _ _ _ Hg) as ->.
  rewrite (getitem_prefix _ _ _ _ _ Hp Hg). by apply IH.
Qed.

Lemma field_list_prefix h h' x path xs :
  h `prefix_of` h' → field_list x path h = Some xs → field_list x path h' = Some xs.
Proof.
  intros Hp. unfold field_list. intros H.
  destruct (field x path h) as [[| | | |l]|] eqn:Hf; try done.
  rewrite (field_prefix _ _ _ _ _ Hp Hf).
  destruct (h !! l) as [o|] eqn:Hl; [|done].
  by rewrite (prefix_lookup_Some _ _ _ _ Hl Hp).
Qed.

(** *** A copy of a closed store returns *)

Lemma memo_get_None l (m : memo) : memo_get l m = None → l ∉ m.*1.
Proof.
  induction m as [|[l' y] m IH]; simpl; [intros _; apply not_elem_of_nil|].
  destruct (Nat.eqb_spec l l') as [->|Hne]; [done|].
  intros H. apply not_elem_of_cons. split; [done | by apply IH].
Qed.

Lemma memo_ok_length h0 (m : memo) : memo_ok h0 m → length m ≤ length h0.
Proof.
  intros [Hnd Hlt]. assert (m.*1 ⊆+ seq 0 (length h0)) as Hsub.
  { apply NoDup_submseteq; [done|]. intros l Hl. apply elem_of_seq.
    eapply Forall_forall in Hlt; [|done]. lia. }
  apply submseteq_length in Hsub. by rewrite length_fmap, length_seq in Hsub.
Qed.

Lemma memo_ok_cons h0 l y (m : memo) :
  memo_ok h0 m → l < length h0 → memo_get l m = None → memo_ok h0 ((l, y) :: m).
Proof.
  intros [Hnd Hlt] Hl Hget. split; simpl.
  - apply NoDup_cons. split; [by apply memo_get_None | done].
  - by constructor.
Qed.

Lemma closed_children h0 l o :
  closed h0 → h0 !! l = Some o → Forall (bound h0) (children o).
Proof. intros Hc Hl. by eapply (Forall_lookup_1 _ _ _ _ Hc). Qed.

Section Total.
Context (h0 : heap) (Hclosed : closed h0).

(** What a copy in progress keeps: the objects of [h0] where they are, and
    a memo that can still grow as long as there is fuel. *)
Lemma copy_all_total (copy : val → memo → M (val * memo)) (n : nat) :
  (∀ x m h, bound h0 x → h0 `prefix_of` h → memo_ok h0 m → n ≤ length m →
     ∃ y m' h', copy x m h = Some ((y, m'), h') ∧
       h0 `prefix_of` h' ∧ length h ≤ length h' ∧
       memo_ok h0 m' ∧ length m ≤ length m') →
  ∀ xs m h, Forall (bound h0) xs → h0 `prefix_of` h → memo_ok h0 m → n ≤ length m →
    ∃ ys m' h', copy_all copy xs m h = Some ((ys, m'), h') ∧
      h0 `prefix_of` h' ∧ length h ≤ length h' ∧
      memo_ok h0 m' ∧ length m ≤ length m'.
Proof.
  intros Hcopy xs. induction xs as [|x xs IH]; intros m h Hxs Hp Hm Hn; simpl.
  - exists [], m, h. done.
  - inversion_clear Hxs as [|? ? Hx Hxs'].
    destruct (Hcopy x m h Hx Hp Hm Hn) as (y & m1 & h1 & Hrun1 & Hp1 & Hl1 & Hm1 & Hlm1).
    assert (n ≤ length m1) as Hn1 by lia.
    destruct (IH m1 h1 Hxs' Hp1 Hm1 Hn1)
      as (ys & m2 & h2 & Hrun2 & Hp2 & Hl2 & Hm2 & Hlm2).
    exists (y :: ys), m2, h2. split.
    + apply bind_Some. eexists _, _. split; [exact Hrun1|].
      apply bind_Some. eexists _, _. split; [exact Hrun2|]. done.
    + split; [done|]. split; [lia|]. split; [done | lia].
Qed.

Lemma deepcopy_rec_total fuel x m h :
  bound h0 x → h0 `prefix_of` h → memo_ok h0 m →
  length h0 ≤ fuel + length m →
  ∃ y m' h', deepcopy_rec fuel x m h = Some ((y, m'), h') ∧
    h0 `prefix_of` h' ∧ length h ≤ length h' ∧
    memo_ok h0 m' ∧ length m ≤ length m'.
Proof.
  revert x m h. induction fuel as [|fuel IH]; intros x m h Hx Hp Hm Hfuel;
    (destruct x as [b|i|f|s|l]; [by eexists _, m, h..|]); simpl;
    (destruct (memo_get l m) as [y|] eqn:Hget; [by exists y, m, h|]).
  - pose proof (memo_ok_length _ _ (memo_ok_cons h0 l (VRef 0) m Hm Hx Hget)). simpl in *. lia.
  - simpl in Hx. destruct (lookup_lt_is_Some_2 h0 l Hx) as [o Ho].
    pose proof (prefix_lookup_Some _ _ _ _ Ho Hp) as Hl.
    pose proof (prefix_length _ _ Hp) as Hlen.
    destruct (copy_all_total (deepcopy_rec fuel) (S (length m))) with
      (xs := children o) (m := (l, VRef (length h)) :: m) (h := h ++ [blank o])
      as (vs & m' & h' & Hrun & Hp' & Hlen' & Hm' & Hlm').
    + intros x' m1 h1 Hx' Hp1 Hm1 Hn. apply IH; [done..|lia].
    + by eapply closed_children.
    + by apply prefix_app_r.
    + by apply memo_ok_cons.
    + done.
    + rewrite length_app in Hlen'. simpl in *.
      exists (VRef (length h)), m', (<[length h := with_children o vs]> h'). split.
      * apply bind_Some. exists o, h. split; [unfold load; by rewrite Hl|].
        apply bind_Some. eexists _, _. split; [done|].
        apply bind_Some. eexists _, _. split; [exact Hrun|].
        apply bind_Some. eexists tt, _. split; [|done].
        unfold store. rewrite decide_True by lia. done.
      * split; [|split; [|split; [done | lia]]].
        -- destruct Hp' as [k ->]. rewrite insert_app_r_alt by lia. by eexists.
        -- rewrite length_insert. lia.
Qed.

End Total.

(** [copy.deepcopy] returns on every value of a closed store: the fuel
    [deepcopy] gives is enough. *)
Lemma deepcopy_total h x : closed h → bound h x → ∃ y h', deepcopy x h = Some (y, h').
Proof.
  intros Hc Hx.
  destruct (deepcopy_rec_total h Hc (length h) x [] h Hx) as (y & m' & h' & Hrun & _).
  - done.
  - split; [apply NoDup_nil_2 | apply Forall_nil_2].
  - simpl. lia.
  - exists y, h'. unfold deepcopy. apply bind_Some. by eexists (y, m'), h'.
Qed.

(** *** The generation loop *)

Lemma string_app_inj (a s1 s2 : string) : a +:+ s1 = a +:+ s2 → s1 = s2.
Proof.
  induction a as [|c a IH]; [done|]. intros H. apply IH.
  change (String c (a +:+ s1) = String c (a +:+ s2)) in H. by injection H.
Qed.

Lemma string_app_nonempty_l (a b : string) : a ≠ "" → a +:+ b ≠ "".
Proof. by destruct a. Qed.

Lemma string_app_nonempty_r (a b : string) : b ≠ "" → a +:+ b ≠ "".
Proof. by destruct a. Qed.

Lemma join_step_nonempty (path b : string) :
  path ≠ "" ∨ b ≠ "" →
  (if startswith_slash b then b
   else if String.eqb path "" || endswith_slash path then path +:+ b
        else path +:+ "/" +:+ b) ≠ "".
Proof.
  intros H. destruct b as [|c b]; simpl.
  - destruct H as [H|H]; [|done].
    destruct (String.eqb path "" || endswith_slash path); by apply string_app_nonempty_l.
  - destruct (Ascii.eqb c "/"); [done|].
    destruct (String.eqb path "" || endswith_slash path); by repeat apply string_app_nonempty_r.
Qed.

(** The path of a post-training checkpoint is never empty, whatever the
    entry of the table: the tree built with it is a post-training tree. *)
Lemma tp_ckpt_path_nonempty p : tp_ckpt_path p ≠ "".
Proof.
  unfold tp_ckpt_path, os_path_join. cbn [foldl].
  apply join_step_nonempty. left. apply join_step_nonempty. by right.
Qed.

(** Runs the loop on the empty store. The two checkpoint paths and the path of
    the base model are put aside as [E1], [E2] and [Ebp] first. *)
Ltac run_generation_loop E1 E2 Ebp :=
  cbv -[tp_ckpt_path make_ctrlnet_config make_small_config];
  rewrite E1, E2;
  unfold make_ctrlnet_config, ctrl_config; rewrite <- Ebp;
  vm_compute; reflexivity.

(** C8: run on the empty store and registry, the generation loop returns
    after 12 store calls, three for each of the four combinations of a hint
    key of [all_hint_key] and a frame count of 57 and 121, in the order of
    the loop: the from-scratch tree, its debug variant made by
    [make_small_config] with net_ctrl True, and the post-training tree, which
    is of full size; no debug variant of a post-training tree is stored. *)
Theorem generation_loop_stores :
  ∃ cs h per_combination,
    generation_loop [] = Some (cs, h) ∧
    length cs = 12 ∧
    cs = concat per_combination ∧
    Forall2 (stored_for h) combinations per_combination.
Proof.
  destruct (tp_ckpt_path SV2MV_t2v_HDMAP2WORLD_CONTROLNET_7B_CHECKPOINT_PATH_dbg)
    as [|c1 s1] eqn:E1; [by apply tp_ckpt_path_nonempty in E1|].
  destruct (tp_ckpt_path SV2MV_t2v_LIDAR2WORLD_CONTROLNET_7B_CHECKPOINT_PATH_dbg)
    as [|c2 s2] eqn:E2; [by apply tp_ckpt_path_nonempty in E2|].
  remember base_load_path as bp eqn:Ebp.
  eexists _, _, [[_; _; _]; [_; _; _]; [_; _; _]; [_; _; _]].
  split; [run_generation_loop E1 E2 Ebp|].
  match goal with |- _ ∧ _ ∧ Forall2 (stored_for ?hv) _ _ => set (h := hv) end.
  split; [reflexivity|]. split; [reflexivity|].
  repeat apply List.Forall2_cons; try apply List.Forall2_nil.
  all: eexists _, _, _, _; split; [reflexivity|].
  all: repeat apply conj.
  all: try (vm_compute; reflexivity).
  all: done.
Qed.

(** C9: the names of the 12 store calls of the generation loop are pairwise
    distinct. They are, for each combination of hint key and frame count,
    the from-scratch name (ending in "_pretrain"), that name followed by
    "_SMALL", and the post-training name (ending in "_posttrain"), each with
    the frame count and the hint key in it; every call is found in the
    registry under its own name, so no call shadows an earlier one. *)
Theorem generation_loop_names_distinct :
  ∃ cs h,
    generation_loop [] = Some (cs, h) ∧
    call_name <$> cs
      = flat_map (λ kn, [ pretrain_name kn.1 kn.2;
                          pretrain_name kn.1 kn.2 +:+ "_SMALL";
                          posttrain_name kn.1 kn.2 ]) combinations ∧
    NoDup (call_name <$> cs) ∧
    Forall (λ c, registry_of cs !! (call_group c, call_name c) = Some (call_node c)) cs ∧
    size (registry_of cs) = 12.
Proof.
  destruct (tp_ckpt_path SV2MV_t2v_HDMAP2WORLD_CONTROLNET_7B_CHECKPOINT_PATH_dbg)
    as [|c1 s1] eqn:E1; [by apply tp_ckpt_path_nonempty in E1|].
  destruct (tp_ckpt_path SV2MV_t2v_LIDAR2WORLD_CONTROLNET_7B_CHECKPOINT_PATH_dbg)
    as [|c2 s2] eqn:E2; [by apply tp_ckpt_path_nonempty in E2|].
  remember base_load_path as bp eqn:Ebp.
  eexists _, _. split; [run_generation_loop E1 E2 Ebp|].
  split; [vm_compute; reflexivity|].
  split; [apply (bool_decide_unpack _); vm_compute; exact I|].
  split; [|vm_compute; reflexivity].
  repeat apply Forall_cons_2; try apply Forall_nil_2; vm_compute; reflexivity.
Qed.

(** Shows the post-training tree stored at position [i] for the hint key with
    short form [short]; [E] is the equation that puts its path aside. *)
Ltac posttrain_at i short E :=
  eexists _, short, _;
  split; [eapply (list_elem_of_lookup_2 _ i); reflexivity|];
  split; [vm_compute; reflexivity|];
  split; [reflexivity|];
  split; [reflexivity|];
  match goal with
  | |- _ = Some (VStr (os_path_join _ [os_path_dirname ?p; _; _])) =>
      change (os_path_join ckpt_root
                [os_path_dirname p; "checkpoints_tp"; os_path_basename p])
        with (tp_ckpt_path p)
  end;
  rewrite E; vm_compute; reflexivity.

(** C7, amended: for each hint key and frame count of the generation loop,
    the checkpoint.load_path of the post-training tree is the path join of
    the checkpoint root, the directory part of the checkpoint table entry,
    "checkpoints_tp" and the base filename of the entry, taken for the short
    form of the hint key, which is the hint key without "control_input_". *)
Theorem generation_loop_posttrain_load_path :
  ∃ cs h,
    generation_loop [] = Some (cs, h) ∧
    posttrain_load_paths
      (λ entry, os_path_join ckpt_root
                  [os_path_dirname entry; "checkpoints_tp"; os_path_basename entry])
      cs h.
Proof.
  destruct (tp_ckpt_path SV2MV_t2v_HDMAP2WORLD_CONTROLNET_7B_CHECKPOINT_PATH_dbg)
    as [|c1 s1] eqn:E1; [by apply tp_ckpt_path_nonempty in E1|].
  destruct (tp_ckpt_path SV2MV_t2v_LIDAR2WORLD_CONTROLNET_7B_CHECKPOINT_PATH_dbg)
    as [|c2 s2] eqn:E2; [by apply tp_ckpt_path_nonempty in E2|].
  remember base_load_path as bp eqn:Ebp.
  eexists _, _. split; [run_generation_loop E1 E2 Ebp|].
  match goal with |- posttrain_load_paths _ _ ?hv => set (h := hv) end.
  unfold posttrain_load_paths.
  change combinations
    with [ ("control_input_hdmap", 57%Z); ("control_input_hdmap", 121%Z);
           ("control_input_lidar", 57%Z); ("control_input_lidar", 121%Z) ].
  repeat apply Forall_cons_2; try apply Forall_nil_2; cbv beta; cbn [fst snd].
  - posttrain_at 2 "hdmap" E1.
  - posttrain_at 5 "hdmap" E1.
  - posttrain_at 8 "lidar" E2.
  - posttrain_at 11 "lidar" E2.
Qed.

(** *** More about the tree of [make_ctrlnet_config] *)

(** Sets the computed leaves of the tree aside and runs the two functions on
    the empty store. *)
Ltac run_make_ctrlnet_config :=
  unfold make_ctrlnet_config;
  match goal with
  | |- context [job_name_project ?k ?n ?p ?t ?f] =>
      destruct (job_name_project k n p t f) as [job_name job_project]
  end;
  unfold ctrl_config;
  generalize base_load_path as bp; intros bp;
  match goal with
  | |- context [((?nf - 1) / 8 + 1)%Z] =>
      generalize ((nf - 1) / 8 + 1)%Z as latent_t; intros latent_t
  end;
  match goal with
  | |- context [(λ i : Z, bool_ (if (i >=? ?ncb)%Z then true else false))] =>
      let f := fresh "f" in
      pose (f := λ i : Z, if (i >=? ncb)%Z then true else false);
      change (λ i : Z, bool_ (if (i >=? ncb)%Z then true else false))
        with (λ i : Z, bool_ (f i));
      clearbody f
  end.


Lemma rebase_prefix h0 h : h0 `prefix_of` rebase h0 h.
Proof. unfold rebase. by apply prefix_app_r. Qed.

Lemma fresh_shift n v : fresh n (shift_val n v).
Proof. destruct v; simpl; try done. lia. Qed.

Lemma rebase_fresh_closed h0 h : fresh_closed (length h0) (rebase h0 h).
Proof.
  intros l o Hl Ho. replace l with (length h0 + (l - length h0)) in Ho by lia.
  rewrite rebase_lookup in Ho. destruct (h !! (l - length h0)) as [o'|]; [|done].
  injection Ho as <-. rewrite children_shift, Forall_fmap.
  apply Forall_forall. intros v _. apply fresh_shift.
Qed.



(** X2: the arguments reach every place of the tree that depends on them:
    num_frames is the num_frames of the dataset node and the
    pixel_chunk_duration of the tokenizer, hint_key is the hint_key of the
    dataset node and the hint_key override of the defaults list, and
    first_random_n_num_condition_t_max is 0 with t2v and 2 without. *)
Theorem make_ctrlnet_config_arguments (h0 : heap) (hint_key : string) (ncb : Z)
    (path : string) (t2v : bool) (num_frames : Z) :
  ∃ b h,
    make_ctrlnet_config hint_key ncb path t2v num_frames h0 = Some (b, h) ∧
    field b [KStr "dataloader_train"; KStr "dataset"; KStr "num_frames"] h
      = Some (VInt num_frames) ∧
    field b [KStr "model"; KStr "tokenizer"; KStr "pixel_chunk_duration"] h
      = Some (VInt num_frames) ∧
    field b [KStr "dataloader_train"; KStr "dataset"; KStr "hint_key"] h
      = Some (VStr hint_key) ∧
    field b [KStr "defaults"; KInt 4; KStr "override /hint_key"] h = Some (VStr hint_key) ∧
    field b [KStr "model"; KStr "conditioner"; KStr "video_cond_bool";
             KStr "first_random_n_num_condition_t_max"] h
      = Some (VInt (if t2v then 0 else 2)).
Proof.
  assert (∃ b h,
    make_ctrlnet_config hint_key ncb path t2v num_frames [] = Some (b, h) ∧
    field b [KStr "dataloader_train"; KStr "dataset"; KStr "num_frames"] h
      = Some (VInt num_frames) ∧
    field b [KStr "model"; KStr "tokenizer"; KStr "pixel_chunk_duration"] h
      = Some (VInt num_frames) ∧
    field b [KStr "dataloader_train"; KStr "dataset"; KStr "hint_key"] h
      = Some (VStr hint_key) ∧
    field b [KStr "defaults"; KInt 4; KStr "override /hint_key"] h = Some (VStr hint_key) ∧
    field b [KStr "model"; KStr "conditioner"; KStr "video_cond_bool";
             KStr "first_random_n_num_condition_t_max"] h
      = Some (VInt (if t2v then 0 else 2))) as (b & h & Hrun & H1 & H2 & H3 & H4 & H5).
  { run_make_ctrlnet_config.
    eexists _, _. split; [vm_compute; reflexivity|].
    repeat apply conj; vm_compute; reflexivity. }
  exists (shift_val (length h0) b), (rebase h0 h). split.
  { rewrite <- (rebase_nil h0) at 1. by apply moves_make_ctrlnet_config. }
  repeat apply conj; by apply field_rebase_scalar.
Qed.

Lemma make_ctrlnet_config_root_empty hint_key ncb path t2v num_frames :
  ∃ r h, make_ctrlnet_config hint_key ncb path t2v num_frames [] = Some (VRef r, h).
Proof. run_make_ctrlnet_config. eexists _, _. vm_compute. reflexivity. Qed.

(** X3: [make_ctrlnet_config] changes no object that exists when it is
    called and builds its tree of new objects: the store it leaves is the
    store it found followed by new objects, and the root of the tree and
    every object that can be reached from it are among the new ones. *)
Theorem make_ctrlnet_config_allocates (h0 : heap) (hint_key : string) (ncb : Z)
    (path : string) (t2v : bool) (num_frames : Z) :
  ∃ r h,
    make_ctrlnet_config hint_key ncb path t2v num_frames h0 = Some (VRef r, h) ∧
    h0 `prefix_of` h ∧
    (∀ l, reach h (VRef r) l → length h0 ≤ l).
Proof.
  destruct (make_ctrlnet_config_root_empty hint_key ncb path t2v num_frames)
    as (r & h & Hrun).
  exists (length h0 + r), (rebase h0 h). split.
  { rewrite <- (rebase_nil h0) at 1.
    by apply (moves_make_ctrlnet_config h0 _ _ _ _ _ [] (VRef r)). }
  split; [apply rebase_prefix|].
  intros l. apply reach_fresh; [apply rebase_fresh_closed | simpl; lia].
Qed.



(** *** Paths *)

Lemma string_app_nil_r (a : string) : a +:+ "" = a.
Proof.
  induction a as [|c a IH]; [done|]. change (String c (a +:+ "") = String c a). by rewrite IH.
Qed.

Lemma string_app_cons c (a b : string) : String c a +:+ b = String c (a +:+ b).
Proof. done. Qed.

Lemma string_app_nil_l (a : string) : "" +:+ a = a.
Proof. done. Qed.

(** [String.append] does not simplify by itself. *)
Ltac simpl_app := simpl in *; rewrite ?string_app_cons, ?string_app_nil_l in *.

Lemma string_length_app (a b : string) :
  String.length (a +:+ b) = String.length a + String.length b.
Proof.
  induction a as [|c a IH]; [done|]. rewrite string_app_cons. simpl. by rewrite IH.
Qed.

Lemma string_app_inj_2 (a1 a2 s1 s2 : string) :
  String.length s1 = String.length s2 → a1 +:+ s1 = a2 +:+ s2 → a1 = a2 ∧ s1 = s2.
Proof.
  intros Hlen. revert a2. induction a1 as [|c a1 IH]; intros [|c2 a2] H.
  - done.
  - change (s1 = String c2 (a2 +:+ s2)) in H. subst s1.
    simpl in Hlen. rewrite string_length_app in Hlen. lia.
  - change (String c (a1 +:+ s1) = s2) in H. subst s2.
    simpl in Hlen. rewrite string_length_app in Hlen. lia.
  - rewrite !string_app_cons in H. injection H as -> H.
    destruct (IH _ H) as [-> ->]. done.
Qed.

Lemma string_app_inv_tail (a1 a2 s : string) : a1 +:+ s = a2 +:+ s → a1 = a2.
Proof. intros H. by destruct (string_app_inj_2 a1 a2 s s eq_refl H). Qed.

Lemma split_last_slash_app p :
  (split_last_slash p).1 +:+ (split_last_slash p).2 = p.
Proof.
  induction p as [|c p IH]; [done|]. simpl.
  destruct (split_last_slash p) as [[|c' head] tail]; simpl_app.
  - destruct (Ascii.eqb c "/"); simpl_app; by rewrite ?IH.
  - by rewrite <- IH.
Qed.

Lemma split_last_slash_tail p : has_slash (split_last_slash p).2 = false.
Proof.
  induction p as [|c p IH]; [done|]. simpl.
  destruct (split_last_slash p) as [[|c' head] tail] eqn:Hs; simpl in *; [|done].
  destruct (Ascii.eqb c "/") eqn:Hc; simpl.
  - pose proof (split_last_slash_app p) as Happ. rewrite Hs in Happ. simpl_app.
    by rewrite <- Happ.
  - by rewrite Hc.
Qed.

Lemma split_last_slash_no_slash p :
  has_slash p = false → split_last_slash p = ("", p).
Proof.
  induction p as [|c p IH]; [done|]. simpl. intros [Hc Hp]%orb_false_iff.
  rewrite (IH Hp). by rewrite Hc.
Qed.

Lemma split_last_slash_head p :
  has_slash p = true →
  ∃ c head, (split_last_slash p).1 = String c head ∧
    startswith_slash (String c head) = startswith_slash p.
Proof.
  induction p as [|c p IH]; [done|]. simpl. intros Hp.
  destruct (split_last_slash p) as [[|c' head] tail] eqn:Hs; simpl in *.
  - destruct (Ascii.eqb c "/") eqn:Hc; simpl.
    + exists c, "". by rewrite Hc.
    + destruct (IH Hp) as (? & ? & ? & _). done.
  - by exists c, (String c' head).
Qed.

Lemma rstrip_slash_app s :
  ∃ seps, s = rstrip_slash s +:+ seps ∧ all_slash seps = true.
Proof.
  induction s as [|c s (seps & IH & Hseps)]; [by exists ""|]. simpl.
  destruct (rstrip_slash s) as [|c' r] eqn:Hr.
  - destruct (Ascii.eqb c "/") eqn:Hc; simpl_app.
    + exists (String c s). simpl. rewrite Hc. split; [done|]. by rewrite IH.
    + exists seps. simpl_app. split; [congruence|done].
  - exists seps. simpl_app. split; [congruence|done].
Qed.

Lemma rstrip_slash_end s : endswith_slash (rstrip_slash s) = false.
Proof.
  induction s as [|c s IH]; [done|]. simpl.
  destruct (rstrip_slash s) as [|c' r] eqn:Hr.
  - destruct (Ascii.eqb c "/") eqn:Hc; [done|]. simpl. by rewrite Hc.
  - done.
Qed.

Lemma rstrip_slash_start s :
  all_slash s = false →
  ∃ c r, rstrip_slash s = String c r ∧ startswith_slash (String c r) = startswith_slash s.
Proof.
  induction s as [|c s IH]; [done|]. simpl. intros H.
  destruct (rstrip_slash s) as [|c' r] eqn:Hr.
  - destruct (Ascii.eqb c "/") eqn:Hc; simpl in H.
    + destruct (IH H) as (? & ? & ? & _). done.
    + exists c, "". done.
  - by exists c, (String c' r).
Qed.

Lemma has_slash_start s : has_slash s = false → startswith_slash s = false.
Proof. destruct s as [|c s]; [done|]. simpl. by intros [? _]%orb_false_iff. Qed.

Lemma startswith_slash_app (a b : string) :
  startswith_slash a = true → startswith_slash (a +:+ b) = true.
Proof. by destruct a. Qed.

Lemma endswith_slash_app (a b : string) :
  b ≠ "" → endswith_slash (a +:+ b) = endswith_slash b.
Proof.
  intros Hb. induction a as [|c a IH]; [done|]. rewrite string_app_cons. simpl.
  rewrite IH. destruct (a +:+ b) eqn:Hab; [|done].
  destruct a; [by destruct b | done].
Qed.

(** X5: a path is its directory part, then slashes, then its base name, and
    the base name has no slash in it: [os.path.dirname] and
    [os.path.basename] lose nothing of a checkpoint path but the slashes
    between the two parts. *)
Theorem os_path_dirname_basename (p : string) :
  ∃ seps,
    p = os_path_dirname p +:+ seps +:+ os_path_basename p ∧
    all_slash seps = true ∧
    has_slash (os_path_basename p) = false.
Proof.
  unfold os_path_dirname, os_path_basename.
  pose proof (split_last_slash_app p) as Happ.
  pose proof (split_last_slash_tail p) as Htail.
  destruct (split_last_slash p) as [head tail]. simpl in *.
  destruct (all_slash head) eqn:Hall.
  - exists "". done.
  - destruct (rstrip_slash_app head) as (seps & Hhead & Hseps).
    exists seps. split; [|done]. rewrite <- string_app_assoc, <- Hhead. done.
Qed.

Lemma os_path_dirname_start p :
  startswith_slash (os_path_dirname p) = startswith_slash p.
Proof.
  unfold os_path_dirname. destruct (has_slash p) eqn:Hp.
  - destruct (split_last_slash_head p Hp) as (c & head & -> & <-).
    destruct (all_slash (String c head)) eqn:Hall; [done|].
    by destruct (rstrip_slash_start _ Hall) as (c' & r & -> & ->).
  - rewrite (split_last_slash_no_slash p Hp). simpl. by rewrite has_slash_start.
Qed.

Lemma os_path_dirname_nonempty p : has_slash p = true → os_path_dirname p ≠ "".
Proof.
  intros Hp. unfold os_path_dirname.
  destruct (split_last_slash_head p Hp) as (c & head & -> & _).
  destruct (all_slash (String c head)) eqn:Hall; [done|].
  by destruct (rstrip_slash_start _ Hall) as (c' & r & -> & _).
Qed.

Lemma os_path_dirname_no_slash p : has_slash p = false → os_path_dirname p = "".
Proof. intros Hp. unfold os_path_dirname. by rewrite (split_last_slash_no_slash p Hp). Qed.

Lemma os_path_basename_no_slash p : has_slash p = false → os_path_basename p = p.
Proof. intros Hp. unfold os_path_basename. by rewrite (split_last_slash_no_slash p Hp). Qed.

Lemma os_path_dirname_end p :
  startswith_slash p = false → endswith_slash (os_path_dirname p) = false.
Proof.
  intros Hs. destruct (has_slash p) eqn:Hp.
  - unfold os_path_dirname.
    destruct (split_last_slash_head p Hp) as (c & head & -> & Hc).
    rewrite Hs in Hc. simpl in Hc.
    assert (Hall : all_slash (String c head) = false) by (simpl; by rewrite Hc).
    rewrite Hall. apply rstrip_slash_end.
  - by rewrite os_path_dirname_no_slash.
Qed.

Lemma os_path_basename_start p : startswith_slash (os_path_basename p) = false.
Proof. apply has_slash_start, split_last_slash_tail. Qed.

(** The three steps of the join of the checkpoint root, the directory of a
    path, [checkpoints_tp] and a file name, one case for each. *)
Lemma os_path_join_checkpoints_tp p last :
  startswith_slash last = false →
  os_path_join ckpt_root [os_path_dirname p; "checkpoints_tp"; last] =
    (if startswith_slash p then "" else "checkpoints/") +:+ os_path_dirname p
      +:+ (if String.eqb (os_path_dirname p) "" || endswith_slash (os_path_dirname p)
           then "" else "/")
      +:+ "checkpoints_tp/" +:+ last.
Proof.
  intros Hlast. unfold os_path_join, ckpt_root. cbn [foldl].
  rewrite Hlast, os_path_dirname_start.
  change (startswith_slash "checkpoints_tp") with false. cbv iota.
  change (String.eqb "checkpoints/" "" || endswith_slash "checkpoints/") with true. cbv iota.
  set (d := os_path_dirname p).
  assert (Hd : startswith_slash d = startswith_slash p) by apply os_path_dirname_start.
  set (path1 := if startswith_slash p then d else "checkpoints/" +:+ d).
  assert (H1 : path1 ≠ "").
  { unfold path1. destruct (startswith_slash p); [by destruct d|done]. }
  assert (E1 : String.eqb path1 "" || endswith_slash path1
               = String.eqb d "" || endswith_slash d).
  { destruct (String.eqb_spec path1 "") as [?|_]; [done|]. unfold path1.
    destruct (startswith_slash p).
    - by destruct d.
    - destruct d as [|c d]; [done|]. by rewrite endswith_slash_app. }
  rewrite E1. set (sep := if String.eqb d "" || endswith_slash d then "" else "/").
  assert (Hp2 : (if String.eqb d "" || endswith_slash d
                 then path1 +:+ "checkpoints_tp"
                 else path1 +:+ "/" +:+ "checkpoints_tp")
                = path1 +:+ sep +:+ "checkpoints_tp").
  { unfold sep. by destruct (String.eqb d "" || endswith_slash d). }
  rewrite Hp2.
  assert (E2 : String.eqb (path1 +:+ sep +:+ "checkpoints_tp") ""
               || endswith_slash (path1 +:+ sep +:+ "checkpoints_tp") = false).
  { apply orb_false_iff. split.
    - apply String.eqb_neq. by apply string_app_nonempty_l.
    - rewrite endswith_slash_app by (by apply string_app_nonempty_r).
      by rewrite endswith_slash_app. }
  rewrite E2. unfold path1.
  destruct (startswith_slash p); rewrite ?string_app_assoc; done.
Qed.

(** The three steps of the join in [tp_ckpt_path], one case for each. *)
Lemma tp_ckpt_path_cases p :
  tp_ckpt_path p =
    (if startswith_slash p then "" else "checkpoints/") +:+ os_path_dirname p
      +:+ (if String.eqb (os_path_dirname p) "" || endswith_slash (os_path_dirname p)
           then "" else "/")
      +:+ "checkpoints_tp/" +:+ os_path_basename p.
Proof. apply os_path_join_checkpoints_tp, os_path_basename_start. Qed.

(** X6: a checkpoint given by a file name alone (no slash in it) is looked
    for in the [checkpoints_tp] directory directly under the checkpoint
    root. *)
Theorem tp_ckpt_path_file_name (p : string) :
  has_slash p = false →
  tp_ckpt_path p = "checkpoints/checkpoints_tp/" +:+ p.
Proof.
  intros Hp. rewrite tp_ckpt_path_cases.
  rewrite (has_slash_start p Hp), (os_path_dirname_no_slash p Hp),
    (os_path_basename_no_slash p Hp). done.
Qed.

(** X7: for a relative checkpoint path with a directory part the
    [checkpoints_tp] directory is put between the directory and the file
    name, and the whole under the checkpoint root. *)
Theorem tp_ckpt_path_relative (p : string) :
  startswith_slash p = false →
  has_slash p = true →
  tp_ckpt_path p =
    "checkpoints/" +:+ os_path_dirname p +:+ "/checkpoints_tp/" +:+ os_path_basename p.
Proof.
  intros Hs Hp. rewrite tp_ckpt_path_cases, Hs, (os_path_dirname_end p Hs).
  destruct (String.eqb_spec (os_path_dirname p) "") as [E|_]; [|done].
  by destruct (os_path_dirname_nonempty p Hp).
Qed.

(** X8: an absolute checkpoint path makes [os.path.join] drop the checkpoint
    root: the path of the post-training checkpoint is absolute too, the
    directory of the given path, then [checkpoints_tp], then its file
    name. *)
Theorem tp_ckpt_path_absolute (p : string) :
  startswith_slash p = true →
  startswith_slash (tp_ckpt_path p) = true ∧
  tp_ckpt_path p =
    os_path_dirname p +:+ (if endswith_slash (os_path_dirname p) then "" else "/")
      +:+ "checkpoints_tp/" +:+ os_path_basename p.
Proof.
  intros Hs. rewrite tp_ckpt_path_cases, Hs.
  pose proof (os_path_dirname_start p) as Hd. rewrite Hs in Hd.
  change ("" +:+ ?x) with x. split.
  - by apply startswith_slash_app.
  - by destruct (os_path_dirname p).
Qed.

(** *** Names *)

Lemma string_forall_app P (a b : string) :
  string_forall P (a +:+ b) = string_forall P a && string_forall P b.
Proof.
  induction a as [|c a IH]; [done|]. rewrite string_app_cons. simpl.
  by rewrite IH, andb_assoc.
Qed.

Lemma string_app_cons_inv c1 c2 (a1 a2 b1 b2 : string) :
  String c1 a1 +:+ b1 = String c2 a2 +:+ b2 → c1 = c2 ∧ a1 +:+ b1 = a2 +:+ b2.
Proof. rewrite !string_app_cons. by intros [= -> ->]. Qed.

(** A string is cut in one way only at its first character outside [P]. *)
Lemma string_cut_first P (a1 a2 : string) c1 c2 (r1 r2 : string) :
  string_forall P a1 = true → string_forall P a2 = true →
  P c1 = false → P c2 = false →
  a1 +:+ String c1 r1 = a2 +:+ String c2 r2 →
  a1 = a2 ∧ c1 = c2 ∧ r1 = r2.
Proof.
  intros H1 H2 Hc1 Hc2. revert a2 H2.
  induction a1 as [|x a1 IH]; intros [|y a2] H2 H.
  - rewrite !string_app_nil_l in H. by injection H as -> ->.
  - rewrite string_app_nil_l, string_app_cons in H. injection H as -> _.
    simpl in H2. apply andb_true_iff in H2 as [H2 _]. congruence.
  - rewrite string_app_nil_l, string_app_cons in H. injection H as -> _.
    simpl in H1. apply andb_true_iff in H1 as [H1 _]. congruence.
  - apply string_app_cons_inv in H as [-> H].
    simpl in H1, H2. apply andb_true_iff in H1 as [_ H1]. apply andb_true_iff in H2 as [_ H2].
    by destruct (IH H1 a2 H2 H) as (-> & -> & ->).
Qed.

(** A string is cut in one way only at its last character outside [P]. *)
Lemma string_cut_last P (x1 x2 : string) c1 c2 (a1 a2 : string) :
  string_forall P a1 = true → string_forall P a2 = true →
  P c1 = false → P c2 = false →
  x1 +:+ String c1 a1 = x2 +:+ String c2 a2 →
  x1 = x2 ∧ c1 = c2 ∧ a1 = a2.
Proof.
  intros H1 H2 Hc1 Hc2. revert x2.
  induction x1 as [|x x1 IH]; intros [|y x2] H.
  - rewrite !string_app_nil_l in H. by injection H as -> ->.
  - rewrite string_app_nil_l, string_app_cons in H. injection H as -> ->.
    rewrite string_forall_app in H1. simpl in H1. rewrite Hc2 in H1.
    by rewrite andb_false_r in H1.
  - rewrite string_app_nil_l, string_app_cons in H. injection H as -> <-.
    rewrite string_forall_app in H2. simpl in H2. rewrite Hc1 in H2.
    by rewrite andb_false_r in H2.
  - apply string_app_cons_inv in H as [-> H].
    by destruct (IH x2 H) as (-> & -> & ->).
Qed.

Lemma pretty_N_go_numeric (x : N) (s : string) :
  string_forall is_num_char s = true → string_forall is_num_char (pretty_N_go x s) = true.
Proof.
  revert s. induction (N.lt_wf_0 x) as [x _ IH]. intros s Hs.
  assert (x = 0 ∨ 0 < x)%N as [->|Hx] by lia; [by rewrite pretty_N_go_0|].
  rewrite pretty_N_go_step by done. apply IH; [by apply N.div_lt|].
  simpl. rewrite Hs, andb_true_r. unfold pretty_N_char. by repeat case_match.
Qed.

Lemma pretty_N_numeric (x : N) : string_forall is_num_char (pretty x) = true.
Proof.
  unfold pretty, pretty_N. case_decide; [done|]. by apply pretty_N_go_numeric.
Qed.

Lemma pretty_Z_numeric (z : Z) : string_forall is_num_char (pretty z) = true.
Proof.
  unfold pretty, pretty_Z. destruct z as [|x|x]; [done|exact (pretty_N_numeric (Npos x))|].
  rewrite string_forall_app. exact (pretty_N_numeric (Npos x)).
Qed.

(** The name without the part that says t2v or lvg. *)
Lemma job_name_tail_inj (hk1 hk2 : string) (ncb1 ncb2 n1 n2 : Z) (s1 s2 : string) :
  s1 = "pretrain" ∨ s1 = "posttrain" →
  s2 = "pretrain" ∨ s2 = "posttrain" →
  pretty n1 +:+ "frames_" +:+ hk1 +:+ "_block" +:+ pretty ncb1 +:+ String "_" s1
  = pretty n2 +:+ "frames_" +:+ hk2 +:+ "_block" +:+ pretty ncb2 +:+ String "_" s2 →
  hk1 = hk2 ∧ ncb1 = ncb2 ∧ n1 = n2 ∧ s1 = s2.
Proof.
  intros Hs1 Hs2 H.
  change ("frames_" +:+ ?r) with (String "f" ("rames_" +:+ r)) in H.
  apply (string_cut_first is_num_char) in H as (Hn & _ & H);
    [|apply pretty_Z_numeric|apply pretty_Z_numeric|done|done].
  apply (inj pretty) in Hn. apply string_app_inj in H.
  rewrite <- !(string_app_assoc _ _ (String "_" _)) in H.
  rewrite <- !(string_app_assoc hk1), <- !(string_app_assoc hk2) in H.
  apply (string_cut_last (λ c, negb (Ascii.eqb c "_"))) in H as (H & _ & Hs);
    [|by destruct Hs1 as [->| ->]|by destruct Hs2 as [->| ->]|done|done].
  change "_block" with ("_bloc" +:+ "k") in H.
  rewrite !string_app_assoc in H.
  rewrite <- !(string_app_assoc hk1), <- !(string_app_assoc hk2) in H.
  change ("k" +:+ ?r) with (String "k" r) in H.
  apply (string_cut_last is_num_char) in H as (H & _ & Hb);
    [|apply pretty_Z_numeric|apply pretty_Z_numeric|done|done].
  apply (inj pretty) in Hb. apply string_app_inv_tail in H. done.
Qed.

(** X9: the job name tells the experiments apart: two calls of
    [make_ctrlnet_config] derive the same name only if they agree in the
    hint key, the number of control blocks, the t2v flag, the number of
    frames, and on whether a checkpoint path is given. *)
Theorem job_name_injective (hk1 hk2 : string) (ncb1 ncb2 : Z) (p1 p2 : string)
    (t1 t2 : bool) (n1 n2 : Z) :
  (job_name_project hk1 ncb1 p1 t1 n1).1 = (job_name_project hk2 ncb2 p2 t2 n2).1 →
  hk1 = hk2 ∧ ncb1 = ncb2 ∧ t1 = t2 ∧ n1 = n2 ∧ (p1 = "" ↔ p2 = "").
Proof.
  clear float_str container_str. unfold job_name_project.
  destruct (String.eqb_spec p1 "") as [E1|E1], (String.eqb_spec p2 "") as [E2|E2],
    t1, t2; cbn [fst]; intros H;
    repeat (apply string_app_cons_inv in H as [? H]); try discriminate;
    rewrite !string_app_nil_l in H;
    (change "_pretrain" with (String "_" "pretrain") in H ||
     change "_posttrain" with (String "_" "posttrain") in H);
    apply job_name_tail_inj in H as (-> & -> & -> & Hs); try discriminate Hs;
    auto; naive_solver.
Qed.

(** *** The short hint key *)

Lemma prefix_app_true (a r : string) : String.prefix a (a +:+ r) = true.
Proof.
  induction a as [|c a IH]; [by destruct r|]. rewrite string_app_cons. simpl.
  by destruct (ascii_dec c c).
Qed.

Lemma replace_go_skip old new (a s : string) :
  replace_go old new (String.length a) (a +:+ s) = replace_go old new 0 s.
Proof.
  induction a as [|c a IH]; [by destruct s|]. by rewrite string_app_cons.
Qed.

Lemma replace_go_none old new (s : string) :
  str_contains old s = false → replace_go old new 0 s = s.
Proof.
  induction s as [|c s IH]; intros Hs; [done|].
  change (str_contains old (String c s))
    with (String.prefix old (String c s) || str_contains old s) in Hs.
  apply orb_false_iff in Hs as [Hp Hs].
  change (replace_go old new 0 (String c s))
    with (if String.prefix old (String c s)
          then new +:+ replace_go old new (String.length old - 1) s
          else String c (replace_go old new 0 s)).
  by rewrite Hp, IH.
Qed.

Lemma replace_go_prefix old new (s : string) :
  old ≠ "" → replace_go old new 0 (old +:+ s) = new +:+ replace_go old new 0 s.
Proof.
  destruct old as [|c a]; [done|]. intros _.
  change (replace_go (String c a) new 0 (String c a +:+ s))
    with (if String.prefix (String c a) (String c a +:+ s)
          then new +:+ replace_go (String c a) new (String.length a - 0) (a +:+ s)
          else String c (replace_go (String c a) new 0 (a +:+ s))).
  by rewrite prefix_app_true, Nat.sub_0_r, replace_go_skip.
Qed.

(** X10: what [key.replace("control_input_", "")] makes of a hint key: the
    prefix is taken off, and a key in which the text does not occur stays as
    it is. *)
Theorem hint_key_short (short : string) :
  str_contains "control_input_" short = false →
  str_replace ("control_input_" +:+ short) "control_input_" "" = short ∧
  str_replace short "control_input_" "" = short.
Proof.
  intros Hs. unfold str_replace. split; [|by apply replace_go_none].
  rewrite replace_go_prefix by done. by apply replace_go_none.
Qed.

(** *** The loop *)

Lemma bind_None {A B} (m : M A) (f : A → M B) h :
  (∀ a h', f a h' = None) → bind m f h = None.
Proof. intros H. unfold bind. by destruct (m h) as [[a h']|]. Qed.

(** X11: a hint key whose short form has no entry in [mv_model_names] makes
    the body of the loop raise (a KeyError): no experiment can be added to
    [all_hint_key] without a checkpoint in the table. *)
Theorem loop_body_unknown_hint_key (key : string) (num_frames : Z) (cs : list StoreCall)
    (h : heap) :
  table_get (str_replace key "control_input_" "") mv_model_names = None →
  loop_body key num_frames cs h = None.
Proof.
  intros Hk. unfold loop_body.
  do 4 (apply bind_None; intros ? ?). by rewrite Hk.
Qed.

(** *** A copy reads as its original *)

Lemma memo_get_elem_of l (m : memo) y : memo_get l m = Some y → (l, y) ∈ m.
Proof.
  induction m as [|[l' y'] m IH]; simpl; [done|].
  destruct (Nat.eqb_spec l l') as [->|Hne]; intros H.
  - simplify_eq. left.
  - right. by apply IH.
Qed.

Lemma memo_get_app (mnew m : memo) l y :
  NoDup (mnew ++ m).*1 → memo_get l m = Some y → memo_get l (mnew ++ m) = Some y.
Proof.
  intros Hnd Hget. induction mnew as [|[l1 y1] mnew IH]; simpl in *; [done|].
  apply NoDup_cons in Hnd as [Hl1 Hnd].
  destruct (Nat.eqb_spec l l1) as [->|Hne]; [|by apply IH].
  destruct Hl1. rewrite fmap_app. apply elem_of_app. right.
  apply memo_get_elem_of in Hget. by apply (list_elem_of_fmap_2 fst _ (l1, y)).
Qed.

Lemma copy_of_app (mnew m : memo) v v' :
  NoDup (mnew ++ m).*1 → copy_of m v v' → copy_of (mnew ++ m) v v'.
Proof. intros Hnd. destruct v; simpl; try done. by apply memo_get_app. Qed.

Lemma copied_app h0 h (mnew m : memo) l y :
  NoDup (mnew ++ m).*1 → copied h0 h m l y → copied h0 h (mnew ++ m) l y.
Proof.
  intros Hnd (l' & o & vs & -> & Ho & Hl' & Hvs). exists l', o, vs.
  repeat split; try done. eapply Forall2_impl; [done|]. intros v v'. by apply copy_of_app.
Qed.

Lemma copied_prefix h0 h h' (m : memo) l y :
  h `prefix_of` h' → copied h0 h m l y → copied h0 h' m l y.
Proof.
  intros Hp (l' & o & vs & -> & Ho & Hl' & Hvs). exists l', o, vs.
  repeat split; try done. by apply (prefix_lookup_Some _ _ _ _ Hl').
Qed.

Lemma copied_insert h0 h (m : memo) l y n o :
  fresh (S n) y → copied h0 h m l y → copied h0 (<[n:=o]> h) m l y.
Proof.
  intros Hy (l' & o' & vs & -> & Ho & Hl' & Hvs). exists l', o', vs. simpl in Hy.
  repeat split; try done. rewrite list_lookup_insert_ne by lia. done.
Qed.

Lemma copy_step_refl h0 h (m : memo) : NoDup m.*1 → copy_step h0 h m h m.
Proof. intros Hnd. exists []. repeat split; try done. Qed.

Lemma fresh_le n n' v : n ≤ n' → fresh n' v → fresh n v.
Proof. destruct v; simpl; try done. lia. Qed.

Lemma copy_step_trans h0 h m h1 m1 h2 m2 :
  copy_step h0 h m h1 m1 → copy_step h0 h1 m1 h2 m2 → copy_step h0 h m h2 m2.
Proof.
  intros (mnew1 & -> & Hnd1 & Hp1 & H1) (mnew2 & -> & Hnd2 & Hp2 & H2).
  exists (mnew2 ++ mnew1). split; [by rewrite app_assoc|]. split; [done|].
  split; [by etrans|]. apply Forall_app. split.
  - eapply Forall_impl; [done|]. intros [l y] [Hc Hf]. split; [done|].
    apply prefix_length in Hp1. by eapply fresh_le.
  - eapply Forall_impl; [exact H1|]. intros [l y] [Hc Hf]. split; [|done].
    apply copied_app; [done|]. by eapply copied_prefix.
Qed.

Section Copies.
Context (h0 : heap) (Hclosed : closed h0).

Lemma copy_all_copies (copy : val → memo → M (val * memo)) :
  (∀ x m h y m' h', copy x m h = Some ((y, m'), h') →
     bound h0 x → h0 `prefix_of` h → NoDup m.*1 →
     copy_step h0 h m h' m' ∧ copy_of m' x y) →
  ∀ xs m h ys m' h', copy_all copy xs m h = Some ((ys, m'), h') →
    Forall (bound h0) xs → h0 `prefix_of` h → NoDup m.*1 →
    copy_step h0 h m h' m' ∧ Forall2 (copy_of m') xs ys.
Proof.
  intros Hcopy xs. induction xs as [|x xs IH]; intros m h ys m' h' Hrun Hxs Hp Hnd;
    simpl in Hrun.
  - apply ret_Some in Hrun as [[= -> ->] ->]. split; [by apply copy_step_refl|constructor].
  - inversion_clear Hxs as [|? ? Hx Hxs'].
    apply bind_Some in Hrun as ([y m1] & h1 & Hrun1 & Hrun).
    apply bind_Some in Hrun as ([ys' m2] & h2 & Hrun2 & Hret).
    apply ret_Some in Hret as [[= -> ->] ->]. simpl in *.
    destruct (Hcopy _ _ _ _ _ _ Hrun1 Hx Hp Hnd) as [Hs1 Hy].
    assert (Hp1 : h0 `prefix_of` h1).
    { destruct Hs1 as (? & _ & _ & ? & _). by etrans. }
    assert (Hnd1 : NoDup m1.*1) by (by destruct Hs1 as (? & _ & ? & _)).
    destruct (IH _ _ _ _ _ Hrun2 Hxs' Hp1 Hnd1) as [Hs2 Hys].
    split; [by eapply copy_step_trans|]. constructor; [|done].
    destruct Hs2 as (mnew2 & -> & Hnd2 & _). by apply copy_of_app.
Qed.

Lemma deepcopy_rec_copies fuel x m h y m' h' :
  deepcopy_rec fuel x m h = Some ((y, m'), h') →
  bound h0 x → h0 `prefix_of` h → NoDup m.*1 →
  copy_step h0 h m h' m' ∧ copy_of m' x y.
Proof.
  revert x m h y m' h'.
  induction fuel as [|fuel IH]; intros x m h y m' h' Hrun Hx Hp Hnd;
    (destruct x as [b|i|f|s|l]; simpl in Hrun;
     [apply ret_Some in Hrun as [[= -> ->] ->]; split; [by apply copy_step_refl|done]..|]);
    (destruct (memo_get l m) as [y0|] eqn:Hget;
     [apply ret_Some in Hrun as [[= -> ->] ->]; split; [by apply copy_step_refl|done]|]).
  - discriminate.
  - apply bind_Some in Hrun as (o1 & h1 & Hload & Hrun).
    unfold load in Hload. destruct (h !! l) as [o|] eqn:Hl; [|done].
    injection Hload as <- <-.
    apply bind_Some in Hrun as (y1 & h2 & Halloc & Hrun).
    unfold alloc in Halloc. injection Halloc as <- <-.
    apply bind_Some in Hrun as ([vs m2] & h3 & Hall & Hrun). simpl in Hrun.
    apply bind_Some in Hrun as ([] & h4 & Hstore & Hret).
    apply ret_Some in Hret as [[= -> ->] ->].
    unfold store in Hstore. case_decide as Hlt; [|done]. injection Hstore as <-.
    simpl in Hx. destruct (lookup_lt_is_Some_2 h0 l Hx) as [o0 Ho].
    pose proof (prefix_lookup_Some _ _ _ _ Ho Hp) as Hl'. rewrite Hl in Hl'.
    injection Hl' as ->.
    assert (Hnd1 : NoDup ((l, VRef (length h)) :: m).*1).
    { simpl. apply NoDup_cons. split; [by apply memo_get_None|done]. }
    destruct (copy_all_copies (deepcopy_rec fuel) IH (children o0) _ _ _ _ _ Hall)
      as [(mnew & -> & Hnd2 & Hp2 & Hdone) Hvs];
      [by eapply closed_children | by apply prefix_app_r | done |].
    split.
    + exists (mnew ++ [(l, VRef (length h))]). split; [by rewrite <- app_assoc|].
      split; [done|]. split.
      * destruct Hp2 as [k ->]. rewrite <- app_assoc.
        rewrite insert_app_r_alt by lia. by apply prefix_app_r.
      * apply Forall_app. split.
        -- eapply Forall_impl; [exact Hdone|]. intros [l1 y1] [Hc Hf].
           rewrite length_app in Hf. simpl in *.
           split; [apply copied_insert; [eapply fresh_le; [|done]; lia | done]|].
           eapply fresh_le; [|done]. lia.
        -- constructor; [|constructor]. simpl. split; [|lia].
           exists (length h), o0, vs. repeat split; try done.
           by rewrite list_lookup_insert_eq.
    + simpl. apply memo_get_app; [done|]. simpl. by rewrite Nat.eqb_refl.
Qed.

End Copies.

Lemma dict_get_zip (R : val → val → Prop) k (d : list (key * val)) vs :
  Forall2 R d.*2 vs →
  match dict_get k d with
  | Some v => ∃ v', dict_get k (zip d.*1 vs) = Some v' ∧ R v v'
  | None => dict_get k (zip d.*1 vs) = None
  end.
Proof.
  revert vs. induction d as [|[k' v] d IH]; intros vs H; simpl in *.
  - by destruct vs.
  - destruct vs as [|v' vs]; [by apply Forall2_cons_nil_inv in H|].
    apply Forall2_cons in H as [Hv Hvs]. simpl.
    destruct (key_eqb k k'); [by exists v'|]. by apply IH.
Qed.

Lemma obj_getitem_with_children (R : val → val → Prop) o vs k :
  Forall2 R (children o) vs →
  match obj_getitem o k with
  | Some v => ∃ v', obj_getitem (with_children o vs) k = Some v' ∧ R v v'
  | None => obj_getitem (with_children o vs) k = None
  end.
Proof.
  intros H. destruct o as [d|xs|t d]; simpl in *; [by apply dict_get_zip| |by apply dict_get_zip].
  destruct k as [s|i]; [done|].
  assert (list_index vs i = list_index xs i) as ->.
  { unfold list_index. by rewrite (Forall2_length _ _ _ H). }
  destruct (list_index xs i) as [j|]; simpl; [|done].
  destruct (xs !! j) as [v|] eqn:Hj.
  - destruct (Forall2_lookup_l _ _ _ _ _ H Hj) as (v' & Hv' & HR). by exists v'.
  - apply lookup_ge_None in Hj. apply lookup_ge_None.
    by rewrite <- (Forall2_length _ _ _ H).
Qed.

(** Reading the copy along a path is reading the original along it. *)
Lemma field_copied h0 h' (m : memo) :
  closed h0 →
  Forall (λ ly, copied h0 h' m ly.1 ly.2) m →
  ∀ path x y, bound h0 x → copy_of m x y →
    match field x path h0 with
    | Some v => ∃ v', field y path h' = Some v' ∧ bound h0 v ∧ copy_of m v v'
    | None => field y path h' = None
    end.
Proof.
  intros Hclosed Hm path. induction path as [|k path IH]; intros x y Hx Hxy; simpl.
  { by exists y. }
  rewrite !getitem_eq. destruct x as [b|i|f|s|l]; simpl in Hxy; try by subst y.
  apply memo_get_elem_of in Hxy. eapply Forall_forall in Hm; [|done]. simpl in Hm.
  destruct Hm as (l' & o & vs & -> & Ho & Hl' & Hvs). simpl in *.
  rewrite Ho, Hl'.
  pose proof (obj_getitem_with_children _ o vs k Hvs) as Hk.
  destruct (obj_getitem o k) as [v|] eqn:Hget.
  - destruct Hk as (v' & -> & Hv). apply IH; [|done].
    apply obj_getitem_child in Hget.
    eapply Forall_forall; [by eapply closed_children|done].
  - by rewrite Hk.
Qed.

Lemma copy_of_copy_val h0 h' (m : memo) v v' :
  Forall (λ ly, copied h0 h' m ly.1 ly.2 ∧ fresh (length h0) ly.2) m →
  copy_of m v v' → copy_val h0 h' v v'.
Proof.
  intros Hm Hv. destruct v as [b|i|f|s|l]; simpl in *; try done.
  apply memo_get_elem_of in Hv. eapply Forall_forall in Hm; [|done]. simpl in Hm.
  destruct Hm as [(l' & o & vs & -> & Ho & Hl' & Hvs) Hf]. simpl in *.
  exists l', o, vs. repeat split; try done.
  eapply Forall2_impl; [done|]. intros c c' Hc Hs. by destruct c.
Qed.

(** What [copy.deepcopy] has returned reads like the original. *)
Lemma deepcopy_reads (h : heap) (x y : val) (h' : heap) :
  closed h → bound h x → deepcopy x h = Some (y, h') →
  h `prefix_of` h' ∧
  (∀ path,
     match field x path h with
     | Some v => ∃ v', field y path h' = Some v' ∧ copy_val h h' v v'
     | None => field y path h' = None
     end) ∧
  (∀ p1 p2 l,
     field x p1 h = Some (VRef l) → field x p2 h = Some (VRef l) →
     field y p1 h' = field y p2 h').
Proof.
  intros Hc Hx Hrun.
  unfold deepcopy in Hrun. apply bind_Some in Hrun as ([y' m] & h1 & Hrun & Hret).
  apply ret_Some in Hret as [Hy' Hh']. simpl in Hy'. subst y h'.
  destruct (deepcopy_rec_copies h Hc _ _ _ _ _ _ _ Hrun Hx) as [(mnew & Hm & _ & Hp & Hdone) Hy];
    [done|apply NoDup_nil_2|].
  rewrite app_nil_r in Hm. subst mnew.
  assert (Hdone' : Forall (λ ly, copied h h1 m ly.1 ly.2) m).
  { eapply Forall_impl; [exact Hdone|]. by intros ? [? _]. }
  split; [done|]. split.
  - intros path. pose proof (field_copied h h1 m Hc Hdone' path x y' Hx Hy) as H.
    destruct (field x path h) as [v|]; [|done].
    destruct H as (v' & Hv' & _ & Hv). exists v'. split; [done|].
    by eapply copy_of_copy_val.
  - intros p1 p2 l H1 H2.
    pose proof (field_copied h h1 m Hc Hdone' p1 x y' Hx Hy) as F1.
    pose proof (field_copied h h1 m Hc Hdone' p2 x y' Hx Hy) as F2.
    rewrite H1 in F1. rewrite H2 in F2.
    destruct F1 as (v1 & -> & _ & E1), F2 as (v2 & -> & _ & E2). simpl in *. congruence.
Qed.

(** X12: [copy.deepcopy] returns on every value of a store without dangling
    references, and the copy reads like the original: along every path the
    original can be read, the copy can, and gives the same scalar or a new
    container of the same kind, keys and scalar items; a path that raises in
    the original raises in the copy; and two paths that lead to one object
    in the original lead to one object in the copy. *)
Theorem deepcopy_copy (h : heap) (x : val) :
  closed h → bound h x →
  ∃ y h',
    deepcopy x h = Some (y, h') ∧
    h `prefix_of` h' ∧
    (∀ path,
       match field x path h with
       | Some v => ∃ v', field y path h' = Some v' ∧ copy_val h h' v v'
       | None => field y path h' = None
       end) ∧
    (∀ p1 p2 l,
       field x p1 h = Some (VRef l) → field x p2 h = Some (VRef l) →
       field y p1 h' = field y p2 h').
Proof.
  intros Hc Hx. destruct (deepcopy_total h x Hc Hx) as (y & h' & Hrun).
  exists y, h'. split; [done|]. by apply deepcopy_reads.
Qed.

(** *** [make_small_config] on any tree *)

Lemma same_items_refl h : same_items h h.
Proof. by intros x path _. Qed.

Lemma same_items_trans h1 h2 h3 : same_items h1 h2 → same_items h2 h3 → same_items h1 h3.
Proof.
  intros H12 H23 x path Hp. destruct (H12 x path Hp) as [<- <-]. by apply H23.
Qed.

Lemma same_items_assign x p s v h h' :
  assign x p s v h h' → KStr s ∈ small_config_keys → same_items h h'.
Proof.
  intros Ha Hs x' path Hp. assert (KStr s ∉ path) as Hk.
  { intros Hin. eapply Forall_forall in Hp; [|done]. by destruct Hp as [_ Hp]. }
  split; [by eapply assign_field | by eapply assign_mapping_at].
Qed.

Lemma same_items_alloc h xs : same_items h (h ++ [OList xs]).
Proof.
  intros x path Hp. apply field_alloc_list. eapply Forall_impl; [done|]. by intros k [? _].
Qed.

Lemma assign_field_list_new x p s m xs h h' :
  assign x p s (VRef m) h h' → KStr s ∉ p → h !! m = Some (OList xs) →
  field_list x (p ++ [KStr s]) h' = Some xs.
Proof.
  intros Ha Hk Hm. unfold field_list. rewrite (assign_field_new _ _ _ _ _ _ Ha Hk).
  destruct Ha as (a & _ & (l & o & o' & -> & Hl & Ho & ->)%setitem_Some).
  destruct (decide (l = m)) as [->|Hne].
  - rewrite Hm in Hl. injection Hl as <-. done.
  - by rewrite list_lookup_insert_ne, Hm.
Qed.

(** What the statements leave in the tree they work on. *)
Lemma small_config_run_fields (b : val) (net_ctrl : bool) (h : heap) (s : val) (h' : heap) :
  small_config_run b net_ctrl h s h' →
  ∃ h1 h2 name,
    deepcopy b h = Some (s, h1) ∧
    field s [KStr "job"; KStr "name"] h1 = Some name ∧
    field s [KStr "job"; KStr "group"] h' = Some (VStr "debug") ∧
    field s [KStr "job"; KStr "name"] h' = Some (VStr (format_val h2 name +:+ "_SMALL")) ∧
    field s [KStr "model"; KStr "net"; KStr "num_blocks"] h' = Some (VInt 2) ∧
    (net_ctrl = true →
       field s [KStr "model"; KStr "net_ctrl"; KStr "num_blocks"] h' = Some (VInt 2) ∧
       field_list s [KStr "model"; KStr "net_ctrl"; KStr "layer_mask"] h'
         = Some [VBool false; VBool true]) ∧
    field s [KStr "model_parallel"; KStr "tensor_model_parallel_size"] h' = Some (VInt 1) ∧
    field s [KStr "model_parallel"; KStr "sequence_parallel"] h' = Some (VBool false) ∧
    field s [KStr "checkpoint"; KStr "load_path"] h' = Some (VStr "") ∧
    field s [KStr "model"; KStr "base_load_from"; KStr "load_path"] h' = Some (VStr "").
Proof.
  intros (h1 & h2 & h3 & h4 & h5 & h6 & h7 & h8 & name & text & Hcopy & H1 & Hname & ->
          & H2 & H3 & H4 & H5 & H6 & H7 & H8).
  exists h1, h2, name. split; [done|].
  split; [by rewrite <- (assign_field _ _ _ _ _ _ _ s H1) by solve_notin|].
  assert (∀ path r, KStr "num_blocks" ∉ path → KStr "layer_mask" ∉ path →
            field s path h4 = Some r → field s path h5 = Some r) as H45.
  { intros path r Hn Hm Hr. destruct net_ctrl; [|by subst h5].
    destruct H4 as (h4' & H4a & H4b).
    rewrite (assign_field _ _ _ _ _ _ path s H4b) by done.
    apply (field_prefix h4'); [by apply prefix_app_r|].
    by rewrite (assign_field _ _ _ _ _ _ path s H4a). }
  split.
  { rewrite (assign_field _ _ _ _ _ _ _ s H8), (assign_field _ _ _ _ _ _ _ s H7),
      (assign_field _ _ _ _ _ _ _ s H6), (assign_field _ _ _ _ _ _ _ s H5) by solve_notin.
    apply H45; [solve_notin..|].
    rewrite (assign_field _ _ _ _ _ _ _ s H3), (assign_field _ _ _ _ _ _ _ s H2)
      by solve_notin.
    apply (assign_field_new _ _ _ _ _ _ H1). solve_notin. }
  split.
  { rewrite (assign_field _ _ _ _ _ _ _ s H8), (assign_field _ _ _ _ _ _ _ s H7),
      (assign_field _ _ _ _ _ _ _ s H6), (assign_field _ _ _ _ _ _ _ s H5) by solve_notin.
    apply H45; [solve_notin..|].
    rewrite (assign_field _ _ _ _ _ _ _ s H3) by solve_notin.
    apply (assign_field_new _ _ _ _ _ _ H2). solve_notin. }
  split.
  { rewrite (assign_field _ _ _ _ _ _ _ s H8), (assign_field _ _ _ _ _ _ _ s H7),
      (assign_field _ _ _ _ _ _ _ s H6), (assign_field _ _ _ _ _ _ _ s H5) by solve_notin.
    pose proof (assign_field_new _ _ _ _ _ _ H3 ltac:(solve_notin)) as Hnet.
    destruct net_ctrl; [|by subst h5].
    destruct H4 as (h4' & H4a & H4b).
    rewrite (assign_field _ _ _ _ _ _ _ s H4b) by solve_notin.
    apply (field_prefix h4'); [by apply prefix_app_r|].
    apply (assign_field_keep _ _ _ _ _ _ [KStr "model"; KStr "net"] s H4a); [solve_notin|done]. }
  split.
  { intros ->. destruct H4 as (h4' & H4a & H4b). split.
    - rewrite (assign_field _ _ _ _ _ _ _ s H8), (assign_field _ _ _ _ _ _ _ s H7),
        (assign_field _ _ _ _ _ _ _ s H6), (assign_field _ _ _ _ _ _ _ s H5),
        (assign_field _ _ _ _ _ _ _ s H4b) by solve_notin.
      apply (field_prefix h4'); [by apply prefix_app_r|].
      apply (assign_field_new _ _ _ _ _ _ H4a). solve_notin.
    - rewrite (assign_field_list _ _ _ _ _ _ _ s H8), (assign_field_list _ _ _ _ _ _ _ s H7),
        (assign_field_list _ _ _ _ _ _ _ s H6), (assign_field_list _ _ _ _ _ _ _ s H5)
        by solve_notin.
      apply (assign_field_list_new _ _ _ _ _ _ _ H4b); [solve_notin|].
      by rewrite lookup_app_r, Nat.sub_diag. }
  split.
  { rewrite (assign_field _ _ _ _ _ _ _ s H8), (assign_field _ _ _ _ _ _ _ s H7),
      (assign_field _ _ _ _ _ _ _ s H6) by solve_notin.
    apply (assign_field_new _ _ _ _ _ _ H5). solve_notin. }
  split.
  { rewrite (assign_field _ _ _ _ _ _ _ s H8), (assign_field _ _ _ _ _ _ _ s H7) by solve_notin.
    apply (assign_field_new _ _ _ _ _ _ H6). solve_notin. }
  split.
  { apply (assign_field_keep _ _ _ _ _ _ [KStr "checkpoint"] s H8); [solve_notin|].
    apply (assign_field_new _ _ _ _ _ _ H7). solve_notin. }
  apply (assign_field_new _ _ _ _ _ _ H8). solve_notin.
Qed.

(** What the statements need in the tree they work on. *)
Lemma small_config_run_ok (b : val) (net_ctrl : bool) (h : heap) (s : val) (h' : heap) :
  small_config_run b net_ctrl h s h' →
  ∃ h1, deepcopy b h = Some (s, h1) ∧ small_config_ok s net_ctrl h1 = true.
Proof.
  intros (h1 & h2 & h3 & h4 & h5 & h6 & h7 & h8 & name & text & Hcopy & H1 & Hname & Htext
          & H2 & H3 & H4 & H5 & H6 & H7 & H8).
  exists h1. split; [done|].
  pose proof (same_items_assign _ _ _ _ _ _ H1 ltac:(solve_in)) as S2.
  pose proof (same_items_trans _ _ _ S2 (same_items_assign _ _ _ _ _ _ H2 ltac:(solve_in))) as S3.
  pose proof (same_items_trans _ _ _ S3 (same_items_assign _ _ _ _ _ _ H3 ltac:(solve_in))) as S4.
  assert (same_items h1 h5 ∧
          (if net_ctrl then mapping_at s [KStr "model"; KStr "net_ctrl"] h1 else true) = true)
    as [S5 Hctrl].
  { destruct net_ctrl; [|by subst h5]. destruct H4 as (h4' & H4a & H4b).
    split.
    - eapply same_items_trans; [exact S4|].
      eapply same_items_trans; [exact (same_items_assign _ _ _ _ _ _ H4a ltac:(solve_in))|].
      eapply same_items_trans; [apply same_items_alloc|].
      exact (same_items_assign _ _ _ _ _ _ H4b ltac:(solve_in)).
    - destruct (S4 s [KStr "model"; KStr "net_ctrl"] ltac:(str_path)) as [_ <-].
      by eapply assign_mapping. }
  pose proof (same_items_trans _ _ _ S5 (same_items_assign _ _ _ _ _ _ H5 ltac:(solve_in))) as S6.
  pose proof (same_items_trans _ _ _ S6 (same_items_assign _ _ _ _ _ _ H6 ltac:(solve_in))) as S7.
  pose proof (same_items_trans _ _ _ S7 (same_items_assign _ _ _ _ _ _ H7 ltac:(solve_in))) as S8.
  unfold small_config_ok.
  rewrite (assign_mapping _ _ _ _ _ _ H1).
  rewrite <- (assign_field _ _ _ _ _ _ [KStr "job"; KStr "name"] s H1), Hname by solve_notin.
  destruct (S3 s [KStr "model"; KStr "net"] ltac:(str_path)) as [_ <-].
  rewrite (assign_mapping _ _ _ _ _ _ H3), Hctrl.
  destruct (S5 s [KStr "model_parallel"] ltac:(str_path)) as [_ <-].
  rewrite (assign_mapping _ _ _ _ _ _ H5).
  destruct (S7 s [KStr "checkpoint"] ltac:(str_path)) as [_ <-].
  rewrite (assign_mapping _ _ _ _ _ _ H7).
  destruct (S8 s [KStr "model"; KStr "base_load_from"] ltac:(str_path)) as [_ <-].
  rewrite (assign_mapping _ _ _ _ _ _ H8).
  by rewrite bool_decide_true.
Qed.

(** With what they need, the statements run to the end. *)
Lemma small_config_run_total (b : val) (net_ctrl : bool) (h : heap) (s : val) (h1 : heap)
    (name : val) :
  deepcopy b h = Some (s, h1) →
  small_config_ok s net_ctrl h1 = true →
  field s [KStr "job"; KStr "name"] h1 = Some name →
  ∃ h', small_config_run b net_ctrl h s h'.
Proof.
  intros Hcopy Hok Hname. unfold small_config_ok in Hok.
  repeat (apply andb_true_iff in Hok as [Hok ?]).
  rename Hok into Mjob.
  match goal with H : mapping_at s [KStr "model"; KStr "net"] h1 = true |- _ =>
    rename H into Mnet end.
  match goal with H : mapping_at s [KStr "model_parallel"] h1 = true |- _ =>
    rename H into Mmp end.
  match goal with H : mapping_at s [KStr "checkpoint"] h1 = true |- _ =>
    rename H into Mckpt end.
  match goal with H : mapping_at s [KStr "model"; KStr "base_load_from"] h1 = true |- _ =>
    rename H into Mbase end.
  match goal with H : (if net_ctrl then _ else true) = true |- _ => rename H into Mctrl end.
  destruct (assign_total s [KStr "job"] "group" (VStr "debug") h1 Mjob) as [h2 R1].
  pose proof (same_items_assign _ _ _ _ _ _ R1 ltac:(solve_in)) as S2.
  assert (Mjob2 : mapping_at s [KStr "job"] h2 = true).
  { by destruct (S2 s [KStr "job"] ltac:(str_path)) as [_ ->]. }
  destruct (assign_total s [KStr "job"] "name" (VStr (format_val h2 name +:+ "_SMALL")) h2 Mjob2)
    as [h3 R2].
  pose proof (same_items_trans _ _ _ S2 (same_items_assign _ _ _ _ _ _ R2 ltac:(solve_in))) as S3.
  assert (Mnet3 : mapping_at s [KStr "model"; KStr "net"] h3 = true).
  { by destruct (S3 s [KStr "model"; KStr "net"] ltac:(str_path)) as [_ ->]. }
  destruct (assign_total s [KStr "model"; KStr "net"] "num_blocks" (VInt 2) h3 Mnet3)
    as [h4 R3].
  pose proof (same_items_trans _ _ _ S3 (same_items_assign _ _ _ _ _ _ R3 ltac:(solve_in))) as S4.
  assert (∃ h5, same_items h1 h5 ∧
            if net_ctrl then
              ∃ h4',
                assign s [KStr "model"; KStr "net_ctrl"] "num_blocks" (VInt 2) h4 h4' ∧
                assign s [KStr "model"; KStr "net_ctrl"] "layer_mask" (VRef (length h4'))
                  (h4' ++ [OList [VBool false; VBool true]]) h5
            else h5 = h4) as (h5 & S5 & R4).
  { destruct net_ctrl; [|by exists h4].
    assert (Mctrl4 : mapping_at s [KStr "model"; KStr "net_ctrl"] h4 = true).
    { by destruct (S4 s [KStr "model"; KStr "net_ctrl"] ltac:(str_path)) as [_ ->]. }
    destruct (assign_total s [KStr "model"; KStr "net_ctrl"] "num_blocks" (VInt 2) h4 Mctrl4)
      as [h4' R4a].
    pose proof (same_items_trans _ _ _ S4
                  (same_items_assign _ _ _ _ _ _ R4a ltac:(solve_in))) as S4'.
    pose proof (same_items_trans _ _ _ S4'
                  (same_items_alloc h4' [VBool false; VBool true])) as S4''.
    assert (Mctrl4' : mapping_at s [KStr "model"; KStr "net_ctrl"]
                        (h4' ++ [OList [VBool false; VBool true]]) = true).
    { by destruct (S4'' s [KStr "model"; KStr "net_ctrl"] ltac:(str_path)) as [_ ->]. }
    destruct (assign_total s [KStr "model"; KStr "net_ctrl"] "layer_mask" (VRef (length h4'))
                _ Mctrl4') as [h5 R4b].
    exists h5. split; [|by exists h4'].
    exact (same_items_trans _ _ _ S4'' (same_items_assign _ _ _ _ _ _ R4b ltac:(solve_in))). }
  assert (Mmp5 : mapping_at s [KStr "model_parallel"] h5 = true).
  { by destruct (S5 s [KStr "model_parallel"] ltac:(str_path)) as [_ ->]. }
  destruct (assign_total s [KStr "model_parallel"] "tensor_model_parallel_size" (VInt 1)
              h5 Mmp5) as [h6 R5].
  pose proof (same_items_trans _ _ _ S5 (same_items_assign _ _ _ _ _ _ R5 ltac:(solve_in))) as S6.
  assert (Mmp6 : mapping_at s [KStr "model_parallel"] h6 = true).
  { by destruct (S6 s [KStr "model_parallel"] ltac:(str_path)) as [_ ->]. }
  destruct (assign_total s [KStr "model_parallel"] "sequence_parallel" (VBool false)
              h6 Mmp6) as [h7 R6].
  pose proof (same_items_trans _ _ _ S6 (same_items_assign _ _ _ _ _ _ R6 ltac:(solve_in))) as S7.
  assert (Mckpt7 : mapping_at s [KStr "checkpoint"] h7 = true).
  { by destruct (S7 s [KStr "checkpoint"] ltac:(str_path)) as [_ ->]. }
  destruct (assign_total s [KStr "checkpoint"] "load_path" (VStr "") h7 Mckpt7) as [h8 R7].
  pose proof (same_items_trans _ _ _ S7 (same_items_assign _ _ _ _ _ _ R7 ltac:(solve_in))) as S8.
  assert (Mbase8 : mapping_at s [KStr "model"; KStr "base_load_from"] h8 = true).
  { by destruct (S8 s [KStr "model"; KStr "base_load_from"] ltac:(str_path)) as [_ ->]. }
  destruct (assign_total s [KStr "model"; KStr "base_load_from"] "load_path" (VStr "")
              h8 Mbase8) as [h9 R8].
  exists h9, h1, h2, h3, h4, h5, h6, h7, h8, name, (format_val h2 name).
  repeat (split; [done|]). split; [|done].
  by rewrite (assign_field _ _ _ _ _ _ [KStr "job"; KStr "name"] s R1) by solve_notin.
Qed.

(** The copy has what [make_small_config] needs if and only if the original
    has. *)
Lemma deepcopy_mapping_at (h : heap) (x y : val) (h' : heap) (path : list key) :
  closed h → bound h x → deepcopy x h = Some (y, h') →
  mapping_at y path h' = mapping_at x path h ∧
  (is_Some (field y path h') ↔ is_Some (field x path h)) ∧
  (∀ v, field x path h = Some v → scalar v → field y path h' = Some v).
Proof.
  intros Hc Hx Hrun. destruct (deepcopy_reads h x y h' Hc Hx Hrun) as (Hp & Hread & _).
  specialize (Hread path). unfold mapping_at.
  destruct (field x path h) as [v|]; [|rewrite Hread; split; [done|]; split; [|done]].
  - destruct Hread as (v' & -> & Hv). split; [|split; [by split; eauto|]].
    + destruct v as [| | | |l]; simpl in Hv; try by subst v'.
      destruct Hv as (l' & o & vs & -> & _ & -> & -> & _). by destruct o.
    + intros v0 [= <-] Hs. destruct v; simpl in *; by subst.
  - split; by intros [? ?].
Qed.

Lemma deepcopy_small_config_ok (h : heap) (b s : val) (h1 : heap) (net_ctrl : bool) :
  closed h → bound h b → deepcopy b h = Some (s, h1) →
  small_config_ok s net_ctrl h1 = small_config_ok b net_ctrl h.
Proof.
  intros Hc Hb Hrun. unfold small_config_ok.
  destruct (deepcopy_mapping_at h b s h1 [KStr "job"] Hc Hb Hrun) as [-> _].
  destruct (deepcopy_mapping_at h b s h1 [KStr "model"; KStr "net"] Hc Hb Hrun) as [-> _].
  destruct (deepcopy_mapping_at h b s h1 [KStr "model"; KStr "net_ctrl"] Hc Hb Hrun) as [-> _].
  destruct (deepcopy_mapping_at h b s h1 [KStr "model_parallel"] Hc Hb Hrun) as [-> _].
  destruct (deepcopy_mapping_at h b s h1 [KStr "checkpoint"] Hc Hb Hrun) as [-> _].
  destruct (deepcopy_mapping_at h b s h1 [KStr "model"; KStr "base_load_from"] Hc Hb Hrun)
    as [-> _].
  destruct (deepcopy_mapping_at h b s h1 [KStr "job"; KStr "name"] Hc Hb Hrun) as (_ & Hn & _).
  by rewrite (bool_decide_ext _ _ Hn).
Qed.

(** C4: [make_small_config] does not change its input, whatever tree b it
    is given. On a store without dangling references it returns on every
    tree that has the items it works on, whatever is in them: a job.name of
    any kind is formatted. And whenever it returns s on a store h and leaves
    the store h', every object of h is in h' as it was, so every field and
    every list of the tree b reads in h' as it read in h; no object of the
    returned tree s existed in h, and overwriting any object of s leaves
    every object of h as it was. *)
Theorem make_small_config_input_unchanged (b : val) (net_ctrl : bool) (h : heap) :
  (closed h → bound h b → small_config_ok b net_ctrl h = true →
   ∃ s h', make_small_config b net_ctrl h = Some (s, h')) ∧
  ∀ s h', make_small_config b net_ctrl h = Some (s, h') →
    (∀ l o, h !! l = Some o → h' !! l = Some o) ∧
    (∀ path v, field b path h = Some v → field b path h' = Some v) ∧
    (∀ path xs, field_list b path h = Some xs → field_list b path h' = Some xs) ∧
    (∀ l, reach h' s l → length h ≤ l) ∧
    (∀ l o, reach h' s l → ∀ l0 o0, h !! l0 = Some o0 → <[l:=o]> h' !! l0 = Some o0).
Proof.
  split.
  { intros Hc Hb Hok.
    destruct (deepcopy_total h b Hc Hb) as (s & h1 & Hcopy).
    rewrite <- (deepcopy_small_config_ok h b s h1 net_ctrl Hc Hb Hcopy) in Hok.
    assert (is_Some (field s [KStr "job"; KStr "name"] h1)) as [name Hname].
    { pose proof Hok as Hok'. unfold small_config_ok in Hok'.
      repeat (apply andb_true_iff in Hok' as [Hok' ?]).
      match goal with
      | H : bool_decide (is_Some _) = true |- _ => exact (bool_decide_eq_true_1 _ H)
      end. }
    destruct (small_config_run_total b net_ctrl h s h1 name Hcopy Hok Hname) as [h' Hrun].
    exists s, h'. by apply make_small_config_iff. }
  intros s h' Hrun.
  destruct (hoare_make_small_config h b net_ctrl h s h' eq_refl Hrun) as [Hs [Hp Hc]].
  assert (∀ l, reach h' s l → length h ≤ l) as Hreach.
  { intros l. by apply reach_fresh. }
  repeat apply conj.
  - intros l o Hl. by apply (prefix_lookup_Some _ _ _ _ Hl).
  - intros path v. by apply field_prefix.
  - intros path xs. by apply field_list_prefix.
  - exact Hreach.
  - intros l o Hl l0 o0 Hl0. apply Hreach in Hl.
    pose proof (lookup_lt_Some _ _ _ Hl0).
    rewrite list_lookup_insert_ne by lia. by apply (prefix_lookup_Some _ _ _ _ Hl0).
Qed.

(** X13: what [make_small_config] assigns is there when it returns, for
    every tree and every store, whatever parts of the tree are shared:
    job.group is "debug", job.name ends in "_SMALL", model.net.num_blocks is
    2, with net_ctrl also model.net_ctrl.num_blocks is 2 and
    model.net_ctrl.layer_mask is [False, True], model_parallel has size 1 and
    no sequence parallelism, and both load paths are empty. *)
Theorem make_small_config_assigns (b : val) (net_ctrl : bool) (h : heap)
    (s : val) (h' : heap) :
  make_small_config b net_ctrl h = Some (s, h') →
  field s [KStr "job"; KStr "group"] h' = Some (VStr "debug") ∧
  (∃ text, field s [KStr "job"; KStr "name"] h' = Some (VStr (text +:+ "_SMALL"))) ∧
  field s [KStr "model"; KStr "net"; KStr "num_blocks"] h' = Some (VInt 2) ∧
  (net_ctrl = true →
     field s [KStr "model"; KStr "net_ctrl"; KStr "num_blocks"] h' = Some (VInt 2) ∧
     field_list s [KStr "model"; KStr "net_ctrl"; KStr "layer_mask"] h'
       = Some [VBool false; VBool true]) ∧
  field s [KStr "model_parallel"; KStr "tensor_model_parallel_size"] h' = Some (VInt 1) ∧
  field s [KStr "model_parallel"; KStr "sequence_parallel"] h' = Some (VBool false) ∧
  field s [KStr "checkpoint"; KStr "load_path"] h' = Some (VStr "") ∧
  field s [KStr "model"; KStr "base_load_from"; KStr "load_path"] h' = Some (VStr "").
Proof.
  intros Hrun%make_small_config_iff.
  destruct (small_config_run_fields _ _ _ _ _ Hrun)
    as (h1 & h2 & name & _ & _ & Hg & Hn & Hrest).
  split; [done|]. split; [by eexists|]. done.
Qed.

(** X14: [make_small_config] returns on every tree that has the items it
    works on (on a store without dangling references), whatever job.name
    is: the copy is made, no assignment raises, and job.name of the result
    is a text followed by "_SMALL"; for a job.name that is a [str], an
    [int], a [bool] or a [float], the text is the text of that job.name. *)
Theorem make_small_config_returns (b : val) (net_ctrl : bool) (h : heap) (name : val) :
  closed h → bound h b →
  small_config_ok b net_ctrl h = true →
  field b [KStr "job"; KStr "name"] h = Some name →
  ∃ s h' text,
    make_small_config b net_ctrl h = Some (s, h') ∧
    field s [KStr "job"; KStr "name"] h' = Some (VStr (text +:+ "_SMALL")) ∧
    (scalar name → text = format_val h name).
Proof.
  intros Hc Hb Hok Hname.
  destruct (deepcopy_total h b Hc Hb) as (s & h1 & Hcopy).
  rewrite <- (deepcopy_small_config_ok h b s h1 net_ctrl Hc Hb Hcopy) in Hok.
  destruct (deepcopy_mapping_at h b s h1 [KStr "job"; KStr "name"] Hc Hb Hcopy)
    as (_ & Hsome & Hsame).
  destruct (proj2 Hsome (mk_is_Some _ _ Hname)) as [name1 Hname1].
  destruct (small_config_run_total b net_ctrl h s h1 name1 Hcopy Hok Hname1) as [h' Hrun].
  destruct (small_config_run_fields _ _ _ _ _ Hrun)
    as (h1' & h2 & name' & Hcopy' & Hname' & _ & Hn & _).
  rewrite Hcopy in Hcopy'. injection Hcopy' as <-.
  rewrite Hname1 in Hname'. injection Hname' as <-.
  exists s, h', (format_val h2 name1). split; [by apply make_small_config_iff|].
  split; [done|]. intros Hs.
  rewrite (Hsame name Hname Hs) in Hname1. injection Hname1 as <-.
  by apply format_val_scalar.
Qed.

(** X15: [make_small_config] raises on a tree that lacks one of the items it
    works on: job (with a name), model.net, with net_ctrl model.net_ctrl,
    model_parallel, checkpoint or model.base_load_from, each a dict or a
    node. *)
Theorem make_small_config_raises (b : val) (net_ctrl : bool) (h : heap) :
  closed h → bound h b →
  small_config_ok b net_ctrl h = false →
  make_small_config b net_ctrl h = None.
Proof.
  intros Hc Hb Hok.
  destruct (make_small_config b net_ctrl h) as [[s h']|] eqn:Hrun; [|done].
  apply make_small_config_iff, small_config_run_ok in Hrun as (h1 & Hcopy & Hok').
  rewrite (deepcopy_small_config_ok h b s h1 net_ctrl Hc Hb Hcopy) in Hok'. congruence.
Qed.

Lemma not_small_config_key (k : key) (path : list key) :
  Forall (λ k, k ∉ small_config_keys) path → k ∈ small_config_keys → k ∉ path.
Proof. intros Hp Hk Hin. eapply Forall_forall in Hp; [|done]. done. Qed.

(** X16: [make_small_config] changes nothing else: every scalar and every
    list of scalars that can be read in the base along a path without one of
    the keys assigned to (group, name, num_blocks, layer_mask,
    tensor_model_parallel_size, sequence_parallel, load_path) reads the same
    in the result. *)
Theorem make_small_config_elsewhere (b : val) (net_ctrl : bool) (h : heap)
    (s : val) (h' : heap) (path : list key) :
  closed h → bound h b →
  make_small_config b net_ctrl h = Some (s, h') →
  Forall (λ k, k ∉ small_config_keys) path →
  (∀ v, field b path h = Some v → scalar v → field s path h' = Some v) ∧
  (∀ xs, field_list b path h = Some xs → Forall scalar xs → field_list s path h' = Some xs).
Proof.
  intros Hc Hb Hrun%make_small_config_iff Hpath.
  destruct Hrun as (h1 & h2 & h3 & h4 & h5 & h6 & h7 & h8 & name & text & Hcopy & H1 & Hname
                    & Htext & H2 & H3 & H4 & H5 & H6 & H7 & H8).
  assert (∀ k, k ∈ small_config_keys → k ∉ path) as Hk.
  { intros k. by apply not_small_config_key. }
  assert (field s path h' = field s path h5 ∧ field_list s path h' = field_list s path h5)
    as [E1 E2].
  { split.
    - by rewrite (assign_field _ _ _ _ _ _ path s H8), (assign_field _ _ _ _ _ _ path s H7),
        (assign_field _ _ _ _ _ _ path s H6), (assign_field _ _ _ _ _ _ path s H5)
        by (apply Hk; solve_in).
    - by rewrite (assign_field_list _ _ _ _ _ _ path s H8),
        (assign_field_list _ _ _ _ _ _ path s H7), (assign_field_list _ _ _ _ _ _ path s H6),
        (assign_field_list _ _ _ _ _ _ path s H5) by (apply Hk; solve_in). }
  assert (field s path h4 = field s path h1 ∧ field_list s path h4 = field_list s path h1)
    as [E3 E4].
  { split.
    - by rewrite (assign_field _ _ _ _ _ _ path s H3), (assign_field _ _ _ _ _ _ path s H2),
        (assign_field _ _ _ _ _ _ path s H1) by (apply Hk; solve_in).
    - by rewrite (assign_field_list _ _ _ _ _ _ path s H3),
        (assign_field_list _ _ _ _ _ _ path s H2), (assign_field_list _ _ _ _ _ _ path s H1)
        by (apply Hk; solve_in). }
  assert ((∀ r, field s path h4 = Some r → field s path h5 = Some r) ∧
          (∀ xs, field_list s path h4 = Some xs → field_list s path h5 = Some xs))
    as [F1 F2].
  { destruct net_ctrl; [|by subst h5]. destruct H4 as (h4' & H4a & H4b). split.
    - intros r Hr. rewrite (assign_field _ _ _ _ _ _ path s H4b) by (apply Hk; solve_in).
      apply (field_prefix h4'); [by apply prefix_app_r|].
      by rewrite (assign_field _ _ _ _ _ _ path s H4a) by (apply Hk; solve_in).
    - intros xs Hr. rewrite (assign_field_list _ _ _ _ _ _ path s H4b) by (apply Hk; solve_in).
      apply (field_list_prefix h4'); [by apply prefix_app_r|].
      by rewrite (assign_field_list _ _ _ _ _ _ path s H4a) by (apply Hk; solve_in). }
  destruct (deepcopy_reads h b s h1 Hc Hb Hcopy) as (Hp & Hread & _).
  specialize (Hread path). split.
  - intros v Hv Hs. rewrite E1. apply F1. rewrite E3.
    rewrite Hv in Hread. destruct Hread as (v' & -> & Hv'). destruct v; simpl in *; by subst.
  - intros xs Hxs Hs. rewrite E2. apply F2. rewrite E4.
    unfold field_list in *. destruct (field b path h) as [[| | | |l]|]; try done.
    destruct Hread as (v' & -> & (l' & o & vs & -> & _ & Ho & -> & Hvs)).
    rewrite Ho in Hxs. destruct o as [?|ys|? ?]; try done. injection Hxs as ->. simpl in *.
    f_equal. clear -Hvs Hs. induction Hvs as [|c c' xs vs Hc _ IH]; [done|].
    inversion_clear Hs. rewrite Hc by done. f_equal. by apply IH.
Qed.

(** *** Where the arguments go *)

Lemma moves_set_path h0 x path k v :
  moves id h0 (set_path (shift_val (length h0) x) path k (shift_val (length h0) v))
    (set_path x path k v).
Proof.
  revert x. induction path as [|k1 path IH]; intros x; simpl.
  - apply moves_setitem.
  - eapply moves_bind; [apply moves_getitem|]. intros a. apply IH.
Qed.

Lemma moves_for_each_unit {A} h0 (body' body : A → unit → M unit) xs :
  (∀ i, moves id h0 (body' i ()) (body i ())) →
  moves id h0 (for_each xs body' ()) (for_each xs body ()).
Proof.
  intros Hb. induction xs as [|x xs IH]; simpl; [apply (moves_ret h0 id ())|].
  eapply moves_bind; [apply Hb|]. by intros [].
Qed.

Lemma moves_with_arguments h0 b hint_key ncb path t2v num_frames :
  moves id h0 (with_arguments (shift_val (length h0) b) hint_key ncb path t2v num_frames)
    (with_arguments b hint_key ncb path t2v num_frames).
Proof.
  unfold with_arguments.
  destruct (job_name_project hint_key ncb path t2v num_frames) as [job_name job_project].
  cbv zeta.
  do 4 (eapply moves_bind; [exact (moves_set_path h0 b _ _ _)|intros []]).
  eapply moves_bind.
  { apply moves_for_each_unit. intros p.
    eapply moves_bind; [exact (moves_set_path h0 b _ _ _)|intros []].
    exact (moves_set_path h0 b _ _ _). }
  intros [].
  do 3 (eapply moves_bind; [exact (moves_set_path h0 b _ _ _)|intros []]).
  apply moves_for_each_unit. intros i. exact (moves_set_path h0 b _ _ _).
Qed.

Lemma fresh_from_closed n h : fresh_from n h = true → fresh_closed n h.
Proof.
  unfold fresh_from. rewrite forallb_forall. intros H l o Hl Ho.
  assert (Hin : In o (drop n h)).
  { apply list_elem_of_In, (list_elem_of_lookup_2 _ (l - n)).
    rewrite lookup_drop. by replace (n + (l - n)) with l by lia. }
  specialize (H o Hin). rewrite forallb_forall in H.
  apply Forall_forall. intros v Hv%list_elem_of_In. specialize (H v Hv).
  destruct v; simpl; try done. by apply Nat.leb_le.
Qed.

Lemma fresh_shift_add n k v : fresh k v → fresh (n + k) (shift_val n v).
Proof. destruct v; simpl; try done. lia. Qed.

Lemma rebase_fresh_closed_add h0 h k :
  fresh_closed k h → fresh_closed (length h0 + k) (rebase h0 h).
Proof.
  intros Hc l o Hl Ho. replace l with (length h0 + (l - length h0)) in Ho by lia.
  rewrite rebase_lookup in Ho. destruct (h !! (l - length h0)) as [o'|] eqn:Ho'; [|done].
  injection Ho as <-. rewrite children_shift, Forall_fmap.
  eapply Forall_impl; [apply (Hc (l - length h0) o'); [lia|done]|].
  intros v Hv. by apply fresh_shift_add.
Qed.

Lemma rebase_agree h0 h1 h2 k l :
  drop k h1 = drop k h2 → length h0 + k ≤ l → rebase h0 h1 !! l = rebase h0 h2 !! l.
Proof.
  intros Hd Hl. replace l with (length h0 + (k + (l - length h0 - k))) by lia.
  by rewrite !rebase_lookup, <- !lookup_drop, Hd.
Qed.

(** Two stores with the same objects in a tree read the same along every
    path into the tree. *)
Lemma field_agree h h' x path :
  (∀ l, reach h x l → h !! l = h' !! l) → field x path h = field x path h'.
Proof.
  revert x. induction path as [|k path IH]; intros x Hx; simpl; [done|].
  rewrite !getitem_eq. destruct x as [| | | |l]; try done.
  rewrite <- (Hx l (reach_here h l)). destruct (h !! l) as [o|] eqn:Ho; [|done].
  destruct (obj_getitem o k) as [v|] eqn:Hk; [|done].
  apply IH. intros l' Hl'. apply Hx.
  eapply reach_step; [done | by eapply obj_getitem_child | done].
Qed.

Lemma make_ctrlnet_config_depends_empty hk1 ncb1 p1 t1 n1 hk2 ncb2 p2 t2 n2 :
  ∃ b h h',
    (let* b := make_ctrlnet_config hk1 ncb1 p1 t1 n1 in
     with_arguments b hk2 ncb2 p2 t2 n2;; ret b) [] = Some (b, h) ∧
    make_ctrlnet_config hk2 ncb2 p2 t2 n2 [] = Some (b, h') ∧
    drop 3 h = drop 3 h' ∧
    fresh_from 3 h = true ∧
    fresh 3 b.
Proof.
  cbv beta delta [make_ctrlnet_config with_arguments].
  destruct (job_name_project hk1 ncb1 p1 t1 n1) as [name1 project1].
  destruct (job_name_project hk2 ncb2 p2 t2 n2) as [name2 project2].
  pose (f1 := λ i : Z, if (i >=? ncb1)%Z then true else false).
  pose (f2 := λ i : Z, if (i >=? ncb2)%Z then true else false).
  change (λ i : Z, if (i >=? ncb2)%Z then true else false) with f2.
  unfold ctrl_config.
  generalize base_load_path as bp; intros bp.
  generalize ((n1 - 1) / 8 + 1)%Z as latent1; intros latent1.
  generalize ((n2 - 1) / 8 + 1)%Z as latent2; intros latent2.
  change (λ i : Z, bool_ (if (i >=? ncb1)%Z then true else false))
    with (λ i : Z, bool_ (f1 i)).
  change (λ i : Z, bool_ (if (i >=? ncb2)%Z then true else false))
    with (λ i : Z, bool_ (f2 i)).
  clearbody f1 f2.
  eexists _, _, _. split; [vm_compute; reflexivity|]. split; [vm_compute; reflexivity|].
  split; [vm_compute; reflexivity|]. split; [vm_compute; reflexivity|]. vm_compute. lia.
Qed.

(** X17: the arguments of [make_ctrlnet_config] enter the tree at these
    places and nowhere else: job.project and job.name, checkpoint.load_path,
    first_random_n_num_condition_t_max, the num_frames and the hint_key of
    each of the four dataset nodes, the hint_key override of the defaults,
    latent_shape[1], the pixel_chunk_duration of the tokenizer and the
    entries of the layer mask. The tree for one list of arguments, with
    these items assigned the values they have for a second list, is the tree
    for the second list: the same root, the same object at every address of
    the tree, and so the same value along every path. *)
Theorem make_ctrlnet_config_depends (h0 : heap) (hk1 : string) (ncb1 : Z) (p1 : string)
    (t1 : bool) (n1 : Z) (hk2 : string) (ncb2 : Z) (p2 : string) (t2 : bool) (n2 : Z) :
  ∃ b h h',
    (let* b := make_ctrlnet_config hk1 ncb1 p1 t1 n1 in
     with_arguments b hk2 ncb2 p2 t2 n2;; ret b) h0 = Some (b, h) ∧
    make_ctrlnet_config hk2 ncb2 p2 t2 n2 h0 = Some (b, h') ∧
    (∀ l, reach h b l → h !! l = h' !! l) ∧
    (∀ path, field b path h = field b path h').
Proof.
  destruct (make_ctrlnet_config_depends_empty hk1 ncb1 p1 t1 n1 hk2 ncb2 p2 t2 n2)
    as (b & h & h' & Hl & Hr & Hd & Hc & Hb).
  exists (shift_val (length h0) b), (rebase h0 h), (rebase h0 h').
  assert (moves (shift_val (length h0)) h0
            (let* b := make_ctrlnet_config hk1 ncb1 p1 t1 n1 in
             with_arguments b hk2 ncb2 p2 t2 n2;; ret b)
            (let* b := make_ctrlnet_config hk1 ncb1 p1 t1 n1 in
             with_arguments b hk2 ncb2 p2 t2 n2;; ret b)) as Hm.
  { eapply moves_bind; [apply moves_make_ctrlnet_config|]. intros b0.
    eapply moves_bind; [apply moves_with_arguments|]. intros []. apply moves_ret. }
  split; [rewrite <- (rebase_nil h0) at 1; exact (Hm [] b h Hl)|].
  split; [rewrite <- (rebase_nil h0) at 1; by apply moves_make_ctrlnet_config|].
  assert (∀ l, reach (rebase h0 h) (shift_val (length h0) b) l →
               rebase h0 h !! l = rebase h0 h' !! l) as Hobj.
  { intros l Hreach. apply (rebase_agree h0 h h' 3 l Hd).
    eapply reach_fresh; [|by apply fresh_shift_add|exact Hreach].
    by apply rebase_fresh_closed_add, fresh_from_closed. }
  split; [exact Hobj | intros path; by apply field_agree].
Qed.

(** *** The loop on any store *)

Lemma make_ctrlnet_config_run h0 hint_key ncb path t2v num_frames :
  ∃ b h,
    make_ctrlnet_config hint_key ncb path t2v num_frames h0 = Some (b, h) ∧
    h0 `prefix_of` h ∧ fresh (length h0) b ∧
    field b [KStr "job"; KStr "name"] h
      = Some (VStr (job_name_project hint_key ncb path t2v num_frames).1).
Proof.
  destruct (make_ctrlnet_config_empty hint_key ncb path t2v num_frames)
    as (b & h & Hrun & Hname & _).
  exists (shift_val (length h0) b), (rebase h0 h). split.
  { rewrite <- (rebase_nil h0) at 1. by apply moves_make_ctrlnet_config. }
  split; [apply rebase_prefix|]. split; [apply fresh_shift|].
  by apply field_rebase_scalar.
Qed.

Lemma field2_getitem x k1 k2 h v :
  field x [k1; k2] h = Some v →
  ∃ a, getitem x k1 h = Some (a, h) ∧ getitem a k2 h = Some (v, h).
Proof.
  simpl. intros H. destruct (getitem x k1 h) as [[a ha]|] eqn:H1; [|done].
  pose proof (getitem_heap _ _ _ _ _ H1) as ->.
  destruct (getitem a k2 h) as [[y hy]|] eqn:H2; [|done].
  pose proof (getitem_heap _ _ _ _ _ H2) as ->. injection H as ->. by exists a.
Qed.

(** [cs.store(group="experiment", package="_global_", name=x["job"]["name"],
    node=x)] for a tree with a [str] as job.name. *)
Lemma store_named x name cs h :
  field x [KStr "job"; KStr "name"] h = Some (VStr name) →
  (let* job := getitem x (KStr "job") in
   let* name := getitem job (KStr "name") in
   cs_store "experiment" "_global_" name x cs) h
  = Some (cs ++ [experiment name x], h).
Proof. intros (a & H1 & H2)%field2_getitem. unfold bind. by rewrite H1, H2. Qed.

Lemma job_name_pretrain key num_frames :
  (job_name_project key num_control_blocks "" true num_frames).1 = pretrain_name key num_frames.
Proof. reflexivity. Qed.

Lemma job_name_posttrain key path num_frames :
  path ≠ "" →
  (job_name_project key num_control_blocks path true num_frames).1
  = posttrain_name key num_frames.
Proof.
  intros Hp. unfold job_name_project. by destruct (String.eqb_spec path "").
Qed.

(** One round of the loop, on any store and after any store calls, for a
    hint key with a checkpoint in the table. *)
Lemma loop_body_run h key num_frames cs entry :
  table_get (str_replace key "control_input_" "") mv_model_names = Some entry →
  ∃ t d c h',
    loop_body key num_frames cs h
      = Some (cs ++ [ experiment (pretrain_name key num_frames) t;
                      experiment (pretrain_name key num_frames +:+ "_SMALL") d;
                      experiment (posttrain_name key num_frames) c ], h') ∧
    h `prefix_of` h' ∧
    fresh (length h) t ∧ fresh (length h) d ∧ fresh (length h) c.
Proof.
  intros Hentry.
  destruct (make_small_config_fields h key num_control_blocks "" true num_frames true)
    as (t & h1 & d & h2 & Ht & Hd & _ & Hdname & _).
  destruct (make_ctrlnet_config_run h key num_control_blocks "" true num_frames)
    as (t' & h1' & Ht' & Hp1 & Hft & Htname).
  rewrite Ht in Ht'. injection Ht' as <- <-.
  destruct (hoare_make_small_config h1 t true h1 d h2 eq_refl Hd) as [Hfd [Hp2 _]].
  destruct (make_ctrlnet_config_run h2 key num_control_blocks (tp_ckpt_path entry) true
              num_frames) as (c & h3 & Hc & Hp3 & Hfc & Hcname).
  rewrite job_name_pretrain in Htname, Hdname.
  rewrite job_name_posttrain in Hcname by apply tp_ckpt_path_nonempty.
  pose proof (prefix_length _ _ Hp1). pose proof (prefix_length _ _ Hp2).
  exists t, d, c, h3. split; [|split; [by do 2 (etrans; [|done])|]].
  - unfold loop_body.
    apply bind_Some. exists t, h1. split; [done|].
    apply bind_Some. exists d, h2. split; [done|].
    apply bind_Some. eexists _, h2. split; [apply store_named; by apply (field_prefix h1)|].
    apply bind_Some. eexists _, h2. split; [by apply store_named|].
    cbv zeta. apply bind_Some. exists entry, h2. split; [by apply lift_Some|].
    apply bind_Some. exists c, h3. split; [done|].
    rewrite (store_named c _ _ h3 Hcname). by rewrite <- !app_assoc.
  - split; [done|]. split; (eapply fresh_le; [|done]); lia.
Qed.

(** X18: the module can be imported in any state: on every store the
    generation loop returns, leaves every object of the store as it is,
    makes the same 12 store calls as on the empty store, under the same
    names and in the same order, and every tree it stores is a new
    object. *)
Theorem generation_loop_any_store (h0 : heap) :
  ∃ cs h,
    generation_loop h0 = Some (cs, h) ∧
    h0 `prefix_of` h ∧
    call_name <$> cs
      = flat_map (λ kn, [ pretrain_name kn.1 kn.2;
                          pretrain_name kn.1 kn.2 +:+ "_SMALL";
                          posttrain_name kn.1 kn.2 ]) combinations ∧
    Forall (λ c, call_group c = "experiment" ∧ call_package c = "_global_" ∧
                 fresh (length h0) (call_node c)) cs.
Proof.
  assert (table_get (str_replace "control_input_hdmap" "control_input_" "") mv_model_names
          = Some SV2MV_t2v_HDMAP2WORLD_CONTROLNET_7B_CHECKPOINT_PATH_dbg) as E1 by reflexivity.
  assert (table_get (str_replace "control_input_lidar" "control_input_" "") mv_model_names
          = Some SV2MV_t2v_LIDAR2WORLD_CONTROLNET_7B_CHECKPOINT_PATH_dbg) as E2 by reflexivity.
  destruct (loop_body_run h0 "control_input_hdmap" 57 [] _ E1)
    as (t1 & d1 & c1 & h1 & R1 & P1 & Ft1 & Fd1 & Fc1).
  match type of R1 with _ = Some (?cs, _) =>
    destruct (loop_body_run h1 "control_input_hdmap" 121 cs _ E1)
      as (t2 & d2 & c2 & h2 & R2 & P2 & Ft2 & Fd2 & Fc2) end.
  match type of R2 with _ = Some (?cs, _) =>
    destruct (loop_body_run h2 "control_input_lidar" 57 cs _ E2)
      as (t3 & d3 & c3 & h3 & R3 & P3 & Ft3 & Fd3 & Fc3) end.
  match type of R3 with _ = Some (?cs, _) =>
    destruct (loop_body_run h3 "control_input_lidar" 121 cs _ E2)
      as (t4 & d4 & c4 & h4 & R4 & P4 & Ft4 & Fd4 & Fc4) end.
  pose proof (prefix_length _ _ P1). pose proof (prefix_length _ _ P2).
  pose proof (prefix_length _ _ P3).
  eexists _, h4. split.
  { unfold generation_loop, all_hint_key. cbn [for_each]. unfold bind, ret.
    rewrite R1. cbv beta iota. rewrite R2. cbv beta iota.
    rewrite R3. cbv beta iota. rewrite R4. reflexivity. }
  split; [by do 3 (etrans; [|done])|]. split; [reflexivity|].
  cbn [app].
  repeat apply Forall_cons_2; try apply Forall_nil_2;
    (split; [reflexivity|]; split; [reflexivity|]); cbn [call_node experiment];
    (eapply fresh_le; [|eassumption]); lia.
Qed.

(** *** The checkpoint of the base model *)

Lemma make_ctrlnet_config_base_empty hint_key ncb path t2v num_frames :
  ∃ b h,
    make_ctrlnet_config hint_key ncb path t2v num_frames [] = Some (b, h) ∧
    field b [KStr "model"; KStr "base_load_from"; KStr "load_path"] h
      = Some (VStr base_load_path).
Proof.
  run_make_ctrlnet_config.
  eexists _, _. split; vm_compute; reflexivity.
Qed.

(** X19: whatever the arguments, the tree of [make_ctrlnet_config] loads the
    base model from the files [model_model_mp_*.pt] in the [checkpoints_tp]
    directory beside the base checkpoint: model.base_load_from.load_path is
    the directory of the base checkpoint path, under the checkpoint root
    unless that path is absolute, then [checkpoints_tp/model_model_mp_*.pt]. *)
Theorem make_ctrlnet_config_base_load_path (h0 : heap) (hint_key : string) (ncb : Z)
    (path : string) (t2v : bool) (num_frames : Z) :
  ∃ b h,
    make_ctrlnet_config hint_key ncb path t2v num_frames h0 = Some (b, h) ∧
    field b [KStr "model"; KStr "base_load_from"; KStr "load_path"] h
      = Some (VStr
          ((if startswith_slash SV2MV_t2v_BASE_CHECKPOINT_AV_SAMPLE_PATH_dbg
            then "" else "checkpoints/")
           +:+ os_path_dirname SV2MV_t2v_BASE_CHECKPOINT_AV_SAMPLE_PATH_dbg
           +:+ (if String.eqb (os_path_dirname SV2MV_t2v_BASE_CHECKPOINT_AV_SAMPLE_PATH_dbg) ""
                   || endswith_slash
                        (os_path_dirname SV2MV_t2v_BASE_CHECKPOINT_AV_SAMPLE_PATH_dbg)
                then "" else "/")
           +:+ "checkpoints_tp/" +:+ "model_model_mp_*.pt")).
Proof.
  destruct (make_ctrlnet_config_base_empty hint_key ncb path t2v num_frames)
    as (b & h & Hrun & Hf).
  exists (shift_val (length h0) b), (rebase h0 h). split.
  { rewrite <- (rebase_nil h0) at 1. by apply moves_make_ctrlnet_config. }
  rewrite <- (os_path_join_checkpoints_tp _ "model_model_mp_*.pt") by done.
  by apply field_rebase_scalar.
Qed.

End Experiments.

(** ** The statements with a premise, at an input *)

(** C5 at a call with the path of a checkpoint. *)
Lemma make_ctrlnet_config_posttrain_witness :
  "checkpoints/ckpt/checkpoints_tp/hdmap.pt" ≠ "" ∧
  ∃ b h name,
    make_ctrlnet_config "ckpt/base.pt" "control_input_hdmap" 3
      "checkpoints/ckpt/checkpoints_tp/hdmap.pt" true 121 [] = Some (b, h) ∧
    field b [KStr "job"; KStr "name"] h = Some (VStr name) ∧
    contains_substring name "_posttrain" ∧
    field b [KStr "job"; KStr "project"] h = Some (VStr "cosmos_transfer1_posttrain") ∧
    field b [KStr "checkpoint"; KStr "load_path"] h
      = Some (VStr "checkpoints/ckpt/checkpoints_tp/hdmap.pt").
Proof.
  split; [done|].
  apply (make_ctrlnet_config_posttrain "ckpt/base.pt" [] "control_input_hdmap" 3
           "checkpoints/ckpt/checkpoints_tp/hdmap.pt" true 121).
  done.
Defined.

(** C4 at the tree of [example_store_float], whose job.name is the float
    1.5, with net_ctrl True. *)
Lemma make_small_config_input_unchanged_witness :
  closed example_store_float ∧ bound example_store_float (VRef 8) ∧
  small_config_ok (VRef 8) true example_store_float = true ∧
  ∃ s h',
    make_small_config (λ lit, lit) (λ _ _, "") (VRef 8) true example_store_float
      = Some (s, h') ∧
    (∀ l o, example_store_float !! l = Some o → h' !! l = Some o) ∧
    (∀ path v,
       field (VRef 8) path example_store_float = Some v → field (VRef 8) path h' = Some v) ∧
    (∀ path xs,
       field_list (VRef 8) path example_store_float = Some xs →
       field_list (VRef 8) path h' = Some xs) ∧
    (∀ l, reach h' s l → length example_store_float ≤ l) ∧
    (∀ l o, reach h' s l →
       ∀ l0 o0, example_store_float !! l0 = Some o0 → <[l:=o]> h' !! l0 = Some o0).
Proof.
  assert (Hc : closed example_store_float).
  { unfold closed, example_store_float, example_store. simpl. repeat constructor. }
  assert (Hb : bound example_store_float (VRef 8)) by (vm_compute; lia).
  split; [exact Hc|]. split; [exact Hb|]. split; [reflexivity|].
  destruct (make_small_config_input_unchanged (λ lit, lit) (λ _ _, "") (VRef 8) true
              example_store_float) as [Hreturns Hunchanged].
  destruct (Hreturns Hc Hb eq_refl) as (s & h' & Hrun).
  exists s, h'. split; [exact Hrun | exact (Hunchanged s h' Hrun)].
Defined.

(** ** C7 as it is stated

    The claim leaves the directory part of the table entry out of the join.
    With entries that have one, the load path of the post-training trees is
    not what the claim says. *)
Lemma generation_loop_load_path_counterexample :
  ¬ ∃ cs h,
      generation_loop "ckpt/base.pt" "ckpt/hdmap.pt" "ckpt/lidar.pt" (λ lit, lit) (λ _ _, "") []
        = Some (cs, h) ∧
      posttrain_load_paths "ckpt/hdmap.pt" "ckpt/lidar.pt"
        (λ entry, os_path_join ckpt_root ["checkpoints_tp"; os_path_basename entry]) cs h.
Proof.
  intros (cs & h & Hrun & Hall).
  apply Forall_cons in Hall as [(c & short & entry & Hin & Hname & Hkey & Htab & Hfield) _].
  apply (string_app_inj "control_input_" "hdmap" short) in Hkey. subst short.
  vm_compute in Htab. injection Htab as <-.
  vm_compute in Hrun. injection Hrun as <- <-.
  repeat (apply elem_of_cons in Hin as [->|Hin]).
  all: try (by apply elem_of_nil in Hin).
  all: try (vm_compute in Hname; discriminate Hname).
  vm_compute in Hfield. discriminate Hfield.
Qed.

(** ** More statements with a premise, at an input *)

(** X6 at a file name. *)
Lemma tp_ckpt_path_file_name_witness :
  has_slash "hdmap.pt" = false ∧
  tp_ckpt_path "hdmap.pt" = "checkpoints/checkpoints_tp/" +:+ "hdmap.pt".
Proof.
  split; [reflexivity|]. apply (tp_ckpt_path_file_name "hdmap.pt"). reflexivity.
Defined.

(** X7 at a path with a directory. *)
Lemma tp_ckpt_path_relative_witness :
  startswith_slash "ckpt/sv2mv/hdmap.pt" = false ∧
  has_slash "ckpt/sv2mv/hdmap.pt" = true ∧
  tp_ckpt_path "ckpt/sv2mv/hdmap.pt" =
    "checkpoints/" +:+ os_path_dirname "ckpt/sv2mv/hdmap.pt" +:+ "/checkpoints_tp/"
      +:+ os_path_basename "ckpt/sv2mv/hdmap.pt".
Proof.
  split; [reflexivity|]. split; [reflexivity|].
  apply (tp_ckpt_path_relative "ckpt/sv2mv/hdmap.pt"); reflexivity.
Defined.

(** X8 at an absolute path. *)
Lemma tp_ckpt_path_absolute_witness :
  startswith_slash "/data/ckpt/hdmap.pt" = true ∧
  startswith_slash (tp_ckpt_path "/data/ckpt/hdmap.pt") = true ∧
  tp_ckpt_path "/data/ckpt/hdmap.pt" =
    os_path_dirname "/data/ckpt/hdmap.pt"
      +:+ (if endswith_slash (os_path_dirname "/data/ckpt/hdmap.pt") then "" else "/")
      +:+ "checkpoints_tp/" +:+ os_path_basename "/data/ckpt/hdmap.pt".
Proof.
  split; [reflexivity|]. apply (tp_ckpt_path_absolute "/data/ckpt/hdmap.pt"). reflexivity.
Defined.

(** X9 at two calls that differ in the checkpoint path only. *)
Lemma job_name_injective_witness :
  (job_name_project "control_input_hdmap" 3 "a.pt" true 57).1
  = (job_name_project "control_input_hdmap" 3 "b.pt" true 57).1 ∧
  ("control_input_hdmap" = "control_input_hdmap" ∧ 3%Z = 3%Z ∧ true = true ∧ 57%Z = 57%Z ∧
   ("a.pt" = "" ↔ "b.pt" = "")).
Proof.
  split; [reflexivity|].
  apply (job_name_injective "control_input_hdmap" "control_input_hdmap" 3 3 "a.pt" "b.pt"
           true true 57 57).
  reflexivity.
Defined.

(** X10 at the hint key of the HD map. *)
Lemma hint_key_short_witness :
  str_contains "control_input_" "hdmap" = false ∧
  str_replace ("control_input_" +:+ "hdmap") "control_input_" "" = "hdmap" ∧
  str_replace "hdmap" "control_input_" "" = "hdmap".
Proof.
  split; [reflexivity|]. apply (hint_key_short "hdmap"). reflexivity.
Defined.

(** X11 at a hint key without a checkpoint. *)
Lemma loop_body_unknown_hint_key_witness :
  table_get (str_replace "control_input_depth" "control_input_" "")
    (mv_model_names "ckpt/hdmap.pt" "ckpt/lidar.pt") = None ∧
  loop_body "ckpt/base.pt" "ckpt/hdmap.pt" "ckpt/lidar.pt" (λ lit, lit) (λ _ _, "")
    "control_input_depth" 57 [] [] = None.
Proof.
  split; [reflexivity|].
  apply (loop_body_unknown_hint_key "ckpt/base.pt" "ckpt/hdmap.pt" "ckpt/lidar.pt"
           (λ lit, lit) (λ _ _, "") "control_input_depth" 57 [] []).
  reflexivity.
Defined.

(** X12 at the tree of [example_store]. *)
Lemma deepcopy_copy_witness :
  closed example_store ∧ bound example_store (VRef 8) ∧
  ∃ y h',
    deepcopy (VRef 8) example_store = Some (y, h') ∧
    example_store `prefix_of` h' ∧
    (∀ path,
       match field (VRef 8) path example_store with
       | Some v => ∃ v', field y path h' = Some v' ∧ copy_val example_store h' v v'
       | None => field y path h' = None
       end) ∧
    (∀ p1 p2 l,
       field (VRef 8) p1 example_store = Some (VRef l) →
       field (VRef 8) p2 example_store = Some (VRef l) →
       field y p1 h' = field y p2 h').
Proof.
  assert (Hc : closed example_store).
  { unfold closed, example_store. repeat constructor. }
  assert (Hb : bound example_store (VRef 8)) by (vm_compute; lia).
  split; [exact Hc|]. split; [exact Hb|].
  apply (deepcopy_copy example_store (VRef 8) Hc Hb).
Defined.

(** X13 at the tree of [example_store_list], whose job.name is a list, with
    net_ctrl True. *)
Lemma make_small_config_assigns_witness :
  ∃ s h',
    make_small_config (λ lit, lit) (λ _ _, "[False, True, True]") (VRef 8) true
      example_store_list = Some (s, h') ∧
    (field s [KStr "job"; KStr "group"] h' = Some (VStr "debug") ∧
     (∃ text, field s [KStr "job"; KStr "name"] h' = Some (VStr (text +:+ "_SMALL"))) ∧
     field s [KStr "model"; KStr "net"; KStr "num_blocks"] h' = Some (VInt 2) ∧
     (true = true →
        field s [KStr "model"; KStr "net_ctrl"; KStr "num_blocks"] h' = Some (VInt 2) ∧
        field_list s [KStr "model"; KStr "net_ctrl"; KStr "layer_mask"] h'
          = Some [VBool false; VBool true]) ∧
     field s [KStr "model_parallel"; KStr "tensor_model_parallel_size"] h' = Some (VInt 1) ∧
     field s [KStr "model_parallel"; KStr "sequence_parallel"] h' = Some (VBool false) ∧
     field s [KStr "checkpoint"; KStr "load_path"] h' = Some (VStr "") ∧
     field s [KStr "model"; KStr "base_load_from"; KStr "load_path"] h' = Some (VStr "")).
Proof.
  eexists _, _. split; [vm_compute; reflexivity|].
  apply (make_small_config_assigns (λ lit, lit) (λ _ _, "[False, True, True]") (VRef 8) true
           example_store_list).
  vm_compute. reflexivity.
Defined.

(** X14 at the tree of [example_store_float], whose job.name is the float
    1.5, with net_ctrl True. *)
Lemma make_small_config_returns_witness :
  closed example_store_float ∧ bound example_store_float (VRef 8) ∧
  small_config_ok (VRef 8) true example_store_float = true ∧
  field (VRef 8) [KStr "job"; KStr "name"] example_store_float = Some (VFloat "1.5") ∧
  ∃ s h' text,
    make_small_config (λ lit, lit) (λ _ _, "") (VRef 8) true example_store_float
      = Some (s, h') ∧
    field s [KStr "job"; KStr "name"] h' = Some (VStr (text +:+ "_SMALL")) ∧
    (scalar (VFloat "1.5") →
     text = format_val (λ lit, lit) (λ _ _, "") example_store_float (VFloat "1.5")).
Proof.
  assert (Hc : closed example_store_float).
  { unfold closed, example_store_float, example_store. simpl. repeat constructor. }
  assert (Hb : bound example_store_float (VRef 8)) by (vm_compute; lia).
  split; [exact Hc|]. split; [exact Hb|].
  split; [reflexivity|]. split; [reflexivity|].
  apply (make_small_config_returns (λ lit, lit) (λ _ _, "") (VRef 8) true example_store_float
           (VFloat "1.5") Hc Hb); reflexivity.
Defined.

(** X15 at a tree with a job and nothing else. *)
Lemma make_small_config_raises_witness :
  closed [ODict [(KStr "job", VRef 1)]; ODict [(KStr "name", VStr "n")]] ∧
  bound [ODict [(KStr "job", VRef 1)]; ODict [(KStr "name", VStr "n")]] (VRef 0) ∧
  small_config_ok (VRef 0) false
    [ODict [(KStr "job", VRef 1)]; ODict [(KStr "name", VStr "n")]] = false ∧
  make_small_config (λ lit, lit) (λ _ _, "") (VRef 0) false
    [ODict [(KStr "job", VRef 1)]; ODict [(KStr "name", VStr "n")]] = None.
Proof.
  assert (Hc : closed [ODict [(KStr "job", VRef 1)]; ODict [(KStr "name", VStr "n")]]).
  { unfold closed. repeat constructor. }
  assert (Hb : bound [ODict [(KStr "job", VRef 1)]; ODict [(KStr "name", VStr "n")]] (VRef 0))
    by (vm_compute; lia).
  split; [exact Hc|]. split; [exact Hb|]. split; [reflexivity|].
  apply (make_small_config_raises (λ lit, lit) (λ _ _, "") (VRef 0) false _ Hc Hb). reflexivity.
Defined.

(** X16 at the tree of [example_store_trainer] and the path to
    trainer.max_iter. *)
Lemma make_small_config_elsewhere_witness :
  closed example_store_trainer ∧ bound example_store_trainer (VRef 11) ∧
  Forall (λ k, k ∉ small_config_keys) [KStr "trainer"; KStr "max_iter"] ∧
  ∃ s h',
    make_small_config (λ lit, lit) (λ _ _, "") (VRef 11) true example_store_trainer
      = Some (s, h') ∧
    ((∀ v, field (VRef 11) [KStr "trainer"; KStr "max_iter"] example_store_trainer = Some v →
           scalar v → field s [KStr "trainer"; KStr "max_iter"] h' = Some v) ∧
     (∀ xs, field_list (VRef 11) [KStr "trainer"; KStr "max_iter"] example_store_trainer
              = Some xs →
            Forall scalar xs → field_list s [KStr "trainer"; KStr "max_iter"] h' = Some xs)).
Proof.
  assert (Hc : closed example_store_trainer).
  { unfold closed, example_store_trainer, example_store. simpl. repeat constructor. }
  assert (Hb : bound example_store_trainer (VRef 11)) by (vm_compute; lia).
  assert (Hp : Forall (λ k, k ∉ small_config_keys) [KStr "trainer"; KStr "max_iter"]).
  { unfold small_config_keys.
    repeat (apply Forall_cons_2;
            [repeat (apply not_elem_of_cons; split; [discriminate|]); apply not_elem_of_nil|]).
    apply Forall_nil_2. }
  split; [exact Hc|]. split; [exact Hb|]. split; [exact Hp|].
  eexists _, _. split; [vm_compute; reflexivity|].
  apply (make_small_config_elsewhere (λ lit, lit) (λ _ _, "") (VRef 11) true
           example_store_trainer _ _ [KStr "trainer"; KStr "max_iter"] Hc Hb);
    [vm_compute; reflexivity | exact Hp].
Defined.
